(** * Graph IR rewriting passes: differentiable-subgraph extraction and
      in-place-operator removal for ONNX export

    A shallow embedding of [create_autodiff_subgraphs.cpp] and
    [remove_inplace_ops_for_onnx.cpp].  The IR ([ir.h]) and the dynamic DAG
    ([dynamic_dag.h]) are not part of the sources at hand; they are modelled
    as an arena of nodes, blocks and values indexed by integer handles. *)

From Stdlib Require Import ZArith Lia Bool.
From stdpp Require Import base option list strings gmap sorting.

Open Scope string_scope.

(** ** Results of fallible, possibly diverging code *)

Inductive Result (A : Type) : Type :=
  | Ok (a : A)
  | Fail (msg : string)      (* TORCH_INTERNAL_ASSERT / JIT_ASSERT / null dereference *)
  | OutOfFuel.               (* the walk did not finish within the bound *)
Arguments Ok {A} a.
Arguments Fail {A} msg.
Arguments OutOfFuel {A}.

Definition rbind {A B} (r : Result A) (k : A -> Result B) : Result B :=
  match r with
  | Ok a => k a
  | Fail m => Fail m
  | OutOfFuel => OutOfFuel
  end.

Definition of_option {A} (msg : string) (o : option A) : Result A :=
  match o with Some a => Ok a | None => Fail msg end.

Definition is_ok {A} (r : Result A) : bool :=
  match r with Ok _ => true | _ => false end.

(** ** The IR arena *)

Definition value := nat.
Definition node := nat.
Definition block := nat.
Definition Symbol := string.

Inductive TypeKind :=
  | TensorType | ListType | IntType | FloatType | BoolType | NoneType
  | OptionalType | DictType | StringType | NumberType.

Inductive IValue := INone | IBool (b : bool) | IInt (z : Z) | IEmptyList.

Record NodeR := mkNode {
  n_kind : Symbol;
  n_inputs : list value;
  n_outputs : list value;
  n_blocks : list block;
  n_owning_block : option block;
  n_ival : option IValue;          (* attr::value of a prim::Constant *)
  n_name : option string;          (* attr::name *)
}.

Record BlockR := mkBlock {
  b_owning_node : option node;
  b_param : node;
  b_return : node;
  b_nodes : list node;
}.

Record ValueR := mkValue {
  v_node : node;
  v_type : TypeKind;
}.

Record Graph := mkGraph {
  g_nodes : list (option NodeR);
  g_blocks : list BlockR;
  g_values : list ValueR;
  g_block : block;
  g_cerr : list string;            (* what the passes have written to std::cerr *)
}.

#[global] Instance TypeKind_eq_dec : EqDecision TypeKind.
Proof. solve_decision. Defined.
#[global] Instance IValue_eq_dec : EqDecision IValue.
Proof. solve_decision. Defined.
#[global] Instance NodeR_eq_dec : EqDecision NodeR.
Proof. solve_decision. Defined.
#[global] Instance BlockR_eq_dec : EqDecision BlockR.
Proof. solve_decision. Defined.
#[global] Instance ValueR_eq_dec : EqDecision ValueR.
Proof. solve_decision. Defined.
#[global] Instance Graph_eq_dec : EqDecision Graph.
Proof. solve_decision. Defined.

Definition prim_Param : Symbol := "prim::Param".
Definition prim_Return : Symbol := "prim::Return".
Definition prim_Constant : Symbol := "prim::Constant".
Definition prim_If : Symbol := "prim::If".
Definition prim_Loop : Symbol := "prim::Loop".
Definition prim_ListConstruct : Symbol := "prim::ListConstruct".
Definition prim_DifferentiableGraph : Symbol := "prim::DifferentiableGraph".
Definition prim_GetAttr : Symbol := "prim::GetAttr".
Definition prim_SetAttr : Symbol := "prim::SetAttr".
Definition onnx_Placeholder : Symbol := "onnx::Placeholder".
Definition aten_append : Symbol := "aten::append".
Definition aten_insert : Symbol := "aten::insert".
Definition aten_pop : Symbol := "aten::pop".
Definition aten_Delete : Symbol := "aten::Delete".
Definition aten__set_item : Symbol := "aten::_set_item".
Definition aten___getitem__ : Symbol := "aten::__getitem__".
Definition aten_copy_ : Symbol := "aten::copy_".
Definition aten_index_put : Symbol := "aten::index_put".
Definition aten_index_put_ : Symbol := "aten::index_put_".
Definition aten_expand_as : Symbol := "aten::expand_as".
Definition aten_select : Symbol := "aten::select".
Definition aten_slice : Symbol := "aten::slice".
Definition aten_clone : Symbol := "aten::clone".
Definition aten_list : Symbol := "aten::list".

Definition set_inputs (r : NodeR) (l : list value) : NodeR :=
  mkNode (n_kind r) l (n_outputs r) (n_blocks r) (n_owning_block r) (n_ival r) (n_name r).
Definition set_outputs (r : NodeR) (l : list value) : NodeR :=
  mkNode (n_kind r) (n_inputs r) l (n_blocks r) (n_owning_block r) (n_ival r) (n_name r).
Definition set_blocks (r : NodeR) (l : list block) : NodeR :=
  mkNode (n_kind r) (n_inputs r) (n_outputs r) l (n_owning_block r) (n_ival r) (n_name r).
Definition set_owning_block (r : NodeR) (b : option block) : NodeR :=
  mkNode (n_kind r) (n_inputs r) (n_outputs r) (n_blocks r) b (n_ival r) (n_name r).
Definition set_ival (r : NodeR) (c : option IValue) : NodeR :=
  mkNode (n_kind r) (n_inputs r) (n_outputs r) (n_blocks r) (n_owning_block r) c (n_name r).
Definition set_name (r : NodeR) (s : option string) : NodeR :=
  mkNode (n_kind r) (n_inputs r) (n_outputs r) (n_blocks r) (n_owning_block r) (n_ival r) s.
Definition set_b_nodes (r : BlockR) (l : list node) : BlockR :=
  mkBlock (b_owning_node r) (b_param r) (b_return r) l.

Definition with_nodes (g : Graph) (ns : list (option NodeR)) : Graph :=
  mkGraph ns (g_blocks g) (g_values g) (g_block g) (g_cerr g).
Definition with_blocks (g : Graph) (bs : list BlockR) : Graph :=
  mkGraph (g_nodes g) bs (g_values g) (g_block g) (g_cerr g).
Definition with_values (g : Graph) (vs : list ValueR) : Graph :=
  mkGraph (g_nodes g) (g_blocks g) vs (g_block g) (g_cerr g).
Definition with_cerr (g : Graph) (l : list string) : Graph :=
  mkGraph (g_nodes g) (g_blocks g) (g_values g) (g_block g) l.

(** Read-only accessors.  A handle that is null, destroyed or out of range
    reads as [None]. *)

Definition get_node (g : Graph) (n : node) : option NodeR := mjoin (g_nodes g !! n).
Definition get_block (g : Graph) (b : block) : option BlockR := g_blocks g !! b.
Definition kind (g : Graph) (n : node) : option Symbol := n_kind <$> get_node g n.
Definition inputs (g : Graph) (n : node) : list value :=
  default [] (n_inputs <$> get_node g n).
Definition outputs (g : Graph) (n : node) : list value :=
  default [] (n_outputs <$> get_node g n).
Definition blocks (g : Graph) (n : node) : list block :=
  default [] (n_blocks <$> get_node g n).
Definition owningBlock (g : Graph) (n : node) : option block :=
  get_node g n ≫= n_owning_block.
Definition owningNode (g : Graph) (b : block) : option node :=
  get_block g b ≫= b_owning_node.
Definition node_of (g : Graph) (v : value) : option node := v_node <$> g_values g !! v.
Definition type_of (g : Graph) (v : value) : option TypeKind := v_type <$> g_values g !! v.
Definition return_node (g : Graph) (b : block) : option node := b_return <$> get_block g b.
Definition param_node (g : Graph) (b : block) : option node := b_param <$> get_block g b.
Definition block_nodes (g : Graph) (b : block) : list node :=
  default [] (b_nodes <$> get_block g b).
Definition block_inputs (g : Graph) (b : block) : list value :=
  default [] (outputs g <$> param_node g b).
Definition block_outputs (g : Graph) (b : block) : list value :=
  default [] (inputs g <$> return_node g b).

(** ** The graph-editing monad *)

Definition M (A : Type) : Type := Graph -> Result (A * Graph).

Definition ret {A} (a : A) : M A := fun g => Ok (a, g).
Definition bind {A B} (m : M A) (k : A -> M B) : M B :=
  fun g => match m g with
           | Ok (a, g') => k a g'
           | Fail s => Fail s
           | OutOfFuel => OutOfFuel
           end.
Definition fail {A} (msg : string) : M A := fun _ => Fail msg.
Definition get : M Graph := fun g => Ok (g, g).
Definition put (g : Graph) : M unit := fun _ => Ok (tt, g).
Definition lift_opt {A} (msg : string) (f : Graph -> option A) : M A :=
  fun g => match f g with Some a => Ok (a, g) | None => Fail msg end.
Definition lift_res {A} (f : Graph -> Result A) : M A :=
  fun g => rbind (f g) (fun a => Ok (a, g)).
Definition assert (msg : string) (b : bool) : M unit :=
  if b then ret tt else fail msg.

Declare Scope M_scope.
Delimit Scope M_scope with M.
Notation "x <- m ;; k" := (bind m (fun x => k))
  (at level 100, m at next level, right associativity) : M_scope.
Notation "m ;;; k" := (bind m (fun _ => k))
  (at level 100, right associativity) : M_scope.
Open Scope M_scope.

(** A [for (x : xs)] loop whose body edits the graph. *)
Fixpoint for_each {A} (xs : list A) (body : A -> M unit) : M unit :=
  match xs with
  | [] => ret tt
  | x :: xs' => body x ;;; for_each xs' body
  end.

(** A loop that threads an accumulator. *)
Fixpoint foldM {A B} (xs : list A) (body : B -> A -> M B) (acc : B) : M B :=
  match xs with
  | [] => ret acc
  | x :: xs' => acc' <- body acc x ;; foldM xs' body acc'
  end.

(** ** IR primitives

    Modelled from the spec: the Graph/Node/Value/Block operations of [ir.h]
    (section 4.1 of the specification), which the two passes call but whose
    code is not in the sources at hand. *)

Definition upd_node (n : node) (f : NodeR -> NodeR) : M unit :=
  fun g => match get_node g n with
           | Some r => Ok (tt, with_nodes g (<[n := Some (f r)]> (g_nodes g)))
           | None => Fail "node: dangling handle"
           end.

Definition upd_block (b : block) (f : BlockR -> BlockR) : M unit :=
  fun g => match get_block g b with
           | Some r => Ok (tt, with_blocks g (<[b := f r]> (g_blocks g)))
           | None => Fail "block: dangling handle"
           end.

(** [Node::addInput] *)
Definition addInput (n : node) (v : value) : M unit :=
  upd_node n (fun r => set_inputs r (n_inputs r ++ [v])).

(** [Node::addOutput]: a fresh value, whose unique id is the next free one. *)
Definition addOutput (n : node) : M value :=
  fun g => match get_node g n with
           | Some r =>
               let v := length (g_values g) in
               Ok (v, mkGraph (<[n := Some (set_outputs r (n_outputs r ++ [v]))]> (g_nodes g))
                              (g_blocks g)
                              (g_values g ++ [mkValue n TensorType])
                              (g_block g) (g_cerr g))
           | None => Fail "node: dangling handle"
           end.

(** [Value::setType] *)
Definition setType (v : value) (t : TypeKind) : M unit :=
  fun g => match g_values g !! v with
           | Some r => Ok (tt, with_values g (<[v := mkValue (v_node r) t]> (g_values g)))
           | None => Fail "value: dangling handle"
           end.

(** [Node::replaceInput] *)
Definition replaceInput (n : node) (i : nat) (v : value) : M unit :=
  r <- lift_opt "node: dangling handle" (fun g => get_node g n) ;;
  assert "replaceInput: index out of range" (bool_decide (i < length (n_inputs r))) ;;;
  upd_node n (fun r => set_inputs r (<[i := v]> (n_inputs r))).

(** [Block::registerOutput] and [Block::addInput] go through the block's
    return and param nodes. *)
Definition registerOutput (b : block) (v : value) : M unit :=
  rn <- lift_opt "block: dangling handle" (fun g => return_node g b) ;;
  addInput rn v.

Definition block_addInput (b : block) : M value :=
  pn <- lift_opt "block: dangling handle" (fun g => param_node g b) ;;
  addOutput pn.

(** [Graph::create]: a node with [num_outputs] fresh outputs, in no block. *)
Fixpoint addOutputs (n : node) (k : nat) : M unit :=
  match k with
  | 0 => ret tt
  | S k' => _ <- addOutput n ;; addOutputs n k'
  end.

Definition create (k : Symbol) (num_outputs : nat) : M node :=
  g <- get ;;
  let n := length (g_nodes g) in
  put (with_nodes g (g_nodes g ++ [Some (mkNode k [] [] [] None None None)])) ;;;
  addOutputs n num_outputs ;;;
  ret n.

(** [Node::addBlock]: a fresh block with its param and return nodes. *)
Definition addBlock (n : node) : M block :=
  g <- get ;;
  let b := length (g_blocks g) in
  let pn := length (g_nodes g) in
  let rn := S pn in
  put (mkGraph (g_nodes g ++ [Some (mkNode prim_Param [] [] [] (Some b) None None);
                              Some (mkNode prim_Return [] [] [] (Some b) None None)])
               (g_blocks g ++ [mkBlock (Some n) pn rn []])
               (g_values g) (g_block g) (g_cerr g)) ;;;
  upd_node n (fun r => set_blocks r (n_blocks r ++ [b])) ;;;
  ret b.

(** A graph with an empty top-level block. *)
Definition empty_graph : Graph :=
  mkGraph [Some (mkNode prim_Param [] [] [] (Some 0) None None);
           Some (mkNode prim_Return [] [] [] (Some 0) None None)]
          [mkBlock None 0 1 []] [] 0 [].

(** [Node::output()] asserts that the node has exactly one output. *)
Definition output (n : node) : M value :=
  fun g => match outputs g n with
           | [v] => Ok (v, g)
           | _ => Fail "output(): node does not have exactly one output"
           end.

(** [Node::input(i)] / [inputs().at(i)] *)
Definition input (n : node) (i : nat) : M value :=
  lift_opt "input(i): index out of range" (fun g => inputs g n !! i).

(** Position of an element in a list. *)
Fixpoint index_of (x : nat) (l : list nat) : option nat :=
  match l with
  | [] => None
  | y :: l' => if decide (x = y) then Some 0 else S <$> index_of x l'
  end.

Fixpoint insert_at (i : nat) (x : nat) (l : list nat) : list nat :=
  match i, l with
  | 0, _ => x :: l
  | S i', y :: l' => y :: insert_at i' x l'
  | S _, [] => [x]
  end.

Definition remove_elem (x : nat) (l : list nat) : list nat :=
  filter (fun y => y ≠ x) l.

(** [Node::insertBefore]: the node must not be in a block list, the anchor
    must be. *)
Definition insertBefore (n anchor : node) : M unit :=
  r <- lift_opt "node: dangling handle" (fun g => get_node g n) ;;
  assert "insertBefore: node already in a block" (bool_decide (n_owning_block r = None)) ;;;
  b <- lift_opt "insertBefore: anchor not in a block" (fun g => owningBlock g anchor) ;;
  br <- lift_opt "block: dangling handle" (fun g => get_block g b) ;;
  (if decide (anchor = b_return br)
   then upd_block b (fun br => set_b_nodes br (b_nodes br ++ [n]))
   else match index_of anchor (b_nodes br) with
        | Some i => upd_block b (fun br => set_b_nodes br (insert_at i n (b_nodes br)))
        | None => fail "insertBefore: anchor not in its block list"
        end) ;;;
  upd_node n (fun r => set_owning_block r (Some b)).

(** [Node::insertAfter] *)
Definition insertAfter (n anchor : node) : M unit :=
  r <- lift_opt "node: dangling handle" (fun g => get_node g n) ;;
  assert "insertAfter: node already in a block" (bool_decide (n_owning_block r = None)) ;;;
  b <- lift_opt "insertAfter: anchor not in a block" (fun g => owningBlock g anchor) ;;
  br <- lift_opt "block: dangling handle" (fun g => get_block g b) ;;
  (if decide (anchor = b_param br)
   then upd_block b (fun br => set_b_nodes br (n :: b_nodes br))
   else match index_of anchor (b_nodes br) with
        | Some i => upd_block b (fun br => set_b_nodes br (insert_at (S i) n (b_nodes br)))
        | None => fail "insertAfter: anchor not in its block list"
        end) ;;;
  upd_node n (fun r => set_owning_block r (Some b)).

(** [Block::prependNode] / [Block::appendNode] *)
Definition prependNode (b : block) (n : node) : M unit :=
  pn <- lift_opt "block: dangling handle" (fun g => param_node g b) ;;
  insertAfter n pn.

Definition appendNode (b : block) (n : node) : M unit :=
  rn <- lift_opt "block: dangling handle" (fun g => return_node g b) ;;
  insertBefore n rn.

(** [Node::removeFromList] *)
Definition removeFromList (n : node) : M unit :=
  b <- lift_opt "removeFromList: node not in a block" (fun g => owningBlock g n) ;;
  upd_block b (fun br => set_b_nodes br (remove_elem n (b_nodes br))) ;;;
  upd_node n (fun r => set_owning_block r None).

(** [Node::moveBefore] *)
Definition moveBefore (n anchor : node) : M unit :=
  removeFromList n ;;; insertBefore n anchor.

(** The use list of a value: every (user, offset) at which it is read.  It
    is computed from the inputs of the nodes and comes by node handle and
    offset; the source keeps the uses in the order in which they were
    added. *)
Definition uses_in (v : value) (n : node) (ins : list value) : list (node * nat) :=
  omap (fun '(i, x) => if decide (x = v) then Some (n, i) else None) (imap pair ins).

Definition uses (g : Graph) (v : value) : list (node * nat) :=
  concat (imap (fun n o => match o with
                           | Some r => uses_in v n (n_inputs r)
                           | None => []
                           end) (g_nodes g)).

(** [Value::replaceAllUsesWith] *)
Definition subst_value (old new : value) (x : value) : value :=
  if decide (x = old) then new else x.

Definition replaceAllUsesWith (old new : value) : M unit :=
  fun g => Ok (tt, with_nodes g
    (fmap (M := list) (fmap (M := option) (fun r => set_inputs r (subst_value old new <$> n_inputs r)))
          (g_nodes g))).

(** [Node::destroy]: every output must be free of uses; the node leaves
    its block list and its handle is freed.  A node that owns blocks is
    outside this model. *)
Definition destroy (n : node) : M unit :=
  r <- lift_opt "node: dangling handle" (fun g => get_node g n) ;;
  g <- get ;;
  assert "destroy: output still has uses"
    (forallb (fun v => bool_decide (uses g v = [])) (n_outputs r)) ;;;
  assert "destroy: node owns blocks" (bool_decide (n_blocks r = [])) ;;;
  (match n_owning_block r with
   | Some _ => removeFromList n
   | None => ret tt
   end) ;;;
  g <- get ;;
  put (with_nodes g (<[n := None]> (g_nodes g))).

(** Modelled from the spec: [Node::isBefore] of [ir.h].  A node has a
    position in its owning block's order (the param node first, the return
    node last); two nodes of different blocks are compared at the first
    block that encloses both. *)
Definition topo_position (g : Graph) (n : node) : option nat :=
  b ← owningBlock g n;
  br ← get_block g b;
  if decide (n = b_param br) then Some 0
  else if decide (n = b_return br) then Some (S (length (b_nodes br)))
  else S <$> index_of n (b_nodes br).

Fixpoint up_chain (fuel : nat) (g : Graph) (n : node) : list node :=
  n :: match fuel with
       | 0 => []
       | S f => match owningBlock g n ≫= owningNode g with
                | Some p => up_chain f g p
                | None => []
                end
       end.

Definition same_block (g : Graph) (l r : node) : bool :=
  match owningBlock g l, owningBlock g r with
  | Some a, Some b => bool_decide (a = b)
  | _, _ => false
  end.

Fixpoint find_same_block (g : Graph) (l : node) (rs : list node) : option node :=
  match rs with
  | [] => None
  | r :: rs' => if same_block g l r then Some r else find_same_block g l rs'
  end.

Fixpoint find_common (g : Graph) (ls rs : list node) : option (node * node) :=
  match ls with
  | [] => None
  | l :: ls' => match find_same_block g l rs with
                | Some r => Some (l, r)
                | None => find_common g ls' rs
                end
  end.

Definition common_block_pair (g : Graph) (n m : node) : option (node * node) :=
  let fuel := length (g_blocks g) in
  find_common g (up_chain fuel g n) (up_chain fuel g m).

Definition isBefore (g : Graph) (n m : node) : bool :=
  match common_block_pair g n m with
  | Some (l, r) =>
      match topo_position g l, topo_position g r with
      | Some p, Some q => bool_decide (p < q)
      | _, _ => false
      end
  | None => false
  end.

Definition isAfter (g : Graph) (n m : node) : bool := isBefore g m n.

(** Modelled from the spec: [Value::replaceAllUsesAfterNodeWith] of [ir.h]:
    every use whose user is positioned after [n] is rewired. *)
Definition replaceAllUsesAfterNodeWith (old : value) (n : node) (new : value) : M unit :=
  fun g => Ok (tt, with_nodes g
    (imap (fun u o => match o with
                      | Some r => if isAfter g u n
                                  then Some (set_inputs r (subst_value old new <$> n_inputs r))
                                  else Some r
                      | None => None
                      end) (g_nodes g))).

(** ** The alias tracker ([InplaceConverter::ValueTracker]) *)

Record ValueTracker := mkVT {
  root_block_ : block;
  alias_to_value_ : gmap value value;
  (* each std::set<Value*, aliasComp> is kept as its iteration order *)
  value_to_sorted_aliases_ : gmap value (list value);
}.

(** [ValueTracker::init] *)
Definition init (g : Graph) : ValueTracker := mkVT (g_block g) ∅ ∅.

(** [ValueTracker::aliasComp] *)
Definition aliasComp (g : Graph) (a b : value) : bool :=
  match node_of g a, node_of g b with
  | Some n_a, Some n_b =>
      if decide (n_a = n_b) then false
      else
        let a_b := isBefore g n_a n_b in
        let b_a := isBefore g n_b n_a in
        if Bool.eqb a_b b_a then bool_decide (a < b) else a_b
  | _, _ => false
  end.

(** [std::set::insert] under a comparator.  The set is kept as the list of
    its elements in iteration order, and the search of the tree for the place
    of the new element is a scan of that list: the element goes before the
    first one it is ordered before, and an equivalent element (neither is
    ordered before the other) blocks the insertion.  Scan and tree search
    agree as long as the comparator orders the elements of the set
    consistently; [aliasComp] does not always do so (it falls back on the
    handles of two values when their nodes are not ordered), and on such a
    set the tree of the source may place the element elsewhere. *)
Fixpoint set_insert (comp : value -> value -> bool) (x : value) (l : list value) : list value :=
  match l with
  | [] => [x]
  | y :: l' => if comp x y then x :: y :: l'
               else if comp y x then y :: set_insert comp x l'
               else y :: l'
  end.

(** The [isAncestor] lambda of [registerSetValue] and
    [findAliasForValueAtNode]; a null block pointer is [None]. *)
Fixpoint isAncestor_aux (fuel : nat) (g : Graph) (a b : option block) : Result bool :=
  match b ≫= owningNode g with
  | Some on =>
      if decide (a = b) then Ok true
      else match fuel with
           | 0 => OutOfFuel
           | S f => isAncestor_aux f g a (owningBlock g on)
           end
  | None => Ok (bool_decide (a = b))
  end.

Definition isAncestor (g : Graph) (a b : option block) : Result bool :=
  isAncestor_aux (length (g_blocks g)) g a b.

(** [std::any_of] with a predicate that may fail. *)
Fixpoint any_of {A} (p : A -> Result bool) (l : list A) : Result bool :=
  match l with
  | [] => Ok false
  | x :: l' => rbind (p x) (fun b => if b then Ok true else any_of p l')
  end.

Definition vt_set_aliases (vt : ValueTracker) (root_v : value) (s : list value) : ValueTracker :=
  mkVT (root_block_ vt) (alias_to_value_ vt) (<[root_v := s]> (value_to_sorted_aliases_ vt)).
Definition vt_set_root (vt : ValueTracker) (a root_v : value) : ValueTracker :=
  mkVT (root_block_ vt) (<[a := root_v]> (alias_to_value_ vt)) (value_to_sorted_aliases_ vt).

(** [ValueTracker::registerSetValue].  The body is written over its own
    recursive call [rec]; [registerSetValue_aux] ties the knot. *)
Definition is_registered (sorted_alias : list value) (block_outs : list value) : bool :=
  existsb (fun out => existsb (fun alias => bool_decide (alias = out)) sorted_alias) block_outs.

Definition from_outer_block (g : Graph) (sorted_alias : list value) (owning_blocknode : node)
  : Result bool :=
  any_of (fun alias => isAncestor g (node_of g alias ≫= owningBlock g)
                                    (owningBlock g owning_blocknode))
         sorted_alias.

Definition track_old (vt : ValueTracker) (old_v : value) : ValueTracker :=
  match alias_to_value_ vt !! old_v with
  | Some _ => vt
  | None => vt_set_aliases (vt_set_root vt old_v old_v) old_v [old_v]
  end.

Definition root_of (vt : ValueTracker) (old_v : value) : value :=
  default old_v (alias_to_value_ (track_old vt old_v) !! old_v).

Definition aliases_of (vt : ValueTracker) (root_v : value) : list value :=
  default [] (value_to_sorted_aliases_ vt !! root_v).

Definition track_new (g : Graph) (vt : ValueTracker) (old_v new_v : value) : ValueTracker :=
  let vt1 := track_old vt old_v in
  let root_v := root_of vt old_v in
  vt_set_aliases (vt_set_root vt1 new_v root_v) root_v
    (set_insert (aliasComp g) new_v (aliases_of vt1 root_v)).

Definition thread_loop (rec : ValueTracker -> value -> value -> M ValueTracker)
    (vt2 : ValueTracker) (root_v new_v : value) (ob : block) (owning_blocknode : node)
  : M ValueTracker :=
  registerOutput ob new_v ;;;
  new_block_in <- block_addInput ob ;;
  g1 <- get ;;
  let vt3 := vt_set_root
               (vt_set_aliases vt2 root_v
                  (set_insert (aliasComp g1) new_block_in (aliases_of vt2 root_v)))
               new_block_in root_v in
  addInput owning_blocknode root_v ;;;
  new_blocknode_out <- addOutput owning_blocknode ;;
  rec vt3 root_v new_blocknode_out.

Definition thread_if (rec : ValueTracker -> value -> value -> M ValueTracker)
    (vt2 : ValueTracker) (root_v new_v : value) (ob : block) (owning_blocknode : node)
  : M ValueTracker :=
  (* Only register as output, if there this value comes from outer block. *)
  from_outer <- lift_res (fun g =>
    from_outer_block g (aliases_of vt2 root_v) owning_blocknode) ;;
  if from_outer then
    sub_blocks <- lift_opt "node: dangling handle"
                    (fun g => n_blocks <$> get_node g owning_blocknode) ;;
    for_each sub_blocks (fun if_sub_block =>
      if decide (ob = if_sub_block)
      then registerOutput if_sub_block new_v
      else registerOutput if_sub_block root_v) ;;;
    new_blocknode_out <- addOutput owning_blocknode ;;
    rec vt2 root_v new_blocknode_out
  else ret vt2.

Definition registerSetValue_body (rec : ValueTracker -> value -> value -> M ValueTracker)
    (vt : ValueTracker) (old_v new_v : value) : M ValueTracker :=
  n <- lift_opt "value: dangling handle" (fun g => node_of g new_v) ;;
  g0 <- get ;;
  let owning_block := owningBlock g0 n in
  let root_v := root_of vt old_v in
  let vt2 := track_new g0 vt old_v new_v in
  if decide (owning_block = Some (root_block_ vt)) then ret vt2
  else
    ob <- lift_opt "owning_block: null dereference" (fun _ => owning_block) ;;
    owning_blocknode <- lift_opt "TORCH_INTERNAL_ASSERT(nullptr != owning_blocknode)"
                          (fun g => owningNode g ob) ;;
    nkind <- lift_opt "node: dangling handle" (fun g => kind g owning_blocknode) ;;
    if negb (bool_decide (nkind = prim_Loop)) && negb (bool_decide (nkind = prim_If))
    then ret vt2
    else if is_registered (aliases_of vt2 root_v) (block_outputs g0 ob) then ret vt2
    else if bool_decide (nkind = prim_Loop)
    then thread_loop rec vt2 root_v new_v ob owning_blocknode
    else thread_if rec vt2 root_v new_v ob owning_blocknode.

Fixpoint registerSetValue_aux (fuel : nat) : ValueTracker -> value -> value -> M ValueTracker :=
  registerSetValue_body
    (match fuel with
     | 0 => fun _ _ _ _ => OutOfFuel
     | S f => registerSetValue_aux f
     end).

Definition registerSetValue (vt : ValueTracker) (old_v new_v : value) : M ValueTracker :=
  fun g => registerSetValue_aux (length (g_blocks g)) vt old_v new_v g.

(** [ValueTracker::findAliasForValueAtNode] *)
Definition visible_at (g : Graph) (n : node) (alias : value) : Result bool :=
  match node_of g alias with
  | None => Fail "value: dangling handle"
  | Some alias_n =>
      if isBefore g alias_n n
      then isAncestor g (owningBlock g alias_n) (owningBlock g n)
      else Ok false
  end.

Fixpoint last_visible (g : Graph) (n : node) (aliases : list value) (found_alias : option value)
  : Result (option value) :=
  match aliases with
  | [] => Ok found_alias
  | alias :: rest =>
      rbind (visible_at g n alias)
            (fun b => last_visible g n rest (if b then Some alias else found_alias))
  end.

Definition findAliasForValueAtNode (vt : ValueTracker) (g : Graph) (v : value) (n : node)
  : Result value :=
  match alias_to_value_ vt !! v with
  | None => Ok v      (* This value was not affected by any inplace operator. *)
  | Some root_v =>
      match value_to_sorted_aliases_ vt !! root_v with
      | None => Fail "TORCH_INTERNAL_ASSERT: root has no alias set"
      | Some aliases =>
          rbind (last_visible g n aliases None)
                (of_option "TORCH_INTERNAL_ASSERT(nullptr != found_alias)")
      end
  end.

(** [ValueTracker::correctAliasReferenceForInputs] *)
Definition correctAliasReferenceForInput (vt : ValueTracker) (n : node) (i : nat) : M unit :=
  in_ <- input n i ;;
  alias <- lift_res (fun g => findAliasForValueAtNode vt g in_ n) ;;
  if decide (alias = in_) then ret tt else replaceInput n i alias.

Definition correctAliasReferenceForInputs (vt : ValueTracker) (n : node) : M unit :=
  g <- get ;;
  for_each (seq 0 (length (inputs g n))) (correctAliasReferenceForInput vt n).

(** ** Operator names *)

(** [Symbol::is_aten] *)
Definition is_aten (k : Symbol) : bool := String.prefix "aten::" k.

(** [name.at(name.size() - 1)] and [name.substr(0, name.size() - 1)] *)
Definition last_char (s : string) : option Ascii.ascii :=
  String.get (String.length s - 1) s.
Definition strip_last (s : string) : string :=
  String.substring 0 (String.length s - 1) s.
Definition underscore : Ascii.ascii := Ascii.Ascii true true true true true false true false.

(** ** In-place operator conversion *)

(** [Graph::create(kind, inputs, 1)] *)
Definition create_with_inputs (k : Symbol) (ins : list value) : M node :=
  n <- create k 1 ;;
  for_each ins (addInput n) ;;;
  ret n.

(** [graph->insert(kind, args)] at an insertion point set by
    [WithInsertPoint guard(ip)]: the new node goes right before [ip]. *)
Definition graph_insert (ip : node) (k : Symbol) (args : list value) : M value :=
  n <- create_with_inputs k args ;;
  insertBefore n ip ;;;
  output n.

(** [graph->insertConstant(value)] at the insertion point. *)
Definition insertConstant (ip : node) (c : IValue) (t : TypeKind) : M value :=
  n <- create prim_Constant 1 ;;
  upd_node n (fun r => set_ival r (Some c)) ;;;
  v <- output n ;;
  setType v t ;;;
  insertBefore n ip ;;;
  ret v.

(** [Value::copyMetadata]: the type is what the model keeps of it. *)
Definition copyMetadata (v from : value) : M unit :=
  t <- lift_opt "value: dangling handle" (fun g => type_of g from) ;;
  setType v t.

Definition value_node (v : value) : M node :=
  lift_opt "value: dangling handle" (fun g => node_of g v).

Definition node_kind (n : node) : M Symbol :=
  lift_opt "node: dangling handle" (fun g => kind g n).

(** [Node::replaceAllUsesWith] on a node *)
Fixpoint replace_outputs (olds news : list value) : M unit :=
  match olds, news with
  | o :: olds', n :: news' => replaceAllUsesWith o n ;;; replace_outputs olds' news'
  | _, _ => ret tt
  end.

Definition node_replaceAllUsesWith (n new_n : node) : M unit :=
  g <- get ;;
  assert "replaceAllUsesWith: output counts differ"
    (bool_decide (length (outputs g n) = length (outputs g new_n))) ;;;
  replace_outputs (outputs g n) (outputs g new_n).

Section InplaceConverter.

(** [EncapsulatePatternIntoSubblock] ([pattern_encapsulation.h]) and
    [MutationRemover::inplaceOpVariant] ([remove_mutation.h]) are external
    to the translated file. *)
Variable EncapsulatePatternIntoSubblock : node -> M (option node).
Variable inplaceOpVariant : Graph -> node -> bool.

Definition PrepareIndexPutForONNX (n : node) : M (option (value * value)) :=
  k <- node_kind n ;;
  assert "TORCH_INTERNAL_ASSERT: index_put or index_put_"
    (bool_decide (k = aten_index_put) || bool_decide (k = aten_index_put_)) ;;;
  o <- EncapsulatePatternIntoSubblock n ;;
  placeholder_node <- lift_opt "bad_optional_access" (fun _ => o) ;;
  destroy n ;;;
  i0 <- input placeholder_node 0 ;;
  out <- output placeholder_node ;;
  ret (Some (i0, out)).

Definition PrepareCopyForONNX (n : node) : M (option (value * value)) :=
  k <- node_kind n ;;
  assert "TORCH_INTERNAL_ASSERT: copy_" (bool_decide (k = aten_copy_)) ;;;
  (* WithInsertPoint guard(node) *)
  ln <- create_with_inputs prim_ListConstruct [] ;;
  insertBefore ln n ;;;
  dummy_list <- output ln ;;
  setType dummy_list ListType ;;;
  in0 <- input n 0 ;;
  in1 <- input n 1 ;;
  expanded_value <- graph_insert n aten_expand_as [in1; in0] ;;
  copyMetadata expanded_value in1 ;;;
  in2 <- input n 2 ;;
  index_put <- graph_insert n aten_index_put_ [in0; dummy_list; expanded_value; in2] ;;
  out <- output n ;;
  copyMetadata index_put out ;;;
  replaceAllUsesWith out index_put ;;;
  destroy n ;;;
  ipn <- value_node index_put ;;
  PrepareIndexPutForONNX ipn.

(** The final [if (input_node->kind() == aten::select || ...)] of
    [PrepareInplaceOpsInBlocksForONNX], reached once the pure node
    [new_node] has replaced the in-place node. *)
Definition PrepareInplaceOpsInBlocksForONNX_tail (new_node input_node : node)
  : M (option (value * value)) :=
  ik <- node_kind input_node ;;
  if bool_decide (ik = aten_select) || bool_decide (ik = aten_slice) then
    (* Cases from a[i] = x. Convert to copy_ and eventually index_put_. *)
    false_val_ <- insertConstant new_node (IBool false) BoolType ;;
    new_copy <- create aten_copy_ 1 ;;
    i0 <- input new_node 0 ;;
    addInput new_copy i0 ;;;
    o <- output new_node ;;
    addInput new_copy o ;;;
    addInput new_copy false_val_ ;;;
    insertAfter new_copy new_node ;;;
    PrepareCopyForONNX new_copy
  else
    (* Direct aliasing. *)
    i0 <- input new_node 0 ;;
    o <- output new_node ;;
    ret (Some (i0, o)).

Definition PrepareInplaceOpsInBlocksForONNX (n : node) : M (option (value * value)) :=
  k <- node_kind n ;;
  if negb (is_aten k) then ret None
  else
    let name := k in
    c <- lift_opt "std::out_of_range" (fun _ => last_char name) ;;
    if negb (bool_decide (c = underscore)) then ret None
    else
      let new_schema := strip_last name in
      in0 <- input n 0 ;;
      input_node <- value_node in0 ;;
      new_node <- create new_schema 1 ;;
      g <- get ;;
      for_each (inputs g n) (addInput new_node) ;;;
      new_out <- output new_node ;;
      old_out <- output n ;;
      copyMetadata new_out old_out ;;;
      insertBefore new_node n ;;;
      node_replaceAllUsesWith n new_node ;;;
      destroy n ;;;
      PrepareInplaceOpsInBlocksForONNX_tail new_node input_node.

Definition PrepareListPopForONNX (n : node) : M (option (value * value)) :=
  k <- node_kind n ;;
  assert "TORCH_INTERNAL_ASSERT: pop" (bool_decide (k = aten_pop)) ;;;
  g <- get ;;
  getitem_node <- create_with_inputs aten___getitem__ (inputs g n) ;;
  go <- output getitem_node ;;
  no <- output n ;;
  copyMetadata go no ;;;
  insertBefore getitem_node n ;;;
  replaceAllUsesWith no go ;;;
  in0 <- input n 0 ;;
  copyMetadata no in0 ;;;
  ret (Some (in0, no)).

Definition PrepareListDeleteForONNX (n : node) : M (option (value * value)) :=
  k <- node_kind n ;;
  assert "TORCH_INTERNAL_ASSERT: Delete" (bool_decide (k = aten_Delete)) ;;;
  _ <- addOutput n ;;
  no <- output n ;;
  in0 <- input n 0 ;;
  copyMetadata no in0 ;;;
  ret (Some (in0, no)).

Definition PrepareListAppendAndInsertForONNX (n : node) : M (option (value * value)) :=
  k <- node_kind n ;;
  assert "TORCH_INTERNAL_ASSERT: insert or append"
    (bool_decide (k = aten_insert) || bool_decide (k = aten_append)) ;;;
  g <- get ;;
  (if bool_decide (length (outputs g n) = 0) then
     _ <- addOutput n ;;
     no <- output n ;;
     in0 <- input n 0 ;;
     copyMetadata no in0
   else ret tt) ;;;
  in0 <- input n 0 ;;
  no <- output n ;;
  ret (Some (in0, no)).

Definition PrepareListSetItemForONNX (n : node) : M (option (value * value)) :=
  k <- node_kind n ;;
  assert "TORCH_INTERNAL_ASSERT: _set_item" (bool_decide (k = aten__set_item)) ;;;
  in0 <- input n 0 ;;
  no <- output n ;;
  ret (Some (in0, no)).

(** The body of the loop of [convertInplaceOpsAndTrackAlias] for a node
    that is neither [prim::If] nor [prim::Loop]. *)
Definition convertInplaceOp (vt : ValueTracker) (n : node) : M ValueTracker :=
  nkind <- node_kind n ;;
  g <- get ;;
  let track (p : option (value * value)) : M ValueTracker :=
    match p with
    | Some (orig_data, new_out) => registerSetValue vt orig_data new_out
    | None => ret vt
    end in
  if bool_decide (nkind = aten_copy_) then
    p <- PrepareCopyForONNX n ;; track p
  else if bool_decide (nkind = aten_index_put) || bool_decide (nkind = aten_index_put_) then
    p <- PrepareIndexPutForONNX n ;;
    if bool_decide (nkind = aten_index_put) then ret vt   (* index_put is not inplace *)
    else track p
  else if bool_decide (nkind = aten_insert) || bool_decide (nkind = aten_append) then
    p <- PrepareListAppendAndInsertForONNX n ;; track p
  else if inplaceOpVariant g n then
    p <- PrepareInplaceOpsInBlocksForONNX n ;; track p
  else if bool_decide (nkind = aten_pop) then
    p <- PrepareListPopForONNX n ;; track p
  else if bool_decide (nkind = aten_Delete) then
    p <- PrepareListDeleteForONNX n ;; track p
  else if bool_decide (nkind = aten__set_item) then
    p <- PrepareListSetItemForONNX n ;; track p
  else ret vt.   (* Not inplace op. *)

(** [InplaceConverter::convertInplaceOpsAndTrackAlias] on a block.  The
    iterator is advanced before a node is touched, and every node the body
    creates is inserted before that position: the loop visits the nodes the
    block has on entry. *)
Fixpoint convertInplaceOpsAndTrackAlias_block (fuel : nat) (vt : ValueTracker) (b : block)
  : M ValueTracker :=
  g <- get ;;
  foldM (block_nodes g b) (fun vt n =>
    nkind <- node_kind n ;;
    if bool_decide (nkind = prim_If) || bool_decide (nkind = prim_Loop) then
      g <- get ;;
      match fuel with
      | 0 => fun _ => OutOfFuel
      | S f => foldM (blocks g n) (convertInplaceOpsAndTrackAlias_block f) vt
      end
    else convertInplaceOp vt n) vt.

Definition convertInplaceOpsAndTrackAlias (vt : ValueTracker) : M ValueTracker :=
  g <- get ;;
  convertInplaceOpsAndTrackAlias_block (length (g_blocks g)) vt (g_block g).

(** [InplaceConverter::correctAliasReferences] on a block *)
Fixpoint correctAliasReferences_block (fuel : nat) (vt : ValueTracker) (b : block) : M unit :=
  g <- get ;;
  for_each (block_nodes g b) (fun n =>
    correctAliasReferenceForInputs vt n ;;;
    nkind <- node_kind n ;;
    if bool_decide (nkind = prim_If) || bool_decide (nkind = prim_Loop) then
      g <- get ;;
      match fuel with
      | 0 => fun _ => OutOfFuel
      | S f => for_each (blocks g n) (correctAliasReferences_block f vt)
      end
    else ret tt) ;;;
  rn <- lift_opt "block: dangling handle" (fun g => return_node g b) ;;
  correctAliasReferenceForInputs vt rn.

Definition correctAliasReferences (vt : ValueTracker) : M unit :=
  g <- get ;;
  correctAliasReferences_block (length (g_blocks g)) vt (g_block g).

End InplaceConverter.

(** ** The pre-pass on mutated block inputs *)

(** [addDummyClone]; a null result is [None]. *)
Definition addDummyClone (orig_data : value) (insertBefore_ : bool) (referenceNode : node)
  : M (option node) :=
  t <- lift_opt "value: dangling handle" (fun g => type_of g orig_data) ;;
  let place (newNode : node) : M unit :=
    if insertBefore_ then insertBefore newNode referenceNode
    else
      b <- lift_opt "referenceNode: not in a block" (fun g => owningBlock g referenceNode) ;;
      prependNode b newNode in
  if bool_decide (t = ListType) then
    newNode <- create aten_list 1 ;;
    addInput newNode orig_data ;;;
    o <- output newNode ;;
    setType o t ;;;
    place newNode ;;;
    ret (Some newNode)
  else if bool_decide (t = TensorType) || bool_decide (t = IntType)
          || bool_decide (t = FloatType) || bool_decide (t = BoolType) then
    noneNode <- create prim_Constant 1 ;;
    no <- output noneNode ;;
    setType no NoneType ;;;
    newNode <- create aten_clone 1 ;;
    addInput newNode orig_data ;;;
    addInput newNode no ;;;
    o <- output newNode ;;
    setType o t ;;;
    place newNode ;;;
    insertBefore noneNode newNode ;;;
    ret (Some newNode)
  else ret None.

Definition warn (msg : string) : M unit :=
  fun g => Ok (tt, with_cerr g (g_cerr g ++ [msg])).

Definition mutation_warning (k : Symbol) (name : string) : string :=
  "Warning: ONNX Preprocess - Removing mutation from node " ++ k
  ++ " on block input: '" ++ name ++ "'. This changes graph semantics.".

Section PrepareForRemoveMutations.

Variable inplaceOpVariant : Graph -> node -> bool.
(** [Value::debugName] of [ir.h] *)
Variable debugName : Graph -> value -> string.

(** The body of the loop over the uses of a block input, for one use. *)
Definition cloneMutatedInput (b : block) (input_ : value) (use : node * nat) : M unit :=
  let n := use.1 in
  g <- get ;;
  if negb (inplaceOpVariant g n) then ret tt
  else
    match index_of input_ (inputs g n) with       (* std::find *)
    | None => ret tt
    | Some index =>
        k <- node_kind n ;;
        warn (mutation_warning k (debugName g input_)) ;;;
        rn <- lift_opt "block: dangling handle" (fun g => return_node g b) ;;
        o <- addDummyClone input_ false rn ;;
        newNode <- lift_opt "TORCH_INTERNAL_ASSERT(nullptr != newNode)" (fun _ => o) ;;
        out <- output newNode ;;
        replaceInput n index out ;;;
        replaceAllUsesAfterNodeWith input_ n out
    end.

(** [PrepareForRemoveMutations].  The source walks the live use list of
    the input while its body edits that list; the walk is taken here over
    the uses present when the input is reached, each one re-checked
    against the node's current inputs by the [std::find] of the body. *)
Fixpoint PrepareForRemoveMutations_aux (fuel : nat) (b : block) : M unit :=
  g <- get ;;
  for_each (block_nodes g b) (fun n =>
    g <- get ;;
    for_each (blocks g n) (fun child_block =>
      match fuel with
      | 0 => fun _ => OutOfFuel
      | S f => PrepareForRemoveMutations_aux f child_block
      end)) ;;;
  g <- get ;;
  for_each (block_inputs g b) (fun input_ =>
    g <- get ;;
    for_each (uses g input_) (cloneMutatedInput b input_)).

Definition PrepareForRemoveMutations (b : block) : M unit :=
  g <- get ;;
  PrepareForRemoveMutations_aux (length (g_blocks g)) b.

End PrepareForRemoveMutations.

(** ** The attribute phase *)

(** [InplaceConverter::replaceAttrWithInplaceOps], over the node/name pairs
    that [gatherAttrNameInitialValueMap] has collected. *)
Definition replaceAttrWithInplaceOp (attr_name_value_map : gmap string value)
    (pair : node * string) : M unit :=
  let n := pair.1 in
  init_val <- lift_opt "TORCH_INTERNAL_ASSERT(find_init_val != end)"
                (fun _ => attr_name_value_map !! pair.2) ;;
  k <- node_kind n ;;
  assert "TORCH_INTERNAL_ASSERT: GetAttr or SetAttr"
    (bool_decide (k = prim_GetAttr) || bool_decide (k = prim_SetAttr)) ;;;
  (if bool_decide (k = prim_SetAttr) then
     false_val_ <- insertConstant n (IBool false) BoolType ;;
     ln <- create_with_inputs prim_ListConstruct [] ;;
     insertBefore ln n ;;;
     dummy_list <- output ln ;;
     index_put_node <- create aten_index_put_ 1 ;;
     addInput index_put_node init_val ;;;
     addInput index_put_node dummy_list ;;;
     in1 <- input n 1 ;;
     addInput index_put_node in1 ;;;
     addInput index_put_node false_val_ ;;;
     insertBefore index_put_node n
   else
     o <- output n ;;
     replaceAllUsesWith o init_val) ;;;
  destroy n.

Definition replaceAttrWithInplaceOps (attr_name_value_map : gmap string value)
    (attr_node_fullname_map : list (node * string)) : M unit :=
  for_each attr_node_fullname_map (replaceAttrWithInplaceOp attr_name_value_map).

Section RemoveInplaceOpsForONNX.

Variable EncapsulatePatternIntoSubblock : node -> M (option node).
Variable inplaceOpVariant : Graph -> node -> bool.
Variable debugName : Graph -> value -> string.
(** [gatherAttrNameInitialValueMap] reads the module; the passes below live
    in other files. *)
Variable gatherAttrNameInitialValueMap : block -> M (gmap string value * list (node * string)).
Variable ImplicitCastForBinaryInplaceOps : block -> M unit.
Variable RemoveTensorMutation : M unit.
Variable RemoveListMutation : M unit.

Definition convertGetSetAttrToInplaceOps (b : block) : M unit :=
  maps <- gatherAttrNameInitialValueMap b ;;
  replaceAttrWithInplaceOps maps.1 maps.2.

(** [InplaceConverter::convertMutationForONNX] *)
Definition convertMutationForONNX : M ValueTracker :=
  g <- get ;;
  convertGetSetAttrToInplaceOps (g_block g) ;;;
  g <- get ;;
  vt <- convertInplaceOpsAndTrackAlias EncapsulatePatternIntoSubblock inplaceOpVariant (init g) ;;
  correctAliasReferences vt ;;;
  ret vt.

Definition RemoveInplaceOpsForONNX : M ValueTracker :=
  g <- get ;;
  ImplicitCastForBinaryInplaceOps (g_block g) ;;;
  PrepareForRemoveMutations inplaceOpVariant debugName (g_block g) ;;;
  RemoveTensorMutation ;;;
  RemoveListMutation ;;;
  convertMutationForONNX.

End RemoveInplaceOpsForONNX.

(** ** The dynamic DAG

    Modelled from the spec: [detail::DynamicDAG] and [detail::Vertex] of
    [dynamic_dag.h] (sections 3 and 4.2 of the specification).  A vertex wraps
    one or more nodes, carries an ordinal and its in and out edges. *)

Definition vertex := nat.

Record Vertex := mkVertex {
  ord : nat;
  rdata : list node;
  in_edges : list vertex;
  out_edges : list vertex;
}.

Record DynamicDAG := mkDAG {
  dag_vertices : list (option Vertex);       (* by vertex handle *)
  maybe_vertices : list (option vertex);     (* by ordinal *)
}.

#[global] Instance Vertex_eq_dec : EqDecision Vertex.
Proof. solve_decision. Defined.
#[global] Instance DynamicDAG_eq_dec : EqDecision DynamicDAG.
Proof. solve_decision. Defined.

Definition empty_dag : DynamicDAG := mkDAG [] [].

Definition get_vertex (d : DynamicDAG) (v : vertex) : option Vertex :=
  mjoin (dag_vertices d !! v).

(** [newVertex]: wraps one node; assigns the next topological ordinal. *)
Definition newVertex (d : DynamicDAG) (payload : node) : vertex * DynamicDAG :=
  let v := length (dag_vertices d) in
  (v, mkDAG (dag_vertices d ++ [Some (mkVertex (length (maybe_vertices d)) [payload] [] [])])
            (maybe_vertices d ++ [Some v])).

Definition add_to_set (x : nat) (l : list nat) : list nat :=
  if bool_decide (x ∈ l) then l else l ++ [x].

(** [addEdge]: records a must-happen-before relationship. *)
Definition addEdge (d : DynamicDAG) (a b : vertex) : DynamicDAG :=
  match get_vertex d a, get_vertex d b with
  | Some va, Some vb =>
      let vs1 := <[a := Some (mkVertex (ord va) (rdata va) (in_edges va)
                                       (add_to_set b (out_edges va)))]> (dag_vertices d) in
      let vb' := default vb (mjoin (vs1 !! b)) in
      mkDAG (<[b := Some (mkVertex (ord vb') (rdata vb') (add_to_set a (in_edges vb'))
                                   (out_edges vb'))]> vs1)
            (maybe_vertices d)
  | _, _ => d
  end.

(** [sort]: stable-sorts vertices by current topological ordinal. *)
Definition ord_of (d : DynamicDAG) (v : vertex) : nat :=
  default 0 (ord <$> get_vertex d v).

Fixpoint insert_by_ord (d : DynamicDAG) (v : vertex) (l : list vertex) : list vertex :=
  match l with
  | [] => [v]
  | w :: l' => if bool_decide (ord_of d v < ord_of d w) then v :: w :: l'
               else w :: insert_by_ord d v l'
  end.

Definition dag_sort (d : DynamicDAG) (l : list vertex) : list vertex :=
  foldr (insert_by_ord d) [] l.

(** Does [src] reach [dst] along out edges? *)
Fixpoint reaches (fuel : nat) (d : DynamicDAG) (src dst : vertex) : bool :=
  bool_decide (src = dst) ||
  match fuel with
  | 0 => false
  | S f => existsb (fun x => reaches f d x dst) (default [] (out_edges <$> get_vertex d src))
  end.

Definition redirect (from to : vertex) (skip : vertex) (l : list vertex) : list vertex :=
  foldl (fun acc x => let y := if decide (x = from) then to else x in
                      if decide (y = skip) then acc else add_to_set y acc) [] l.

(** Modelled from the spec: the ordinals of a [DynamicDAG] are a topological
    order at all times (section 3), also after an edge has been contracted.
    [renumber] restores that: the vertices keep the slots that are in use and
    their relative order wherever the edges allow it, and a vertex that an
    edge now forbids at its place moves behind the vertices it has to
    follow. *)
Definition ready (d : DynamicDAG) (placed : list vertex) (v : vertex) : bool :=
  forallb (fun p => bool_decide (p ∈ placed)) (default [] (in_edges <$> get_vertex d v)).

Fixpoint pick_ready (d : DynamicDAG) (placed rest : list vertex)
  : option (vertex * list vertex) :=
  match rest with
  | [] => None
  | v :: rest' =>
      if ready d placed v then Some (v, rest')
      else match pick_ready d placed rest' with
           | Some (w, r) => Some (w, v :: r)
           | None => None
           end
  end.

Fixpoint topo_order (fuel : nat) (d : DynamicDAG) (placed rest : list vertex) : list vertex :=
  match fuel with
  | 0 => placed ++ rest
  | S f => match pick_ready d placed rest with
           | Some (v, rest') => topo_order f d (placed ++ [v]) rest'
           | None => placed ++ rest
           end
  end.

Fixpoint refill (slots : list (option vertex)) (vs : list vertex) : list (option vertex) :=
  match slots with
  | [] => []
  | None :: slots' => None :: refill slots' vs
  | Some x :: slots' =>
      match vs with
      | v :: vs' => Some v :: refill slots' vs'
      | [] => Some x :: refill slots' []
      end
  end.

Definition renumber (d : DynamicDAG) : DynamicDAG :=
  let slots := refill (maybe_vertices d)
                 (topo_order (length (maybe_vertices d)) d [] (omap id (maybe_vertices d))) in
  mkDAG (imap (fun h o =>
                 match o with
                 | Some w =>
                     Some (mkVertex (default (ord w)
                                       (fst <$> list_find (fun s => s = Some h) slots))
                                    (rdata w) (in_edges w) (out_edges w))
                 | None => None
                 end) (dag_vertices d))
        slots.

(** Modelled from the spec: [DynamicDAG::contractEdge] of [dynamic_dag.h]
    (section 4.2): the two vertices become one, with the payload of both and
    the union of their edges minus the now-internal one, unless a second path
    from the producer to the consumer would close a cycle.  The spec leaves
    open which of the two absorbs the other: [contract] keeps [keep] and
    frees [gone], with its slot. *)
Definition contract (d : DynamicDAG) (producer consumer gone keep : vertex)
  : option DynamicDAG :=
  match get_vertex d producer, get_vertex d consumer, get_vertex d gone, get_vertex d keep with
  | Some vp, Some vc, Some vg, Some vk =>
      if existsb (fun x => negb (bool_decide (x = consumer)) &&
                           reaches (length (dag_vertices d)) d x consumer)
                 (out_edges vp)
      then None
      else
        let merged := mkVertex (ord vk) (rdata vc ++ rdata vp)
                        (redirect gone keep keep (in_edges vc ++ in_edges vp))
                        (redirect gone keep keep (out_edges vc ++ out_edges vp)) in
        let vs := (fun o => match o with
                            | Some w => Some (mkVertex (ord w) (rdata w)
                                                (redirect gone keep (length (dag_vertices d)) (in_edges w))
                                                (redirect gone keep (length (dag_vertices d)) (out_edges w)))
                            | None => None
                            end) <$> dag_vertices d in
        Some (renumber (mkDAG (<[gone := None]> (<[keep := Some merged]> vs))
                              (<[ord vg := None]> (maybe_vertices d))))
  | _, _, _, _ => None
  end.

(** The producer is absorbed into the consumer. *)
Definition contractEdge_model (d : DynamicDAG) (producer consumer : vertex) : option DynamicDAG :=
  contract d producer consumer producer consumer.

(** The consumer is absorbed into the producer. *)
Definition contractEdge_into_producer (d : DynamicDAG) (producer consumer : vertex)
  : option DynamicDAG :=
  contract d producer consumer consumer producer.

(** ** Differentiable-subgraph extraction *)

Definition size_t_max : Z := 2 ^ 64.
Definition size_t_sub (a b : nat) : Z := (Z.of_nat a - Z.of_nat b) mod size_t_max.

(** [toIValue]: the value of a compile-time constant. *)
Definition toIValue (g : Graph) (v : value) : option IValue :=
  n ← node_of g v;
  r ← get_node g n;
  if bool_decide (n_kind r = prim_Constant) then Some (default INone (n_ival r)) else None.

(** Run an edit on another graph (the child graph of a group node). *)
Definition on_graph {A} (m : M A) (other : Graph) : M (A * Graph) :=
  fun g => match m other with
           | Ok (a, other') => Ok ((a, other'), g)
           | Fail s => Fail s
           | OutOfFuel => OutOfFuel
           end.

Record MergeState := mkMS {
  value_map : gmap value value;
  new_graph : Graph;
}.

Section CreateAutodiffSubgraphs.

(** [isDifferentiable] on a node and on a graph ([autodiff.h]), and
    [DynamicDAG::contractEdge]. *)
Variable isDifferentiable : Graph -> node -> bool.
Variable isDifferentiableGraph : Graph -> bool.
Variable contractEdge : DynamicDAG -> vertex -> vertex -> option DynamicDAG.

(** The [getOrCreateInput] lambda of [mergeNodes]. *)
Definition getOrCreateInput (group_node : node) (st : MergeState) (v : value)
  : M (value * MergeState) :=
  match value_map st !! v with
  | Some nv => ret (nv, st)
  | None =>
      g <- get ;;
      match toIValue g v with
      | Some c =>
          t <- lift_opt "value: dangling handle" (fun g => type_of g v) ;;
          r <- on_graph (rn <- lift_opt "block: dangling handle"
                                 (fun ng => return_node ng (g_block ng)) ;;
                         insertConstant rn c t) (new_graph st) ;;
          ret (r.1, mkMS (<[v := r.1]> (value_map st)) r.2)
      | None =>
          t <- lift_opt "value: dangling handle" (fun g => type_of g v) ;;
          r <- on_graph (nv <- (ng <- get ;; block_addInput (g_block ng)) ;;
                         setType nv t ;;; ret nv) (new_graph st) ;;
          addInput group_node v ;;;
          ret (r.1, mkMS (<[v := r.1]> (value_map st)) r.2)
      end
  end.

(** [new_graph->createClone(n, getOrCreateInput)] followed by
    [appendNode]: same kind and attributes, as many outputs, every input
    mapped in order.  A node that owns blocks is outside this model. *)
Fixpoint clone_inputs (group_node nn : node) (st : MergeState) (ins : list value)
  : M MergeState :=
  match ins with
  | [] => ret st
  | v :: ins' =>
      r <- getOrCreateInput group_node st v ;;
      r' <- on_graph (addInput nn r.1) (new_graph r.2) ;;
      clone_inputs group_node nn (mkMS (value_map r.2) r'.2) ins'
  end.

Fixpoint clone_outputs (nn : node) (types : list (option TypeKind)) : M unit :=
  match types with
  | [] => ret tt
  | t :: types' =>
      o <- addOutput nn ;;
      (match t with Some t => setType o t | None => ret tt end) ;;;
      clone_outputs nn types'
  end.

Definition cloneIntoNewGraph (group_node : node) (st : MergeState) (n : node)
  : M (node * MergeState) :=
  r <- lift_opt "node: dangling handle" (fun g => get_node g n) ;;
  assert "createClone: node owns blocks" (bool_decide (n_blocks r = [])) ;;;
  g <- get ;;
  c <- on_graph (nn <- create (n_kind r) 0 ;;
                 upd_node nn (fun x => set_name (set_ival x (n_ival r)) (n_name r)) ;;;
                 clone_outputs nn (type_of g <$> n_outputs r) ;;;
                 ret nn) (new_graph st) ;;
  st' <- clone_inputs group_node c.1 (mkMS (value_map st) c.2) (n_inputs r) ;;
  a <- on_graph (ng <- get ;; appendNode (g_block ng) c.1) (new_graph st') ;;
  ret (c.1, mkMS (value_map st') a.2).

(** The loop over the outputs of one cloned node. *)
Fixpoint export_outputs (group_set : list node) (group_node : node) (st : MergeState)
    (outs : list (value * value)) : M MergeState :=
  match outs with
  | [] => ret st
  | (old_output, new_output) :: outs' =>
      g <- get ;;
      let st1 := mkMS (<[old_output := new_output]> (value_map st)) (new_graph st) in
      (* Uses within the set do not need to be made outputs *)
      let to_replace := filter (fun u => u.1 ∉ group_set) (uses g old_output) in
      if bool_decide (0 < length to_replace) then
        r <- on_graph (ng <- get ;; registerOutput (g_block ng) new_output) (new_graph st1) ;;
        external_output <- addOutput group_node ;;
        (match type_of g old_output with
         | Some t => setType external_output t
         | None => fail "value: dangling handle"
         end) ;;;
        for_each to_replace (fun u => replaceInput u.1 u.2 external_output) ;;;
        export_outputs group_set group_node (mkMS (value_map st1) r.2) outs'
      else export_outputs group_set group_node st1 outs'
  end.

Definition merge_one (group_set : list node) (group_node : node) (st : MergeState) (n : node)
  : M MergeState :=
  c <- cloneIntoNewGraph group_node st n ;;
  g <- get ;;
  export_outputs group_set group_node c.2
    (zip (outputs g n) (outputs (new_graph c.2) c.1)).

Fixpoint merge_all (group_set : list node) (group_node : node) (st : MergeState)
    (nodes : list node) : M MergeState :=
  match nodes with
  | [] => ret st
  | n :: nodes' =>
      st' <- merge_one group_set group_node st n ;;
      merge_all group_set group_node st' nodes'
  end.

(** [mergeNodes]; the child graph, which the source stores in the
    [attr::Subgraph] attribute of the group node, is returned with it. *)
Definition mergeNodes (b : block) (group_node_kind : Symbol) (nodes : list node)
  : M (node * Graph) :=
  assert "JIT_ASSERT(nodes.size() > 0)" (bool_decide (0 < length nodes)) ;;;
  group_node <- create group_node_kind 0 ;;
  st <- merge_all nodes group_node (mkMS ∅ empty_graph) nodes ;;
  first <- lift_opt "nodes[0]" (fun _ => head nodes) ;;
  insertBefore group_node first ;;;
  (* delete backward, so that nodes are use-free before deletion *)
  for_each (reverse nodes) destroy ;;;
  assert "JIT_ASSERT(isDifferentiable(*new_graph))" (isDifferentiableGraph (new_graph st)) ;;;
  ret (group_node, new_graph st).

(** [CreateAutodiffSubgraphsNaive]: runs of differentiable nodes, constants
    left out, are merged when a non-differentiable node or the end of the
    block is reached.  The iterator of the source stays on the nodes the
    block had on entry, since [mergeNodes] only edits what lies before it. *)
Definition merge_groupable (b : block) (threshold : nat) (groupable : list node)
    (diff_graphs : list (node * Graph)) : M (list (node * Graph)) :=
  if bool_decide (threshold <= length groupable) then
    r <- mergeNodes b prim_DifferentiableGraph groupable ;;
    ret ((diff_graphs ++ [r])%list)
  else ret diff_graphs.

Fixpoint CreateAutodiffSubgraphsNaive (fuel : nat) (threshold : nat)
    (diff_graphs : list (node * Graph)) (b : block) : M (list (node * Graph)) :=
  g0 <- get ;;
  st <- foldM (block_nodes g0 b)
          (fun (st : list node * list (node * Graph)) node_ =>
             g <- get ;;
             if isDifferentiable g node_ then
               (* Constants are generally cheap to clone, so it's better to
                  replicate them *)
               k <- node_kind node_ ;;
               if negb (bool_decide (k = prim_Constant))
               then ret ((st.1 ++ [node_])%list, st.2)
               else ret st
             else
               dg <- merge_groupable b threshold st.1 st.2 ;;
               g <- get ;;
               dg' <- foldM (blocks g node_)
                        (fun acc sub_block =>
                           match fuel with
                           | 0 => fun _ => OutOfFuel
                           | S f => CreateAutodiffSubgraphsNaive f threshold acc sub_block
                           end) dg ;;
               ret ([], dg'))
          ([], diff_graphs) ;;
  merge_groupable b threshold st.1 st.2.

(** [shouldConsiderForMerge] *)
Definition shouldConsiderForMerge (g : Graph) (v : Vertex) : Result bool :=
  if bool_decide (2 <= length (rdata v)) then Ok true
  else match rdata v with
       | [n] => if bool_decide (kind g n = Some prim_Constant) then Ok false
                else Ok (isDifferentiable g n)
       | _ => Fail "JIT_ASSERT(v->rdata.size() == 1)"
       end.

(** [make_dependency_graph] *)
Fixpoint owning_vertex (fuel : nat) (g : Graph) (node_to_vertex : gmap node vertex)
    (owning_node : option node) : Result (option vertex) :=
  match owning_node with
  | None => Ok None
  | Some on =>
      match node_to_vertex !! on with
      | Some v => Ok (Some v)
      | None =>
          match fuel with
          | 0 => OutOfFuel
          | S f =>
              match owningBlock g on with
              | Some b => owning_vertex f g node_to_vertex (owningNode g b)
              | None => Fail "owningBlock: null dereference"
              end
          end
      end
  end.

Fixpoint add_use_edges (g : Graph) (node_to_vertex : gmap node vertex) (src : vertex)
    (us : list (node * nat)) (d : DynamicDAG) : Result DynamicDAG :=
  match us with
  | [] => Ok d
  | u :: us' =>
      rbind (owning_vertex (length (g_blocks g)) g node_to_vertex (Some u.1))
        (fun o => add_use_edges g node_to_vertex src us'
                    (match o with Some dst => addEdge d src dst | None => d end))
  end.

Fixpoint add_node_edges (g : Graph) (node_to_vertex : gmap node vertex)
    (ns : list node) (d : DynamicDAG) : Result DynamicDAG :=
  match ns with
  | [] => Ok d
  | n :: ns' =>
      rbind (of_option "vertex of node" (node_to_vertex !! n)) (fun src =>
      rbind (add_use_edges g node_to_vertex src
               (concat ((fun v => uses g v) <$> outputs g n)) d)
            (add_node_edges g node_to_vertex ns'))
  end.

Definition new_vertices (ns : list node) : gmap node vertex * DynamicDAG :=
  foldl (fun acc n => let r := newVertex acc.2 n in (<[n := r.1]> acc.1, r.2))
        (∅, empty_dag) ns.

Definition make_dependency_graph (g : Graph) (b : block) : Result DynamicDAG :=
  let r := new_vertices (block_nodes g b) in
  add_node_edges g r.1 (block_nodes g b) r.2.

(** [find_differentiable_groups]: the scan over the consumer's in edges,
    in reverse topological order.  The first component lists the producers
    on which [contractEdge] was called. *)
Definition producer_skipped (g : Graph)
    (distance_threshold producer_outedge_threshold : Z) (consumer producer : Vertex)
  : Result bool :=
  if bool_decide (size_t_sub (ord consumer) (ord producer) > distance_threshold)%Z then Ok true
  else if bool_decide (Z.of_nat (length (out_edges producer)) > producer_outedge_threshold)%Z
  then Ok true
  else rbind (shouldConsiderForMerge g producer) (fun b => Ok (negb b)).

Fixpoint scan_in_edges (g : Graph) (d : DynamicDAG)
    (distance_threshold producer_outedge_threshold : Z)
    (consumer : vertex) (vc : Vertex) (producers : list vertex)
  : Result (list vertex * option DynamicDAG) :=
  match producers with
  | [] => Ok ([], None)
  | producer :: rest =>
      rbind (of_option "vertex: dangling handle" (get_vertex d producer)) (fun vp =>
      rbind (producer_skipped g distance_threshold producer_outedge_threshold vc vp)
        (fun skip =>
           if skip then
             scan_in_edges g d distance_threshold producer_outedge_threshold consumer vc rest
           else
             match contractEdge d producer consumer with
             | Some d' => Ok ([producer], Some d')        (* changed = true; break *)
             | None =>
                 rbind (scan_in_edges g d distance_threshold producer_outedge_threshold
                          consumer vc rest)
                       (fun r => Ok (producer :: r.1, r.2))
             end))
  end.

(** One iteration of the [while (ord >= 0)] loop: the producers on which a
    contraction was attempted, the graph and the ordinal afterwards. *)
Definition find_step (g : Graph) (distance_threshold producer_outedge_threshold : Z)
    (d : DynamicDAG) (o : Z) : Result (list vertex * DynamicDAG * Z) :=
  match maybe_vertices d !! Z.to_nat o with
  | None => Fail "std::out_of_range"
  | Some None => Ok ([], d, o - 1)%Z
  | Some (Some consumer) =>
      rbind (of_option "vertex: dangling handle" (get_vertex d consumer)) (fun vc =>
      rbind (shouldConsiderForMerge g vc) (fun consider =>
        if negb consider then Ok ([], d, o - 1)%Z
        else
          let in_edges_ := dag_sort d (in_edges vc) in
          rbind (scan_in_edges g d distance_threshold producer_outedge_threshold
                   consumer vc (reverse in_edges_))
                (fun r => match r.2 with
                          | Some d' => Ok (r.1, d', o)          (* stay at this vertex *)
                          | None => Ok (r.1, d, o - 1)%Z
                          end)))
  end.

Fixpoint find_loop (fuel : nat) (g : Graph) (distance_threshold producer_outedge_threshold : Z)
    (d : DynamicDAG) (o : Z) : Result DynamicDAG :=
  if bool_decide (o >= 0)%Z then
    match fuel with
    | 0 => OutOfFuel
    | S f =>
        rbind (find_step g distance_threshold producer_outedge_threshold d o)
              (fun r => find_loop f g distance_threshold producer_outedge_threshold r.1.2 r.2)
    end
  else Ok d.

Definition find_differentiable_groups (g : Graph) (d : DynamicDAG)
    (distance_threshold producer_outedge_threshold : Z) : Result DynamicDAG :=
  find_loop (2 * length (maybe_vertices d) + 1) g
    distance_threshold producer_outedge_threshold d
    (Z.of_nat (length (maybe_vertices d)) - 1)%Z.

(** [reorder_according_to_dag] *)
Definition live_vertices (d : DynamicDAG) : list Vertex :=
  omap (fun o => o ≫= get_vertex d) (maybe_vertices d).

Definition reorder_according_to_dag (b : block) (d : DynamicDAG) : M unit :=
  rn <- lift_opt "block: dangling handle" (fun g => return_node g b) ;;
  for_each (live_vertices d) (fun v =>
    for_each (reverse (rdata v)) (fun n => moveBefore n rn)).

(** [merge_differentiable_groups] *)
Fixpoint merge_differentiable_groups (b : block) (vs : list Vertex) (size_threshold : nat)
    (diff_graphs : list (node * Graph)) : M (list (node * Graph)) :=
  match vs with
  | [] => ret diff_graphs
  | v :: vs' =>
      g <- get ;;
      consider <- lift_res (fun g => shouldConsiderForMerge g v) ;;
      if negb consider then merge_differentiable_groups b vs' size_threshold diff_graphs
      else if bool_decide (length (rdata v) < size_threshold)
      then merge_differentiable_groups b vs' size_threshold diff_graphs
      else
        r <- mergeNodes b prim_DifferentiableGraph (reverse (rdata v)) ;;
        merge_differentiable_groups b vs' size_threshold (diff_graphs ++ [r])
  end.

(** [CreateAutodiffSubgraphsPK] *)
Fixpoint CreateAutodiffSubgraphsPK (fuel : nat) (size_threshold : nat)
    (diff_graphs : list (node * Graph)) (b : block) : M (list (node * Graph)) :=
  g0 <- get ;;
  diff_graphs <- foldM (block_nodes g0 b) (fun acc n =>
    g <- get ;;
    (* Find subgraphs to run this on recursively. *)
    if isDifferentiable g n then ret acc
    else match fuel with
         | 0 => fun _ => OutOfFuel
         | S f => foldM (blocks g n) (CreateAutodiffSubgraphsPK f size_threshold) acc
         end) diff_graphs ;;
  dep_graph <- lift_res (fun g => make_dependency_graph g b) ;;
  dep_graph <- lift_res (fun g => find_differentiable_groups g dep_graph 64 16) ;;
  reorder_according_to_dag b dep_graph ;;;
  merge_differentiable_groups b (live_vertices dep_graph) size_threshold diff_graphs.

(** [CreateAutodiffSubgraphs] *)
Definition CreateAutodiffSubgraphs (threshold : nat) : M (list (node * Graph)) :=
  g <- get ;;
  CreateAutodiffSubgraphsPK (length (g_blocks g)) threshold [] (g_block g).

End CreateAutodiffSubgraphs.

Open Scope list_scope.

(** * Example graphs *)

Definition build (m : M unit) : Graph :=
  match m empty_graph with
  | Ok (_, g) => g
  | _ => empty_graph
  end.

Definition graph_of {A} (r : Result (A * Graph)) : Graph :=
  match r with
  | Ok (_, g) => g
  | _ => empty_graph
  end.

Definition tracker_of (r : Result (ValueTracker * Graph)) : ValueTracker :=
  match r with
  | Ok (vt, _) => vt
  | _ => init empty_graph
  end.

(** Stand-ins for the external collaborators: an in-place variant is an aten
    operator whose name ends in the marker; nothing is encapsulated. *)
Definition ex_inplaceOpVariant (g : Graph) (n : node) : bool :=
  match kind g n with
  | Some k => is_aten k && bool_decide (last_char k = Some underscore)
  | None => false
  end.

Definition ex_encapsulate (n : node) : M (option node) := ret None.

(** Every value goes by the debug name [v]. *)
Definition ex_debugName (g : Graph) (v : value) : string := "v".

(** [x = relu(a); x.add_(y); x.mul_(y); z = tanh(x); return z] *)
Definition ex_two_writes : Graph := build (
  a <- block_addInput 0 ;;
  y <- block_addInput 0 ;;
  n1 <- create_with_inputs "aten::relu" [a] ;;
  appendNode 0 n1 ;;;
  x <- output n1 ;;
  n2 <- create_with_inputs "aten::add_" [x; y] ;;
  appendNode 0 n2 ;;;
  n3 <- create_with_inputs "aten::mul_" [x; y] ;;
  appendNode 0 n3 ;;;
  n4 <- create_with_inputs "aten::tanh" [x] ;;
  appendNode 0 n4 ;;;
  z <- output n4 ;;
  registerOutput 0 z).

Definition ex_two_writes_converted : Result (ValueTracker * Graph) :=
  convertInplaceOpsAndTrackAlias ex_encapsulate ex_inplaceOpVariant
    (init ex_two_writes) ex_two_writes.

(** [x = relu(a); Loop { x2 = add(x, y) }; z = tanh(x); return z]: the body
    of the loop after its in-place write has been made pure. *)
Definition ex_loop : Graph := build (
  a <- block_addInput 0 ;;
  y <- block_addInput 0 ;;
  n1 <- create_with_inputs "aten::relu" [a] ;;
  appendNode 0 n1 ;;;
  x <- output n1 ;;
  lp <- create prim_Loop 0 ;;
  appendNode 0 lp ;;;
  body <- addBlock lp ;;
  n2 <- create_with_inputs "aten::add" [x; y] ;;
  appendNode body n2 ;;;
  n3 <- create_with_inputs "aten::tanh" [x] ;;
  appendNode 0 n3 ;;;
  z <- output n3 ;;
  registerOutput 0 z).

(** [x = relu(a); If { x2 = add(x, y) } else { }; z = tanh(x); return z] *)
Definition ex_if : Graph := build (
  a <- block_addInput 0 ;;
  y <- block_addInput 0 ;;
  n1 <- create_with_inputs "aten::relu" [a] ;;
  appendNode 0 n1 ;;;
  x <- output n1 ;;
  ifn <- create prim_If 0 ;;
  appendNode 0 ifn ;;;
  then_ <- addBlock ifn ;;
  else_ <- addBlock ifn ;;
  n2 <- create_with_inputs "aten::add" [x; y] ;;
  appendNode then_ n2 ;;;
  n3 <- create_with_inputs "aten::tanh" [x] ;;
  appendNode 0 n3 ;;;
  z <- output n3 ;;
  registerOutput 0 z).


(** The first write of [ex_loop] registered with a fresh tracker. *)
Definition ex_loop_registered : Result (ValueTracker * Graph) :=
  registerSetValue (init ex_loop) 2 3 ex_loop.

(** The write of [ex_if] and of [ex_if_local] registered with a fresh tracker. *)
Definition ex_if_registered : Result (ValueTracker * Graph) :=
  registerSetValue (init ex_if) 2 3 ex_if.





(** [Loop { del l[i]; del l[j]; l[k] = v; len(l) }] on a list input [l]: the
    [_set_item] node has its output from the start (handle 5), the two
    [Delete] nodes get theirs from the conversion. *)
Definition ex_loop_list : Graph := build (
  l <- block_addInput 0 ;;
  setType l ListType ;;;
  i <- block_addInput 0 ;;
  j <- block_addInput 0 ;;
  k <- block_addInput 0 ;;
  v <- block_addInput 0 ;;
  lp <- create prim_Loop 0 ;;
  appendNode 0 lp ;;;
  body <- addBlock lp ;;
  d1 <- create "aten::Delete" 0 ;;
  addInput d1 l ;;;
  addInput d1 i ;;;
  appendNode body d1 ;;;
  d2 <- create "aten::Delete" 0 ;;
  addInput d2 l ;;;
  addInput d2 j ;;;
  appendNode body d2 ;;;
  s <- create_with_inputs "aten::_set_item" [l; k; v] ;;
  appendNode body s ;;;
  ln <- create_with_inputs "aten::len" [l] ;;
  appendNode body ln).

Definition ex_loop_list_converted : Result (ValueTracker * Graph) :=
  convertInplaceOpsAndTrackAlias ex_encapsulate ex_inplaceOpVariant
    (init ex_loop_list) ex_loop_list.

Definition ex_loop_list_corrected : Result (unit * Graph) :=
  (vt <- convertInplaceOpsAndTrackAlias ex_encapsulate ex_inplaceOpVariant (init ex_loop_list) ;;
   correctAliasReferences vt) ex_loop_list.

(** [b = relu(a); c = add(b, b); d = tanh(c); return d], every aten operator
    differentiable. *)
Definition ex_chain : Graph := build (
  a <- block_addInput 0 ;;
  n1 <- create_with_inputs "aten::relu" [a] ;;
  appendNode 0 n1 ;;;
  b <- output n1 ;;
  n2 <- create_with_inputs "aten::add" [b; b] ;;
  appendNode 0 n2 ;;;
  c <- output n2 ;;
  n3 <- create_with_inputs "aten::tanh" [c] ;;
  appendNode 0 n3 ;;;
  d <- output n3 ;;
  registerOutput 0 d).

Definition ex_isDifferentiable (g : Graph) (n : node) : bool :=
  match kind g n with
  | Some k => is_aten k
  | None => false
  end.

Definition ex_chain_dag : DynamicDAG :=
  match make_dependency_graph ex_chain 0 with
  | Ok d => d
  | _ => empty_dag
  end.

Definition ex_chain_dag_contracted : DynamicDAG :=
  default empty_dag (contractEdge_model ex_chain_dag 1 2).

(** [x = relu(a); x.add_(y); z = mul(x, 2); return z] *)
Definition ex_add_mul : Graph := build (
  a <- block_addInput 0 ;;
  y <- block_addInput 0 ;;
  n1 <- create_with_inputs "aten::relu" [a] ;;
  appendNode 0 n1 ;;;
  x <- output n1 ;;
  n2 <- create_with_inputs "aten::add_" [x; y] ;;
  appendNode 0 n2 ;;;
  rn <- lift_opt "block: dangling handle" (fun g => return_node g 0) ;;
  two <- insertConstant rn (IInt 2) IntType ;;
  n3 <- create_with_inputs "aten::mul" [x; two] ;;
  appendNode 0 n3 ;;;
  z <- output n3 ;;
  registerOutput 0 z).

Definition ex_add_mul_converted : Result (unit * Graph) :=
  (vt <- convertInplaceOpsAndTrackAlias ex_encapsulate ex_inplaceOpVariant (init ex_add_mul) ;;
   correctAliasReferences vt) ex_add_mul.

(** [v = select(x, i); v.add_(y)]: an in-place write to a view. *)
Definition ex_view_write : Graph := build (
  x <- block_addInput 0 ;;
  i <- block_addInput 0 ;;
  y <- block_addInput 0 ;;
  n1 <- create_with_inputs "aten::select" [x; i] ;;
  appendNode 0 n1 ;;;
  v <- output n1 ;;
  n2 <- create_with_inputs "aten::add_" [v; y] ;;
  appendNode 0 n2).

(** [f = false; x.copy_(y, f)] on two graph inputs. *)
Definition ex_copy : Graph := build (
  x <- block_addInput 0 ;;
  y <- block_addInput 0 ;;
  rn <- lift_opt "block: dangling handle" (fun g => return_node g 0) ;;
  f <- insertConstant rn (IBool false) BoolType ;;
  c <- create_with_inputs "aten::copy_" [x; y; f] ;;
  appendNode 0 c).

(** [x.fill_(s)] on a tensor input [x] and a scalar input [s] of number
    type. *)
Definition ex_number_input : Graph := build (
  x <- block_addInput 0 ;;
  s <- block_addInput 0 ;;
  setType s NumberType ;;;
  n <- create_with_inputs "aten::fill_" [x; s] ;;
  appendNode 0 n).

(** [l.append(x); t = l.pop(i); del l[i]] on a list input [l]. *)
Definition ex_list_ops : Graph := build (
  l <- block_addInput 0 ;;
  setType l ListType ;;;
  x <- block_addInput 0 ;;
  i <- block_addInput 0 ;;
  setType i IntType ;;;
  n1 <- create "aten::append" 0 ;;
  addInput n1 l ;;;
  addInput n1 x ;;;
  appendNode 0 n1 ;;;
  n2 <- create_with_inputs "aten::pop" [l; i] ;;
  appendNode 0 n2 ;;;
  n3 <- create "aten::Delete" 0 ;;
  addInput n3 l ;;;
  addInput n3 i ;;;
  appendNode 0 n3).

(** * Predicates used in the statements *)
Definition node_extends (o o' : option NodeR) : Prop :=
  match o, o' with
  | None, None => True
  | Some r, Some r' =>
      n_kind r' = n_kind r /\ n_blocks r' = n_blocks r /\
      n_owning_block r' = n_owning_block r /\
      n_ival r' = n_ival r /\ n_name r' = n_name r /\
      n_inputs r `prefix_of` n_inputs r' /\ n_outputs r `prefix_of` n_outputs r'
  | _, _ => False
  end.

Definition extends (g g' : Graph) : Prop :=
  g_blocks g' = g_blocks g /\ g_block g' = g_block g /\ g_cerr g' = g_cerr g /\
  g_values g `prefix_of` g_values g' /\
  forall n, node_extends (get_node g n) (get_node g' n).

(** Every root that the tracker maps to is itself a tracked value. *)
Definition roots_tracked (vt : ValueTracker) : Prop :=
  forall a r, alias_to_value_ vt !! a = Some r -> is_Some (alias_to_value_ vt !! r).

Definition untracked_inv (v : value) (vt : ValueTracker) : Prop :=
  roots_tracked vt /\ alias_to_value_ vt !! v = None.

Definition rec_untracked (v : value)
    (rec : ValueTracker -> value -> value -> M ValueTracker) : Prop :=
  forall vt o n g vt' g',
    rec vt o n g = Ok (vt', g') ->
    untracked_inv v vt -> v <> o -> v <> n -> v < length (g_values g) ->
    untracked_inv v vt'.

(** The tracker states in which [v] has been left alone: the tracker starts
    empty, the graph may be edited between calls (values are never removed),
    and no call names [v] or is made before [v] exists. *)
Inductive never_registered (v : value) : ValueTracker -> Graph -> Prop :=
  | nr_init g : never_registered v (init g) g
  | nr_edit vt g g' :
      never_registered v vt g ->
      never_registered v vt g'
  | nr_register vt g old_v new_v vt' g' :
      never_registered v vt g ->
      v <> old_v -> v <> new_v -> v < length (g_values g) ->
      registerSetValue vt old_v new_v g = Ok (vt', g') ->
      never_registered v vt' g'.

Definition visible (g : Graph) (q : node) (a : value) : Prop := visible_at g q a = Ok true.



(** An alias that comes from a block enclosing the [prim::If] node. *)
Definition from_outer (g : Graph) (owning_blocknode : node) (alias : value) : Prop :=
  isAncestor g (node_of g alias ≫= owningBlock g) (owningBlock g owning_blocknode) = Ok true.














(** ** Well-formed block trees *)

(** Following [owningBlock()->owningNode()] from a node reaches the null
    owner of the top-level block in at most [fuel] steps. *)
Fixpoint owner_chain_ends (fuel : nat) (g : Graph) (o : option node) : bool :=
  match o with
  | None => true
  | Some n =>
      match fuel with
      | 0 => false
      | S f =>
          match owningBlock g n with
          | Some b => owner_chain_ends f g (owningNode g b)
          | None => false
          end
      end
  end.

(** The node list of a block: no node is listed twice, the return node is
    not listed, every listed node is owned by the block, and so is the
    return node; every user of an output of a listed node is a live node
    whose owner chain ends. *)
Definition nodes_wf (g : Graph) (b : block) : bool :=
  match get_block g b with
  | Some br =>
      bool_decide (NoDup (b_nodes br)) &&
      bool_decide (b_return br ∉ b_nodes br) &&
      bool_decide (owningBlock g (b_return br) = Some b) &&
      forallb (fun n =>
                 bool_decide (owningBlock g n = Some b) &&
                 forallb (fun v =>
                            forallb (fun u : node * nat =>
                                       owner_chain_ends (length (g_blocks g)) g (Some u.1))
                                    (uses g v))
                         (outputs g n))
              (b_nodes br)
  | None => false
  end.

(** The blocks nested below [b], at most [depth] levels deep, all have
    well-formed node lists. *)
Fixpoint tree_wf (depth : nat) (g : Graph) (b : block) : bool :=
  nodes_wf g b &&
  match depth with
  | 0 => bool_decide (block_nodes g b = [])
  | S d => forallb (fun n => forallb (tree_wf d g) (blocks g n)) (block_nodes g b)
  end.

Definition graph_wf (g : Graph) : bool :=
  tree_wf (length (g_blocks g)) g (g_block g).

(** The node lists wrapped by the vertices of a dependency graph, by
    ordinal. *)
Definition dag_rdata (d : DynamicDAG) : list (option (list node)) :=
  (fun o : option vertex => rdata <$> (o ≫= get_vertex d)) <$> maybe_vertices d.

(** The graph in which the node list of block [b] reads [l]. *)
Definition with_block_nodes (g : Graph) (b : block) (br : BlockR) (l : list node) : Graph :=
  with_blocks g (<[b := set_b_nodes br l]> (g_blocks g)).

(** ** The conversion of one in-place operator node *)

(** A node after [replaceAllUsesWith old new]. *)
Definition rewired (old new : value) (r : NodeR) : NodeR :=
  set_inputs r (subst_value old new <$> n_inputs r).

(** The graph in which the in-place node [n] (record [r], at position [i]
    of the node list of its block [b], output [old_out] of type [t]) is
    replaced by a pure node: a fresh node of kind [strip_last (n_kind r)]
    with the inputs of [n] and one fresh output, inserted before [n]; every
    use of [old_out] reads the fresh output; [n] is destroyed. *)
Definition pure_node (g : Graph) (r : NodeR) (b : block) : NodeR :=
  mkNode (strip_last (n_kind r)) (n_inputs r) [length (g_values g)] [] (Some b) None None.

Definition with_pure_node (g : Graph) (n : node) (r : NodeR) (b : block) (br : BlockR)
    (i : nat) (old_out : value) (t : TypeKind) : Graph :=
  mkGraph
    (<[n := None]>
       (fmap (M := list) (fmap (M := option) (rewired old_out (length (g_values g))))
             (g_nodes g))
     ++ [Some (pure_node g r b)])
    (<[b := set_b_nodes br (remove_elem n (insert_at i (length (g_nodes g)) (b_nodes br)))]>
       (g_blocks g))
    (g_values g ++ [mkValue (length (g_nodes g)) t])
    (g_block g) (g_cerr g).

(** An in-place operator node [n] as [PrepareInplaceOpsInBlocksForONNX]
    expects it: an aten operator whose name ends in the marker, with one
    output, no blocks, listed at position [i] of its block [b]; its first
    input [in0] is produced by the live node [v_node vr0]. *)
Record inplace_op (g : Graph) (n : node) (r : NodeR) (b : block) (br : BlockR) (i : nat)
    (old_out : value) (vo : ValueR) (in0 : value) (vr0 : ValueR) (rp : NodeR) : Prop := {
  io_node : get_node g n = Some r;
  io_aten : is_aten (n_kind r) = true;
  io_marker : last_char (n_kind r) = Some underscore;
  io_input0 : n_inputs r !! 0 = Some in0;
  io_inputs : forall v, v ∈ n_inputs r -> v < length (g_values g);
  io_output : n_outputs r = [old_out];
  io_blocks : n_blocks r = [];
  io_owner : n_owning_block r = Some b;
  io_block : get_block g b = Some br;
  io_listed : index_of n (b_nodes br) = Some i;
  io_live : forall m, m ∈ b_nodes br -> is_Some (get_node g m);
  io_param : is_Some (get_node g (b_param br));
  io_return : is_Some (get_node g (b_return br));
  io_not_return : n <> b_return br;
  io_out_value : g_values g !! old_out = Some vo;
  io_out_unread : old_out ∉ n_inputs r;
  io_in_value : g_values g !! in0 = Some vr0;
  io_producer : get_node g (v_node vr0) = Some rp;
  io_producer_ne : v_node vr0 <> n;
}.

(** What every conversion leaves behind: the in-place node is destroyed; a
    fresh node named by stripping the marker carries its inputs in order and
    one fresh output of the same type; it is listed in the block; every other
    node reads the fresh output where it read the output of the in-place
    node. *)
Definition pure_conversion (g g1 : Graph) (n : node) (r : NodeR) (b : block)
    (old_out : value) : Prop :=
  let new_node := length (g_nodes g) in
  let new_out := length (g_values g) in
  get_node g1 n = None /\
  kind g1 new_node = Some (strip_last (n_kind r)) /\
  inputs g1 new_node = n_inputs r /\
  outputs g1 new_node = [new_out] /\
  type_of g1 new_out = type_of g old_out /\
  new_node ∈ block_nodes g1 b /\
  forall m rm, m <> n -> get_node g m = Some rm ->
    get_node g1 m = Some (rewired old_out new_out rm).

(** An [aten::copy_] node as [PrepareCopyForONNX] expects it: inputs
    [dst], [src] and the non-blocking flag, one output [co]. *)
Record copy_op (g : Graph) (c : node) (rc : NodeR) (b : block) (br : BlockR) (i : nat)
    (dst src nb co : value) (vsrc vco : ValueR) : Prop := {
  co_node : get_node g c = Some rc;
  co_kind : n_kind rc = aten_copy_;
  co_inputs : n_inputs rc = [dst; src; nb];
  co_output : n_outputs rc = [co];
  co_blocks : n_blocks rc = [];
  co_owner : n_owning_block rc = Some b;
  co_block : get_block g b = Some br;
  co_listed : index_of c (b_nodes br) = Some i;
  co_not_return : c <> b_return br;
  co_src_value : g_values g !! src = Some vsrc;
  co_out_value : g_values g !! co = Some vco;
  co_out_unread : co ∉ n_inputs rc;
}.

(** The graph in which the copy node [c] is lowered: an empty
    [prim::ListConstruct], an [aten::expand_as] of the source to the
    destination and an [aten::index_put_] are inserted before [c], in this
    order; every use of the output of [c] reads the output of the
    [index_put_]; [c] is destroyed. *)
Definition with_index_put (g : Graph) (c : node) (b : block) (br : BlockR) (i : nat)
    (dst src nb co : value) (tsrc tco : TypeKind) : Graph :=
  let N := length (g_nodes g) in
  let V := length (g_values g) in
  mkGraph
    (<[c := None]>
       (fmap (M := list) (fmap (M := option) (rewired co (S (S V))))
          (((g_nodes g
             ++ [Some (mkNode prim_ListConstruct [] [V] [] (Some b) None None)])
             ++ [Some (mkNode aten_expand_as [src; dst] [S V] [] (Some b) None None)])
             ++ [Some (mkNode aten_index_put_ [dst; V; S V; nb] [S (S V)] []
                              (Some b) None None)])))
    (<[b := set_b_nodes br
              (remove_elem c
                 (insert_at (S (S i)) (S (S N))
                    (insert_at (S i) (S N) (insert_at i N (b_nodes br)))))]>
       (g_blocks g))
    (((g_values g ++ [mkValue N ListType]) ++ [mkValue (S N) tsrc])
       ++ [mkValue (S (S N)) tco])
    (g_block g) (g_cerr g).

(** The graph in which a write to a view is spelled out after the pure node
    [p] (at position [j] of its block, first input [in0], output [po]): a
    constant [false] before [p], and after [p] an [aten::copy_] of [po] into
    [in0]. *)
Definition with_copy (g : Graph) (b : block) (br : BlockR) (j : nat) (in0 po : value)
    : Graph :=
  let N := length (g_nodes g) in
  let V := length (g_values g) in
  mkGraph
    ((g_nodes g
      ++ [Some (mkNode prim_Constant [] [V] [] (Some b) (Some (IBool false)) None)])
      ++ [Some (mkNode aten_copy_ [in0; po; V] [S V] [] (Some b) None None)])
    (<[b := set_b_nodes br (insert_at (S (S j)) (S N) (insert_at j N (b_nodes br)))]>
       (g_blocks g))
    ((g_values g ++ [mkValue N BoolType]) ++ [mkValue (S N) TensorType])
    (g_block g) (g_cerr g).

(** The pure node [p] of a write to a view: first input [in0], output [po],
    at position [j] of its block [b]; [pn] is the [aten::select] or
    [aten::slice] node that produced the written tensor. *)
Record view_write (g : Graph) (p : node) (rpure : NodeR) (b : block) (br : BlockR) (j : nat)
    (in0 po : value) (vpo : ValueR) (pn : node) (rp : NodeR) : Prop := {
  vw_node : get_node g p = Some rpure;
  vw_input0 : n_inputs rpure !! 0 = Some in0;
  vw_output : n_outputs rpure = [po];
  vw_owner : n_owning_block rpure = Some b;
  vw_block : get_block g b = Some br;
  vw_listed : index_of p (b_nodes br) = Some j;
  vw_live : forall m, m ∈ b_nodes br -> m < length (g_nodes g);
  vw_param : b_param br < length (g_nodes g);
  vw_return : b_return br < length (g_nodes g);
  vw_not_param : p <> b_param br;
  vw_not_return : p <> b_return br;
  vw_in_value : in0 < length (g_values g);
  vw_out_value : g_values g !! po = Some vpo;
  vw_producer : get_node g pn = Some rp;
  vw_view : n_kind rp = aten_select \/ n_kind rp = aten_slice;
}.

(** The copy that spells out the write to the view. *)
Definition copy_synthesized (gc : Graph) (new_copy : node) (in0 x2 false_val : value)
    : Prop :=
  kind gc new_copy = Some aten_copy_ /\
  inputs gc new_copy = [in0; x2; false_val] /\
  toIValue gc false_val = Some (IBool false).

(** The copy lowered to an [aten::index_put_] with an empty list of indices
    and the source expanded to the destination. *)
Definition index_put_lowered (g2 : Graph) (new_copy ipn : node) (dst src nb : value)
    : Prop :=
  get_node g2 new_copy = None /\
  kind g2 ipn = Some aten_index_put_ /\
  exists indices expanded ln en,
    inputs g2 ipn = [dst; indices; expanded; nb] /\
    node_of g2 indices = Some ln /\ kind g2 ln = Some prim_ListConstruct /\
    inputs g2 ln = [] /\
    node_of g2 expanded = Some en /\ kind g2 en = Some aten_expand_as /\
    inputs g2 en = [src; dst].

(** ** Graphs that the recursive passes can walk *)

(** Block [b] exists, every node it lists is live, and the blocks of those
    nodes can be walked in turn, to a nesting depth below [fuel]. *)
Fixpoint walkable (fuel : nat) (g : Graph) (b : block) : bool :=
  match fuel with
  | 0 => false
  | S f =>
      match get_block g b with
      | None => false
      | Some br =>
          forallb (fun n => match get_node g n with
                            | Some r => forallb (walkable f g) (n_blocks r)
                            | None => false
                            end)
                  (b_nodes br)
      end
  end.

(** The operator kinds that [convertInplaceOpsAndTrackAlias] rewrites. *)
Definition inplace_kind (k : Symbol) : bool :=
  bool_decide (k = aten_copy_) || bool_decide (k = aten_index_put) ||
  bool_decide (k = aten_index_put_) || bool_decide (k = aten_insert) ||
  bool_decide (k = aten_append) || bool_decide (k = aten_pop) ||
  bool_decide (k = aten_Delete) || bool_decide (k = aten__set_item).

(** The types that [addDummyClone] knows how to clone. *)
Definition clonable (t : TypeKind) : bool :=
  bool_decide (t = ListType) || bool_decide (t = TensorType) || bool_decide (t = IntType) ||
  bool_decide (t = FloatType) || bool_decide (t = BoolType).

(** Every root that the tracker maps an alias to has a set of aliases: the
    first assertion of [findAliasForValueAtNode] holds. *)
Definition roots_have_sets (vt : ValueTracker) : Prop :=
  forall a r, alias_to_value_ vt !! a = Some r ->
              is_Some (value_to_sorted_aliases_ vt !! r).

Definition rec_keeps_sets (rec : ValueTracker -> value -> value -> M ValueTracker) : Prop :=
  forall vt o n g vt' g',
    rec vt o n g = Ok (vt', g') -> roots_have_sets vt -> roots_have_sets vt'.

(** The graph after [addDummyClone input_ false rn] for a value of a tensor
    or scalar type [t], where [rn] is a node of block [b]: a [prim::Constant]
    of type None and an [aten::clone] of [input_] typed like it are put, in
    this order, at the start of the block. *)
Definition with_clone (g : Graph) (b : block) (br : BlockR) (input_ : value) (t : TypeKind)
  : Graph :=
  mkGraph (g_nodes g ++
             [Some (mkNode prim_Constant [] [length (g_values g)] [] (Some b) None None);
              Some (mkNode aten_clone [input_; length (g_values g)]
                           [S (length (g_values g))] [] (Some b) None None)])
          (<[b := set_b_nodes br (length (g_nodes g) :: S (length (g_nodes g)) :: b_nodes br)]>
             (g_blocks g))
          (g_values g ++ [mkValue (length (g_nodes g)) NoneType;
                          mkValue (S (length (g_nodes g))) t])
          (g_block g) (g_cerr g).

(** The same for a value of list type: one [aten::list] node. *)
Definition with_list_clone (g : Graph) (b : block) (br : BlockR) (input_ : value) : Graph :=
  mkGraph (g_nodes g ++
             [Some (mkNode aten_list [input_] [length (g_values g)] [] (Some b) None None)])
          (<[b := set_b_nodes br (length (g_nodes g) :: b_nodes br)]> (g_blocks g))
          (g_values g ++ [mkValue (length (g_nodes g)) ListType])
          (g_block g) (g_cerr g).

(** The owning node recorded in every block is a node of the graph. *)
Definition owners_live (g : Graph) : bool :=
  forallb (fun br => match b_owning_node br with
                     | Some on => bool_decide (on < length (g_nodes g))
                     | None => true
                     end)
          (g_blocks g).

(** Where the position [p] of a node in a block goes when [k] nodes are put
    at the start of the block: the param node stays first. *)
Definition shifted (k p : nat) : nat :=
  match p with 0 => 0 | S i => S (k + i) end.

(** The graph after [replaceAllUsesAfterNodeWith old n new]. *)
Definition uses_after_rewired (g : Graph) (old : value) (n : node) (new : value) : Graph :=
  with_nodes g
    (imap (fun u o => match o with
                      | Some r => if isAfter g u n
                                  then Some (set_inputs r (subst_value old new <$> n_inputs r))
                                  else Some r
                      | None => None
                      end) (g_nodes g)).

(** * Properties *)

Set Warnings "-clear-no-such-hyp".
Open Scope list_scope.

(** ** The monad *)

Lemma bind_Ok {A B} (m : M A) (k : A -> M B) g r :
  bind m k g = Ok r <-> exists a g1, m g = Ok (a, g1) /\ k a g1 = Ok r.
Proof.
  unfold bind. split.
  - destruct (m g) as [[a g1]| |]; [eauto|done|done].
  - intros (a & g1 & -> & H). done.
Qed.

Lemma rbind_Ok {A B} (r : Result A) (k : A -> Result B) b :
  rbind r k = Ok b <-> exists a, r = Ok a /\ k a = Ok b.
Proof.
  split.
  - destruct r; simpl; [eauto|done|done].
  - intros (a & -> & H). done.
Qed.

Lemma ret_Ok {A} (a : A) g r : ret a g = Ok r <-> r = (a, g).
Proof. unfold ret. split; [by intros [= <-]|by intros ->]. Qed.

Lemma get_Ok g r : get g = Ok r <-> r = (g, g).
Proof. unfold get. split; [by intros [= <-]|by intros ->]. Qed.

Lemma put_Ok g0 g r : put g0 g = Ok r <-> r = (tt, g0).
Proof. unfold put. split; [by intros [= <-]|by intros ->]. Qed.

Lemma lift_opt_Ok {A} msg (f : Graph -> option A) g r :
  lift_opt msg f g = Ok r <-> exists a, f g = Some a /\ r = (a, g).
Proof.
  unfold lift_opt. destruct (f g); split.
  - intros [= <-]. eauto.
  - intros (? & ? & ->). by simplify_eq.
  - done.
  - intros (? & ? & ?). done.
Qed.

Lemma lift_res_Ok {A} (f : Graph -> Result A) g r :
  lift_res f g = Ok r <-> exists a, f g = Ok a /\ r = (a, g).
Proof.
  unfold lift_res. destruct (f g); simpl; split; try done.
  - intros [= <-]. eauto.
  - intros (? & ? & ->). by simplify_eq.
  - intros (? & ? & ?). done.
  - intros (? & ? & ?). done.
Qed.

Lemma assert_Ok msg b g r : assert msg b g = Ok r <-> b = true /\ r = (tt, g).
Proof.
  unfold assert. destruct b; simpl.
  - rewrite ret_Ok. split; [by intros ->|by intros [_ ->]].
  - unfold fail. split; [done|by intros [? _]].
Qed.

Lemma fail_Ok {A} msg g (r : A * Graph) : fail msg g = Ok r <-> False.
Proof. done. Qed.

(** Decompose a successful run into the successful runs of its steps. *)
Ltac inv_M H :=
  repeat first
    [ apply bind_Ok in H as (? & ? & ? & H)
    | apply ret_Ok in H
    | apply get_Ok in H
    | apply put_Ok in H
    | apply assert_Ok in H as [? H]
    | apply lift_opt_Ok in H as (? & ? & H)
    | apply lift_res_Ok in H as (? & ? & H)
    | apply fail_Ok in H; destruct H ].

Ltac inv_step :=
  repeat match goal with
         | H : bind _ _ _ = Ok _ |- _ => apply bind_Ok in H as (? & ? & ? & ?)
         | H : ret _ _ = Ok _ |- _ => apply ret_Ok in H
         | H : get _ = Ok _ |- _ => apply get_Ok in H
         | H : put _ _ = Ok _ |- _ => apply put_Ok in H
         | H : assert _ _ _ = Ok _ |- _ => apply assert_Ok in H as [? ?]
         | H : lift_opt _ _ _ = Ok _ |- _ => apply lift_opt_Ok in H as (? & ? & ?)
         | H : lift_res _ _ = Ok _ |- _ => apply lift_res_Ok in H as (? & ? & ?)
         | H : fail _ _ = Ok _ |- _ => apply fail_Ok in H; destruct H
         | H : (_, _) = (_, _) |- _ => injection H as ? ?
         | H : Ok _ = Ok _ |- _ => injection H as ?
         | x : unit |- _ => destruct x
         | H : bool_decide _ = true |- _ => apply bool_decide_eq_true in H
         | H : bool_decide _ = false |- _ => apply bool_decide_eq_false in H
         | H : @eq string _ _ |- _ => exfalso; clear -H; vm_compute in H; discriminate H
         | H : @eq Symbol _ _ |- _ => exfalso; clear -H; vm_compute in H; discriminate H
         end; simplify_eq.

Ltac inv_all := inv_step; repeat (progress inv_step).


(** ** Graph edits that only append inputs, outputs and values *)

Lemma node_extends_refl o : node_extends o o.
Proof. destruct o; simpl; naive_solver. Qed.

Lemma node_extends_trans o1 o2 o3 :
  node_extends o1 o2 -> node_extends o2 o3 -> node_extends o1 o3.
Proof.
  destruct o1, o2, o3; simpl; try done.
  intros (?&?&?&?&?&?&?) (?&?&?&?&?&?&?).
  repeat split; try congruence; by etrans.
Qed.

Lemma extends_refl g : extends g g.
Proof. repeat split; auto using node_extends_refl. Qed.

Lemma extends_trans g1 g2 g3 : extends g1 g2 -> extends g2 g3 -> extends g1 g3.
Proof.
  intros (?&?&?&?&Ha) (?&?&?&?&Hb). repeat split; try congruence.
  - by etrans.
  - intros n. eapply node_extends_trans; eauto.
Qed.

Lemma get_node_upd g n x m :
  n < length (g_nodes g) ->
  get_node (with_nodes g (<[n := x]> (g_nodes g))) m = if decide (m = n) then x else get_node g m.
Proof.
  intros Hn. unfold get_node, with_nodes. simpl. case_decide as E.
  - subst. by rewrite list_lookup_insert_eq.
  - by rewrite list_lookup_insert_ne.
Qed.

Lemma get_node_Some_lt g n r : get_node g n = Some r -> n < length (g_nodes g).
Proof.
  unfold get_node. intros H. destruct (g_nodes g !! n) eqn:E; [|done].
  by eapply lookup_lt_Some.
Qed.

Lemma addInput_Ok n v g g' :
  addInput n v g = Ok (tt, g') <->
  exists r, get_node g n = Some r /\
            g' = with_nodes g (<[n := Some (set_inputs r (n_inputs r ++ [v]))]> (g_nodes g)).
Proof.
  unfold addInput, upd_node. destruct (get_node g n); split.
  - intros [= <-]. eauto.
  - by intros (? & [= <-] & ->).
  - done.
  - by intros (? & ? & _).
Qed.

Lemma addOutput_Ok n g v g' :
  addOutput n g = Ok (v, g') <->
  exists r, get_node g n = Some r /\ v = length (g_values g) /\
            g' = mkGraph (<[n := Some (set_outputs r (n_outputs r ++ [v]))]> (g_nodes g))
                   (g_blocks g) (g_values g ++ [mkValue n TensorType]) (g_block g) (g_cerr g).
Proof.
  unfold addOutput. destruct (get_node g n); split.
  - intros [= <- <-]. eauto.
  - by intros (? & [= <-] & -> & ->).
  - done.
  - by intros (? & ? & _).
Qed.

Lemma addInput_extends n v g g' : addInput n v g = Ok (tt, g') -> extends g g'.
Proof.
  intros (r & Hr & ->)%addInput_Ok. repeat split; try done.
  intros m. rewrite get_node_upd by (by eapply get_node_Some_lt).
  case_decide; subst; [|apply node_extends_refl].
  rewrite Hr. simpl. repeat split; try done. by apply prefix_app_r.
Qed.

Lemma addOutput_extends n g v g' : addOutput n g = Ok (v, g') -> extends g g'.
Proof.
  intros (r & Hr & -> & ->)%addOutput_Ok. repeat split; try done.
  - simpl. by apply prefix_app_r.
  - intros m.
    change (get_node (mkGraph ?a ?b ?c ?d ?e) m) with (mjoin (a !! m)).
    pose proof (get_node_Some_lt _ _ _ Hr).
    destruct (decide (m = n)) as [->|].
    + rewrite list_lookup_insert_eq by done. rewrite Hr. simpl.
      repeat split; try done. by apply prefix_app_r.
    + rewrite list_lookup_insert_ne by done. apply node_extends_refl.
Qed.

Lemma registerOutput_extends b v g g' : registerOutput b v g = Ok (tt, g') -> extends g g'.
Proof. unfold registerOutput. intros H. inv_all. by eapply addInput_extends. Qed.

Lemma block_addInput_extends b g v g' : block_addInput b g = Ok (v, g') -> extends g g'.
Proof. unfold block_addInput. intros H. inv_all. by eapply addOutput_extends. Qed.

Lemma for_each_extends {A} (xs : list A) (body : A -> M unit) :
  (forall x g g', body x g = Ok (tt, g') -> extends g g') ->
  forall g g', for_each xs body g = Ok (tt, g') -> extends g g'.
Proof.
  intros Hb. induction xs as [|x xs IH]; simpl; intros g g' H.
  - inv_all. apply extends_refl.
  - inv_all. eapply extends_trans; eauto.
Qed.

(** What an appending edit cannot change. *)
Section extends_facts.
Context (g g' : Graph) (He : extends g g').

Lemma extends_get_block b : get_block g' b = get_block g b.
Proof. unfold get_block. by destruct He as (-> & _). Qed.

Lemma extends_blocks_length : length (g_blocks g') = length (g_blocks g).
Proof. by destruct He as (-> & _). Qed.

Lemma extends_owningNode b : owningNode g' b = owningNode g b.
Proof. unfold owningNode. by rewrite extends_get_block. Qed.



Lemma extends_node n : node_extends (get_node g n) (get_node g' n).
Proof. by destruct He as (_ & _ & _ & _ & H). Qed.

Lemma extends_owningBlock n : owningBlock g' n = owningBlock g n.
Proof.
  unfold owningBlock. pose proof (extends_node n) as H.
  destruct (get_node g n), (get_node g' n); simpl in *; naive_solver.
Qed.


Lemma extends_n_blocks n :
  n_blocks <$> get_node g' n = n_blocks <$> get_node g n.
Proof.
  pose proof (extends_node n) as H.
  destruct (get_node g n), (get_node g' n); simpl in *; try done.
  f_equal. naive_solver.
Qed.

Lemma extends_values_length : length (g_values g) <= length (g_values g').
Proof. destruct He as (_ & _ & _ & H & _). by apply prefix_length. Qed.





Lemma extends_topo_position n : topo_position g' n = topo_position g n.
Proof.
  unfold topo_position. rewrite extends_owningBlock.
  destruct (owningBlock g n); simpl; [|done]. by rewrite extends_get_block.
Qed.

Lemma extends_up_chain fuel n : up_chain fuel g' n = up_chain fuel g n.
Proof.
  revert n. induction fuel as [|f IH]; intros n; simpl; [done|].
  rewrite extends_owningBlock. destruct (owningBlock g n); simpl; [|done].
  rewrite extends_owningNode. destruct (owningNode g b); [|done]. by rewrite IH.
Qed.

Lemma extends_same_block l r : same_block g' l r = same_block g l r.
Proof. unfold same_block. by rewrite !extends_owningBlock. Qed.

Lemma extends_find_same_block l rs : find_same_block g' l rs = find_same_block g l rs.
Proof. induction rs as [|r rs IH]; simpl; [done|]. by rewrite extends_same_block, IH. Qed.

Lemma extends_find_common ls rs : find_common g' ls rs = find_common g ls rs.
Proof. induction ls as [|l ls IH]; simpl; [done|]. by rewrite extends_find_same_block, IH. Qed.

Lemma extends_isBefore n m : isBefore g' n m = isBefore g n m.
Proof.
  unfold isBefore, common_block_pair.
  rewrite extends_blocks_length, !extends_up_chain, extends_find_common.
  destruct (find_common _ _ _) as [[l r]|]; [|done].
  by rewrite !extends_topo_position.
Qed.

Lemma extends_isAncestor_aux fuel a b :
  isAncestor_aux fuel g' a b = isAncestor_aux fuel g a b.
Proof.
  revert b. induction fuel as [|f IH]; intros b; simpl.
  - destruct b as [b|]; simpl; [|done]. by rewrite extends_owningNode.
  - destruct b as [b|]; simpl; [|done]. rewrite extends_owningNode.
    destruct (owningNode g b); [|done]. case_decide; [done|].
    by rewrite extends_owningBlock, IH.
Qed.

Lemma extends_isAncestor a b : isAncestor g' a b = isAncestor g a b.
Proof. unfold isAncestor. by rewrite extends_blocks_length, extends_isAncestor_aux. Qed.
End extends_facts.


(** ** The tracker *)

Lemma thread_loop_extends rec vt2 root_v new_v ob obn g vt' g' :
  (forall vt o n g vt' g', rec vt o n g = Ok (vt', g') -> extends g g') ->
  thread_loop rec vt2 root_v new_v ob obn g = Ok (vt', g') -> extends g g'.
Proof.
  intros Hrec H. unfold thread_loop in H. inv_all.
  repeat match goal with
         | H : registerOutput _ _ _ = Ok _ |- _ => apply registerOutput_extends in H
         | H : block_addInput _ _ = Ok _ |- _ => apply block_addInput_extends in H
         | H : addInput _ _ _ = Ok _ |- _ => apply addInput_extends in H
         | H : addOutput _ _ = Ok _ |- _ => apply addOutput_extends in H
         | H : rec _ _ _ _ = Ok _ |- _ => apply Hrec in H
         end.
  repeat (eapply extends_trans; [eassumption|]). apply extends_refl.
Qed.

Lemma thread_if_extends rec vt2 root_v new_v ob obn g vt' g' :
  (forall vt o n g vt' g', rec vt o n g = Ok (vt', g') -> extends g g') ->
  thread_if rec vt2 root_v new_v ob obn g = Ok (vt', g') -> extends g g'.
Proof.
  intros Hrec H. unfold thread_if in H. inv_all.
  case_match; inv_all; [|apply extends_refl].
  eapply extends_trans.
  { eapply for_each_extends; [|eassumption].
    intros sb ga gb Hb. simpl in Hb. destruct (decide (ob = sb)); by eapply registerOutput_extends. }
  eapply extends_trans; [by eapply addOutput_extends|]. by eapply Hrec.
Qed.

Lemma registerSetValue_body_extends rec vt old_v new_v g vt' g' :
  (forall vt o n g vt' g', rec vt o n g = Ok (vt', g') -> extends g g') ->
  registerSetValue_body rec vt old_v new_v g = Ok (vt', g') -> extends g g'.
Proof.
  intros Hrec H. unfold registerSetValue_body in H. inv_all.
  case_decide; inv_all; [apply extends_refl|].
  repeat (case_match; inv_all); try apply extends_refl.
  - by eapply thread_loop_extends.
  - by eapply thread_if_extends.
Qed.

Lemma registerSetValue_aux_extends fuel vt old_v new_v g vt' g' :
  registerSetValue_aux fuel vt old_v new_v g = Ok (vt', g') -> extends g g'.
Proof.
  revert vt old_v new_v g vt' g'. induction fuel as [|f IH]; intros vt o n g vt' g' H;
    simpl in H; (eapply registerSetValue_body_extends; [|exact H]); [done|exact IH].
Qed.

Lemma registerSetValue_extends vt old_v new_v g vt' g' :
  registerSetValue vt old_v new_v g = Ok (vt', g') -> extends g g'.
Proof. apply registerSetValue_aux_extends. Qed.


Lemma atv_track_old vt old_v a :
  alias_to_value_ (track_old vt old_v) !! a =
  match alias_to_value_ vt !! old_v with
  | Some _ => alias_to_value_ vt !! a
  | None => if decide (a = old_v) then Some old_v else alias_to_value_ vt !! a
  end.
Proof.
  unfold track_old. destruct (alias_to_value_ vt !! old_v) eqn:E; [done|].
  simpl. case_decide; subst; [by rewrite lookup_insert_eq|by rewrite lookup_insert_ne].
Qed.

Lemma track_old_lookup vt old_v :
  alias_to_value_ (track_old vt old_v) !! old_v = Some (root_of vt old_v).
Proof.
  unfold root_of. rewrite atv_track_old.
  destruct (alias_to_value_ vt !! old_v) eqn:E; simpl; [done|].
  by rewrite decide_True.
Qed.

Lemma atv_track_new g vt old_v new_v a :
  alias_to_value_ (track_new g vt old_v new_v) !! a =
  if decide (a = new_v) then Some (root_of vt old_v)
  else alias_to_value_ (track_old vt old_v) !! a.
Proof.
  unfold track_new. simpl.
  case_decide; subst; [by rewrite lookup_insert_eq|by rewrite lookup_insert_ne].
Qed.

Lemma track_old_untracked v vt old_v :
  untracked_inv v vt -> v <> old_v -> untracked_inv v (track_old vt old_v).
Proof.
  intros [Hr Hv] Hne. split.
  - intros a r. rewrite !atv_track_old.
    destruct (alias_to_value_ vt !! old_v) eqn:E; [apply Hr|].
    repeat case_decide; subst; intros; simplify_eq; eauto.
  - rewrite atv_track_old. destruct (alias_to_value_ vt !! old_v); [done|].
    by rewrite decide_False.
Qed.

Lemma set_root_untracked v vt a r :
  untracked_inv v vt -> v <> a -> is_Some (alias_to_value_ vt !! r) ->
  untracked_inv v (vt_set_root vt a r).
Proof.
  intros [Hr Hv] Hne Hs. split.
  - intros b s. simpl. destruct (decide (b = a)) as [->|].
    + rewrite lookup_insert_eq. intros [= <-].
      destruct (decide (r = a)) as [->|]; [by rewrite lookup_insert_eq|].
      by rewrite lookup_insert_ne.
    + rewrite lookup_insert_ne by done. intros Hb. apply Hr in Hb.
      destruct (decide (s = a)) as [->|]; [by rewrite lookup_insert_eq|].
      by rewrite lookup_insert_ne.
  - simpl. by rewrite lookup_insert_ne.
Qed.

Lemma set_aliases_untracked v vt r s :
  untracked_inv v vt -> untracked_inv v (vt_set_aliases vt r s).
Proof. done. Qed.

Lemma root_of_tracked vt old_v :
  roots_tracked vt ->
  is_Some (alias_to_value_ (track_old vt old_v) !! root_of vt old_v).
Proof.
  intros Hr. unfold root_of. rewrite !atv_track_old.
  destruct (alias_to_value_ vt !! old_v) eqn:E; simpl.
  - eauto.
  - destruct (decide (old_v = old_v)); [simpl|done].
    rewrite decide_True by done. eauto.
Qed.

Lemma root_of_ne v vt old_v :
  untracked_inv v vt -> v <> old_v -> root_of vt old_v <> v.
Proof.
  intros [Hr Hv] Hne E.
  destruct (root_of_tracked vt old_v Hr) as [x Hx].
  rewrite E, atv_track_old in Hx.
  destruct (alias_to_value_ vt !! old_v); [congruence|].
  case_decide; congruence.
Qed.

Lemma track_new_untracked g v vt old_v new_v :
  untracked_inv v vt -> v <> old_v -> v <> new_v ->
  untracked_inv v (track_new g vt old_v new_v).
Proof.
  intros Hi Hne1 Hne2. unfold track_new.
  apply set_aliases_untracked, set_root_untracked; [|done|].
  - by apply track_old_untracked.
  - apply root_of_tracked, Hi.
Qed.

Lemma track_new_root_tracked g vt old_v new_v :
  roots_tracked vt ->
  is_Some (alias_to_value_ (track_new g vt old_v new_v) !! root_of vt old_v).
Proof.
  intros Hr. rewrite atv_track_new. case_decide; [eauto|]. by apply root_of_tracked.
Qed.

Lemma registerSetValue_body_untracked v rec :
  rec_untracked v rec -> rec_untracked v (registerSetValue_body rec).
Proof.
  intros Hrec vt old_v new_v g vt' g' H Hi Hne1 Hne2 Hlt.
  pose proof (track_new_untracked g v vt old_v new_v Hi Hne1 Hne2) as Hi2.
  pose proof (root_of_ne v vt old_v Hi Hne1) as Hroot.
  pose proof (track_new_root_tracked g vt old_v new_v (proj1 Hi)) as Hrt.
  unfold registerSetValue_body in H. inv_all.
  case_decide; inv_all; [done|].
  repeat (case_match; inv_all); try done.
  - (* Loop *)
    unfold thread_loop in *. inv_all.
    repeat match goal with
           | H : registerOutput _ _ _ = Ok _ |- _ => apply registerOutput_extends in H
           | H : addInput _ _ _ = Ok _ |- _ => apply addInput_extends in H
           end.
    match goal with H : block_addInput _ _ = Ok _ |- _ =>
      pose proof (block_addInput_extends _ _ _ _ H) as He2;
      unfold block_addInput in H; inv_all end.
    match goal with H : addOutput _ _ = Ok (_, ?ga), H' : addOutput _ _ = Ok (_, ?gb) |- _ =>
      pose proof (addOutput_extends _ _ _ _ H) as He3;
      pose proof (addOutput_extends _ _ _ _ H') as He4;
      apply addOutput_Ok in H as (? & ? & ? & ?);
      apply addOutput_Ok in H' as (? & ? & ? & ?) end.
    repeat match goal with H : extends _ _ |- _ => apply extends_values_length in H end.
    subst. simpl in *. rewrite ?length_app in *. simpl in *.
    match goal with H : rec _ _ _ _ = Ok _ |- _ => eapply (Hrec _ _ _ _ _ _ H) end;
      try done; try lia; try (simpl; rewrite ?length_app; simpl; lia).
    apply set_root_untracked; [by apply set_aliases_untracked|lia|done].
  - (* If *)
    unfold thread_if in *. inv_all. case_match; inv_all; [|done].
    match goal with H : for_each _ _ _ = Ok _ |- _ =>
      eapply for_each_extends in H;
        [|intros sb ga gb Hb; simpl in Hb; case_decide; by eapply registerOutput_extends] end.
    match goal with H : addOutput _ _ = Ok (_, ?ga) |- _ =>
      pose proof (addOutput_extends _ _ _ _ H) as He3;
      apply addOutput_Ok in H as (? & ? & ? & ?) end.
    repeat match goal with H : extends _ _ |- _ => apply extends_values_length in H end.
    subst. simpl in *. rewrite ?length_app in *. simpl in *.
    match goal with H : rec _ _ _ _ = Ok _ |- _ => eapply (Hrec _ _ _ _ _ _ H) end;
      try done; try lia; try (simpl; rewrite ?length_app; simpl; lia).
Qed.

Lemma registerSetValue_aux_untracked v fuel : rec_untracked v (registerSetValue_aux fuel).
Proof.
  induction fuel as [|f IH]; simpl; apply registerSetValue_body_untracked; [|done].
  intros ? ? ? ? ? ? H. done.
Qed.

Lemma registerSetValue_untracked v : rec_untracked v registerSetValue.
Proof. intros vt o n g vt' g' H. by eapply registerSetValue_aux_untracked. Qed.


Lemma replaceInput_Ok n i v g g' :
  replaceInput n i v g = Ok (tt, g') <->
  exists r, get_node g n = Some r /\ i < length (n_inputs r) /\
            g' = with_nodes g (<[n := Some (set_inputs r (<[i := v]> (n_inputs r)))]> (g_nodes g)).
Proof.
  unfold replaceInput, upd_node. split.
  - intros H. inv_all. case_match; simplify_eq.
    eexists. split; [done|]. split; [done|done].
  - intros (r & Hr & Hi & ->). apply bind_Ok. exists r, g. split; [by apply lift_opt_Ok; eauto|].
    apply bind_Ok. exists tt, g. split.
    + apply assert_Ok. split; [|done]. by apply bool_decide_eq_true.
    + by rewrite Hr.
Qed.

Lemma inputs_upd g n r ins m :
  get_node g n = Some r ->
  inputs (with_nodes g (<[n := Some (set_inputs r ins)]> (g_nodes g))) m =
  if decide (m = n) then ins else inputs g m.
Proof.
  intros Hr. unfold inputs. rewrite get_node_upd by (by eapply get_node_Some_lt).
  by case_decide.
Qed.

Lemma inputs_get_node g n r : get_node g n = Some r -> inputs g n = n_inputs r.
Proof. unfold inputs. by intros ->. Qed.

Lemma replaceInput_inputs n i v g g' m :
  replaceInput n i v g = Ok (tt, g') ->
  inputs g' m = if decide (m = n) then <[i := v]> (inputs g n) else inputs g m.
Proof.
  intros (r & Hr & Hi & ->)%replaceInput_Ok.
  rewrite (inputs_upd _ _ _ _ _ Hr). by rewrite (inputs_get_node _ _ _ Hr).
Qed.

(** ** C9: a value that no [registerSetValue] call has involved *)

Lemma findAlias_untracked vt g v n :
  alias_to_value_ vt !! v = None -> findAliasForValueAtNode vt g v n = Ok v.
Proof. unfold findAliasForValueAtNode. by intros ->. Qed.

Lemma correctAliasReferenceForInput_slot vt n j g g' i v :
  correctAliasReferenceForInput vt n j g = Ok (tt, g') ->
  inputs g n !! i = Some v -> alias_to_value_ vt !! v = None ->
  inputs g' n !! i = Some v.
Proof.
  unfold correctAliasReferenceForInput, input. intros H Hi Hv. inv_all.
  case_decide; inv_all; [done|].
  match goal with H : replaceInput _ _ _ _ = Ok _ |- _ =>
    rewrite (replaceInput_inputs _ _ _ _ _ n H) end.
  rewrite decide_True by done.
  destruct (decide (i = j)) as [->|]; [|by rewrite list_lookup_insert_ne].
  rewrite findAlias_untracked in * by congruence. congruence.
Qed.

Lemma correctAliasReferenceForInputs_slot vt n g g' i v :
  correctAliasReferenceForInputs vt n g = Ok (tt, g') ->
  inputs g n !! i = Some v -> alias_to_value_ vt !! v = None ->
  inputs g' n !! i = Some v.
Proof.
  unfold correctAliasReferenceForInputs. intros H Hi Hv. inv_all.
  match goal with H : for_each ?l _ _ = Ok _ |- _ => revert H; generalize l end.
  intros js. revert g Hi. induction js as [|j js IH]; simpl; intros g Hi H; inv_all; [done|].
  eapply IH; [|eassumption]. by eapply correctAliasReferenceForInput_slot.
Qed.

Lemma never_registered_untracked v vt g : never_registered v vt g -> untracked_inv v vt.
Proof.
  induction 1 as [g|vt g g' _ IH|vt g o n vt' g' _ IH Ho Hn Hlt Hr].
  - split; [by intros a r|done].
  - done.
  - by eapply registerSetValue_untracked.
Qed.

(** C9. A value that was never registered with the alias tracker is its own
    alias at every query node, and [correctAliasReferenceForInputs] leaves
    every input slot that refers to it unchanged. *)
Theorem C9_unregistered_value_kept (v : value) (vt : ValueTracker) (g : Graph)
    (Hnr : never_registered v vt g) :
  (forall n, findAliasForValueAtNode vt g v n = Ok v) /\
  (forall n g' i, correctAliasReferenceForInputs vt n g = Ok (tt, g') ->
                  inputs g n !! i = Some v -> inputs g' n !! i = Some v).
Proof.
  apply never_registered_untracked in Hnr as [_ Hv]. split.
  - intros n. by apply findAlias_untracked.
  - intros n g' i H Hi. by eapply correctAliasReferenceForInputs_slot.
Qed.

(** ** The aliases that [findAliasForValueAtNode] can return *)

Lemma aliasComp_irrefl g a : aliasComp g a a = false.
Proof.
  unfold aliasComp. destruct (node_of g a); [|done]. by rewrite decide_True.
Qed.

Lemma aliasComp_asym g a b : aliasComp g a b = true -> aliasComp g b a = false.
Proof.
  unfold aliasComp.
  destruct (node_of g a) as [na|], (node_of g b) as [nb|]; try done.
  destruct (decide (na = nb)) as [->|Hne]; [done|].
  rewrite decide_False by congruence.
  destruct (isBefore g na nb), (isBefore g nb na); simpl; try done.
  all: intros H%bool_decide_eq_true; apply bool_decide_eq_false; lia.
Qed.

Lemma last_visible_app g q l1 l2 found :
  last_visible g q (l1 ++ l2) found =
  rbind (last_visible g q l1 found) (last_visible g q l2).
Proof.
  revert found. induction l1 as [|a l1 IH]; intros found; simpl; [done|].
  destruct (visible_at g q a) as [b| |]; simpl; [|done|done]. apply IH.
Qed.

Lemma last_visible_none g q l found :
  (forall a, a ∈ l -> visible_at g q a = Ok false) ->
  last_visible g q l found = Ok found.
Proof.
  revert found. induction l as [|a l IH]; intros found H; simpl; [done|].
  rewrite (H a) by set_solver. simpl. apply IH. intros. apply H. set_solver.
Qed.

Lemma last_visible_ok g q l found :
  (forall a, a ∈ l -> is_ok (visible_at g q a) = true) ->
  exists r, last_visible g q l found = Ok r.
Proof.
  revert found. induction l as [|a l IH]; intros found H; simpl; [eauto|].
  pose proof (H a ltac:(set_solver)) as Ha.
  destruct (visible_at g q a); try done. simpl. apply IH. intros. apply H. set_solver.
Qed.

Lemma last_visible_found g q l found r :
  last_visible g q l found = Ok (Some r) ->
  found = Some r \/ (r ∈ l /\ visible g q r).
Proof.
  revert found. induction l as [|a l IH]; intros found; simpl.
  - intros [= ->]. by left.
  - destruct (visible_at g q a) as [b| |] eqn:E; simpl; [|done|done].
    intros [H|[H1 H2]]%IH.
    + destruct b; [|by left]. simplify_eq. right. split; [set_solver|done].
    + right. split; [set_solver|done].
Qed.

Lemma visible_at_inv g q a :
  visible_at g q a = Ok true ->
  exists na, node_of g a = Some na /\ isBefore g na q = true /\
             isAncestor g (owningBlock g na) (owningBlock g q) = Ok true.
Proof.
  unfold visible_at. destruct (node_of g a) as [na|]; [|done].
  destruct (isBefore g na q) eqn:E; [|done]. eauto.
Qed.

Lemma visible_at_intro g q a na :
  node_of g a = Some na -> isBefore g na q = true ->
  isAncestor g (owningBlock g na) (owningBlock g q) = Ok true ->
  visible_at g q a = Ok true.
Proof. unfold visible_at. by intros -> -> ->. Qed.

(** The alias that [findAliasForValueAtNode] returns is the last visible
    element of the root's alias set. *)
Lemma findAlias_tracked_visible vt g w q r :
  is_Some (alias_to_value_ vt !! w) ->
  findAliasForValueAtNode vt g w q = Ok r ->
  exists nr, node_of g r = Some nr /\ isBefore g nr q = true /\
             isAncestor g (owningBlock g nr) (owningBlock g q) = Ok true.
Proof.
  intros [root_v Hw]. unfold findAliasForValueAtNode. rewrite Hw.
  destruct (value_to_sorted_aliases_ vt !! root_v) as [aliases|]; [|done].
  intros (o & Hl & Ho)%rbind_Ok. destruct o as [r'|]; [|done].
  simpl in Ho. simplify_eq.
  apply last_visible_found in Hl as [?|[_ Hvis]]; [done|].
  by apply visible_at_inv.
Qed.

(** ** Threading an alias out of a nested block *)

Lemma outputs_get_node g n r : get_node g n = Some r -> outputs g n = n_outputs r.
Proof. unfold outputs. by intros ->. Qed.







Lemma addOutput_node_of n g v g' : addOutput n g = Ok (v, g') -> node_of g' v = Some n.
Proof.
  intros (r & Hr & -> & ->)%addOutput_Ok. unfold node_of. simpl.
  by rewrite lookup_app_r, Nat.sub_diag.
Qed.













(** ** What a call with a tracked old value does to the tracker *)


Lemma set_insert_elem comp x l :
  x ∈ set_insert comp x l \/ exists y, y ∈ l /\ comp x y = false /\ comp y x = false.
Proof.
  induction l as [|z l IH]; simpl; [left; set_solver|].
  destruct (comp x z) eqn:E1; [left; set_solver|].
  destruct (comp z x) eqn:E2.
  - destruct IH as [IH|(y & ? & ? & ?)]; [left; set_solver|].
    right. exists y. split; [set_solver|done].
  - right. exists z. split; [set_solver|done].
Qed.

Lemma aliasComp_equiv_same_node g x y nx ny :
  node_of g x = Some nx -> node_of g y = Some ny ->
  aliasComp g x y = false -> aliasComp g y x = false -> nx = ny.
Proof.
  unfold aliasComp. intros Hx Hy. rewrite Hx, Hy.
  destruct (decide (nx = ny)) as [|Hne]; [done|].
  rewrite decide_False by congruence.
  destruct (isBefore g nx ny), (isBefore g ny nx); simpl; try done.
  all: intros H1%bool_decide_eq_false H2%bool_decide_eq_false;
    assert (x = y) as -> by lia; congruence.
Qed.

Lemma aliases_of_set_aliases vt r s r' :
  aliases_of (vt_set_aliases vt r s) r' = if decide (r' = r) then s else aliases_of vt r'.
Proof.
  unfold aliases_of. simpl. case_decide; subst.
  - by rewrite lookup_insert_eq.
  - by rewrite lookup_insert_ne.
Qed.

Lemma aliases_of_set_root vt a r r' : aliases_of (vt_set_root vt a r) r' = aliases_of vt r'.
Proof. done. Qed.

Lemma track_old_tracked vt old_v :
  is_Some (alias_to_value_ vt !! old_v) -> track_old vt old_v = vt.
Proof. unfold track_old. by intros [r ->]. Qed.


(** The tracker after the first two statements of [registerSetValue]. *)
Lemma aliases_of_track_new g vt old_v new_v r :
  is_Some (alias_to_value_ vt !! old_v) ->
  aliases_of (track_new g vt old_v new_v) r =
  if decide (r = root_of vt old_v)
  then set_insert (aliasComp g) new_v (aliases_of vt r)
  else aliases_of vt r.
Proof.
  intros Ht. unfold track_new. rewrite aliases_of_set_aliases, aliases_of_set_root.
  rewrite (track_old_tracked _ _ Ht). by case_decide; subst.
Qed.













Lemma set_insert_subset comp x l y : y ∈ set_insert comp x l -> y = x \/ y ∈ l.
Proof.
  induction l as [|z l IH]; simpl; [set_solver|].
  destruct (comp x z); [set_solver|]. destruct (comp z x); [|set_solver].
  intros [->|Hy]%elem_of_cons; [set_solver|]. destruct (IH Hy); set_solver.
Qed.









(** ** Roots map to themselves on every tracker that a conversion builds *)











(** ** Witnesses on the example graphs *)

Ltac elem_cases H :=
  repeat (apply elem_of_cons in H as [->|H]);
  try (by apply elem_of_nil in H).

(** C9 at [ex_loop]: the value [y] (handle 1) after the write to [x] has been
    registered. *)
Lemma C9_witness :
  never_registered 1 (tracker_of ex_loop_registered) (graph_of ex_loop_registered) /\
  (forall n, findAliasForValueAtNode (tracker_of ex_loop_registered)
               (graph_of ex_loop_registered) 1 n = Ok 1) /\
  (forall n g' i,
     correctAliasReferenceForInputs (tracker_of ex_loop_registered) n
       (graph_of ex_loop_registered) = Ok (tt, g') ->
     inputs (graph_of ex_loop_registered) n !! i = Some 1 -> inputs g' n !! i = Some 1).
Proof.
  assert (never_registered 1 (tracker_of ex_loop_registered) (graph_of ex_loop_registered))
    as Hnr.
  { eapply (nr_register 1 (init ex_loop) ex_loop 2 3).
    - apply nr_init.
    - lia.
    - lia.
    - vm_compute. lia.
    - vm_compute. reflexivity. }
  split; [exact Hnr|].
  exact (C9_unregistered_value_kept 1 _ _ Hnr).
Defined.

(** C2.  On [ex_loop_list] the conversion registers the outputs of the two
    [Delete] nodes (handles 7 and 10) and of the [_set_item] node (handle 5)
    as aliases of the list [l] (handle 0).  At the [len] node (node 8), which
    comes after all three in the loop body, both 10 and 5 are visible, and
    the node that produces 5 comes after the node that produces 10; yet
    [findAliasForValueAtNode] returns 10, and [correctAliasReferences] makes
    the [len] node read it.  The alias set is not in graph order: against the
    output of the loop node (handle 9) [aliasComp] compares handles, which
    closes a cycle 10 < 5 < 9 < 10. *)
Theorem C2_later_visible_write_missed :
  let vt := tracker_of ex_loop_list_converted in
  let g := graph_of ex_loop_list_converted in
  is_ok ex_loop_list_converted = true /\
  alias_to_value_ vt !! 0 = Some 0 /\
  alias_to_value_ vt !! 10 = Some 0 /\ alias_to_value_ vt !! 5 = Some 0 /\
  aliases_of vt 0 = [0; 8; 7; 5; 9; 10] /\
  node_of g 10 = Some 6 /\ node_of g 5 = Some 7 /\
  isBefore g 6 7 = true /\ isBefore g 7 6 = false /\
  isBefore g 6 8 = true /\ isBefore g 7 8 = true /\
  isAncestor g (owningBlock g 6) (owningBlock g 8) = Ok true /\
  isAncestor g (owningBlock g 7) (owningBlock g 8) = Ok true /\
  findAliasForValueAtNode vt g 0 8 = Ok 10 /\
  aliasComp g 10 5 = true /\ aliasComp g 5 9 = true /\ aliasComp g 9 10 = true /\
  inputs (graph_of ex_loop_list_corrected) 8 = [10].
Proof. vm_compute. repeat split; reflexivity. Qed.








(** In [ex_loop] the read of [x] by the [tanh] node after the loop is bound
    to the loop output (handle 6), in [ex_if] to the output of the If node
    (handle 5). *)
Example ex_loop_post_read :
  findAliasForValueAtNode (tracker_of ex_loop_registered) (graph_of ex_loop_registered) 2 7
  = Ok 6.
Proof. vm_compute. reflexivity. Qed.

Example ex_if_post_read :
  findAliasForValueAtNode (tracker_of ex_if_registered) (graph_of ex_if_registered) 2 9
  = Ok 5.
Proof. vm_compute. reflexivity. Qed.


(** ** C3: the contraction-merge loop *)

Section find_differentiable_groups.
Variable isDifferentiable : Graph -> node -> bool.
Variable contractEdge : DynamicDAG -> vertex -> vertex -> option DynamicDAG.

Let scan := scan_in_edges isDifferentiable contractEdge.
Let skipped := producer_skipped isDifferentiable.
Let consider := shouldConsiderForMerge isDifferentiable.

Lemma scan_in_edges_spec g d dt pt consumer vc producers att r :
  scan g d dt pt consumer vc producers = Ok (att, r) ->
  (forall p, p ∈ att ->
     p ∈ producers /\ exists vp, get_vertex d p = Some vp /\ skipped g dt pt vc vp = Ok false) /\
  match r with
  | Some d' => exists fails p, att = fails ++ [p] /\
                 (forall q, q ∈ fails -> contractEdge d q consumer = None) /\
                 contractEdge d p consumer = Some d'
  | None => forall q, q ∈ att -> contractEdge d q consumer = None
  end.
Proof.
  unfold scan, skipped.
  revert att r. induction producers as [|p ps IH]; simpl; intros att r H.
  - simplify_eq. split; [set_solver|]. set_solver.
  - apply rbind_Ok in H as (vp & Hvp & H).
    apply rbind_Ok in H as (skip & Hskip & H).
    destruct (get_vertex d p) as [vp'|] eqn:Evp; simpl in Hvp; simplify_eq.
    destruct skip.
    + destruct (IH _ _ H) as [H1 H2]. split; [|done].
      intros q Hq. destruct (H1 q Hq) as [? ?]. split; [set_solver|done].
    + destruct (contractEdge d p consumer) as [d'|] eqn:Ec.
      * simplify_eq. split.
        -- intros q ->%list_elem_of_singleton. split; [set_solver|eauto].
        -- exists [], p. split; [done|]. split; [set_solver|done].
      * apply rbind_Ok in H as ([att' r'] & Hrec & H). simpl in H. simplify_eq.
        destruct (IH _ _ Hrec) as [H1 H2]. split.
        -- intros q [->|Hq]%elem_of_cons; [split; [set_solver|eauto]|].
           destruct (H1 q Hq) as [? ?]. split; [set_solver|done].
        -- destruct r as [d'|].
           ++ destruct H2 as (fails & p' & -> & Hf & Hc).
              exists (p :: fails), p'. split; [done|]. split; [|done].
              intros q [->|Hq]%elem_of_cons; [done|by apply Hf].
           ++ intros q [->|Hq]%elem_of_cons; [done|by apply H2].
Qed.

Lemma size_t_sub_exact (c p : nat) :
  (Z.of_nat c < size_t_max)%Z -> p <= c -> size_t_sub c p = (Z.of_nat c - Z.of_nat p)%Z.
Proof. intros Hc Hp. unfold size_t_sub. apply Z.mod_small. lia. Qed.

Lemma skipped_when g dt pt vc vp :
  (Z.of_nat (ord vc) < size_t_max)%Z ->
  (Z.of_nat (ord vp) + dt < Z.of_nat (ord vc))%Z \/
  (pt < Z.of_nat (length (out_edges vp)))%Z \/
  consider g vp = Ok false ->
  (0 <= dt)%Z ->
  skipped g dt pt vc vp <> Ok false.
Proof.
  intros Hc H Hdt. unfold skipped, consider, producer_skipped in *.
  destruct H as [H|[H|H]].
  - rewrite size_t_sub_exact by lia. rewrite bool_decide_eq_true_2 by lia. done.
  - destruct (bool_decide _); [done|]. rewrite bool_decide_eq_true_2 by lia. done.
  - destruct (bool_decide _); [done|]. destruct (bool_decide _); [done|].
    rewrite H. done.
Qed.

Lemma find_loop_done fuel g dt pt d o :
  (o < 0)%Z -> find_loop isDifferentiable contractEdge fuel g dt pt d o = Ok d.
Proof. intros Ho. destruct fuel; simpl; by rewrite bool_decide_eq_false_2 by lia. Qed.

Lemma find_step_empty_slot g dt pt d o :
  maybe_vertices d !! Z.to_nat o = Some None ->
  find_step isDifferentiable contractEdge g dt pt d o = Ok ([], d, (o - 1)%Z).
Proof. unfold find_step. by intros ->. Qed.

Lemma find_step_considered g dt pt d o m vm :
  maybe_vertices d !! Z.to_nat o = Some (Some m) ->
  get_vertex d m = Some vm ->
  consider g vm = Ok true ->
  find_step isDifferentiable contractEdge g dt pt d o
  = rbind (scan g d dt pt m vm (reverse (dag_sort d (in_edges vm))))
          (fun r => match r.2 with
                    | Some d' => Ok (r.1, d', o)
                    | None => Ok (r.1, d, (o - 1)%Z)
                    end).
Proof.
  unfold find_step, consider, scan. intros -> -> Hc. simpl. rewrite Hc. reflexivity.
Qed.

(** C3. With the default thresholds, a producer whose ordinal is more than
    64 below the consumer's, or that has more than 16 out edges, or that is
    not eligible for merging, is never handed to [contractEdge].  When a
    contraction succeeds the loop keeps the ordinal: its next iteration
    is [find_step] on the contracted graph at the same ordinal, where it
    scans the in edges of the vertex that [contractEdge] has left there,
    if it is eligible, and steps down at once if [contractEdge] has left
    the slot empty.  When no contraction succeeds the loop moves to the
    ordinal below with the graph as it was, and below ordinal 0 it
    returns the graph. *)
Theorem C3_merge_loop_gates_and_revisits
    (g : Graph) (d : DynamicDAG) (o : Z) (consumer : vertex) (vc : Vertex)
    (att : list vertex) (d' : DynamicDAG) (o' : Z)
    (Hconsumer : maybe_vertices d !! Z.to_nat o = Some (Some consumer))
    (Hvc : get_vertex d consumer = Some vc)
    (Hord : (Z.of_nat (ord vc) < size_t_max)%Z)
    (Hstep : find_step isDifferentiable contractEdge g 64 16 d o = Ok (att, d', o')) :
  (forall p vp, get_vertex d p = Some vp ->
     ord vp + 64 < ord vc \/ 16 < length (out_edges vp) \/
     shouldConsiderForMerge isDifferentiable g vp = Ok false ->
     p ∉ att) /\
  (forall p, p ∈ att -> is_Some (contractEdge d p consumer) ->
     contractEdge d p consumer = Some d' /\ o' = o /\
     (forall fuel, (0 <= o)%Z ->
        find_loop isDifferentiable contractEdge (S (S fuel)) g 64 16 d o =
        rbind (find_step isDifferentiable contractEdge g 64 16 d' o)
              (fun r => find_loop isDifferentiable contractEdge fuel g 64 16 r.1.2 r.2)) /\
     (forall m vm,
        maybe_vertices d' !! Z.to_nat o = Some (Some m) ->
        get_vertex d' m = Some vm ->
        shouldConsiderForMerge isDifferentiable g vm = Ok true ->
        find_step isDifferentiable contractEdge g 64 16 d' o
        = rbind (scan_in_edges isDifferentiable contractEdge g d' 64 16 m vm
                   (reverse (dag_sort d' (in_edges vm))))
                (fun r => match r.2 with
                          | Some d'' => Ok (r.1, d'', o)
                          | None => Ok (r.1, d', (o - 1)%Z)
                          end)) /\
     (maybe_vertices d' !! Z.to_nat o = Some None ->
        find_step isDifferentiable contractEdge g 64 16 d' o = Ok ([], d', (o - 1)%Z))) /\
  ((forall p, p ∈ att -> contractEdge d p consumer = None) ->
     d' = d /\ o' = (o - 1)%Z) /\
  (forall fuel d0 o0, (o0 < 0)%Z ->
     find_loop isDifferentiable contractEdge fuel g 64 16 d0 o0 = Ok d0).
Proof.
  unfold find_step in Hstep. rewrite Hconsumer, Hvc in Hstep. simpl in Hstep.
  apply rbind_Ok in Hstep as (c & Hc & Hstep).
  assert (Hstep0 : find_step isDifferentiable contractEdge g 64 16 d o = Ok (att, d', o')).
  { unfold find_step. rewrite Hconsumer, Hvc. simpl. rewrite Hc. done. }
  split; [|split; [|split]]; [| | |intros; by apply find_loop_done].
  all: destruct c; simpl in Hstep; [|simplify_eq; set_solver].
  all: apply rbind_Ok in Hstep as ([att' r] & Hscan & Hstep); simpl in Hstep.
  all: destruct (scan_in_edges_spec _ _ _ _ _ _ _ _ _ Hscan) as [Hatt Hr].
  all: assert (att = att') as <- by (by destruct r; simplify_eq).
  - intros p vp Hvp Hcond Hin.
    destruct (Hatt p Hin) as (_ & vp' & Hvp' & Hsk).
    rewrite Hvp in Hvp'. injection Hvp' as <-.
    eapply (skipped_when g 64 16 vc vp); [done| |lia|done].
    destruct Hcond as [?|[?|?]]; [left; lia|right; left; lia|by right; right].
  - intros p Hin [dp Hdp]. destruct r as [d''|]; simplify_eq.
    + destruct Hr as (fails & p' & -> & Hf & Hc').
      apply elem_of_app in Hin as [Hin|Hin].
      { rewrite (Hf p Hin) in Hdp. done. }
      apply list_elem_of_singleton in Hin as ->.
      split; [done|]. split; [done|]. split; [|split].
      * intros fuel Ho. cbn [find_loop].
        rewrite bool_decide_eq_true_2 by lia. rewrite Hstep0.
        cbn [rbind fst snd]. by rewrite bool_decide_eq_true_2 by lia.
      * intros m vm Hm Hvm Hcm. by apply find_step_considered.
      * by apply find_step_empty_slot.
    + rewrite (Hr p Hin) in Hdp. done.
  - intros Hnone. destruct r as [d''|]; simplify_eq; [|done].
    destruct Hr as (fails & p' & -> & Hf & Hc').
    rewrite Hnone in Hc' by set_solver. done.
Qed.
End find_differentiable_groups.

(** C3 at [ex_chain] with the producer absorbed into the consumer: at
    ordinal 2 (the [tanh] vertex) the producer at ordinal 1 is contracted,
    the merged vertex stays at ordinal 2, and the next iteration scans its in
    edges there; the loop ends with all three nodes in one vertex. *)
Lemma C3_witness :
  find_step ex_isDifferentiable contractEdge_model ex_chain 64 16 ex_chain_dag 2
    = Ok ([1], ex_chain_dag_contracted, 2%Z) /\
  (forall fuel,
     find_loop ex_isDifferentiable contractEdge_model (S (S fuel)) ex_chain 64 16
       ex_chain_dag 2 =
     rbind (find_step ex_isDifferentiable contractEdge_model ex_chain 64 16
              ex_chain_dag_contracted 2)
           (fun r => find_loop ex_isDifferentiable contractEdge_model fuel ex_chain 64 16
                       r.1.2 r.2)) /\
  maybe_vertices ex_chain_dag_contracted !! 2 = Some (Some 2) /\
  get_vertex ex_chain_dag_contracted 2 = Some (mkVertex 2 [4; 3] [0] []) /\
  find_step ex_isDifferentiable contractEdge_model ex_chain 64 16 ex_chain_dag_contracted 2
    = rbind (scan_in_edges ex_isDifferentiable contractEdge_model ex_chain
               ex_chain_dag_contracted 64 16 2 (mkVertex 2 [4; 3] [0] []) [0])
            (fun r => match r.2 with
                      | Some d'' => Ok (r.1, d'', 2%Z)
                      | None => Ok (r.1, ex_chain_dag_contracted, 1%Z)
                      end) /\
  find_differentiable_groups ex_isDifferentiable contractEdge_model ex_chain ex_chain_dag 64 16
    = Ok (mkDAG [None; None; Some (mkVertex 2 [4; 3; 2] [] [])] [None; None; Some 2]).
Proof.
  pose (vc := mkVertex 2 [4] [1] []).
  assert (find_step ex_isDifferentiable contractEdge_model ex_chain 64 16 ex_chain_dag 2
          = Ok ([1], ex_chain_dag_contracted, 2%Z)) as Hstep
    by (vm_compute; reflexivity).
  assert (maybe_vertices ex_chain_dag !! Z.to_nat 2 = Some (Some 2)) as Hconsumer
    by (vm_compute; reflexivity).
  assert (get_vertex ex_chain_dag 2 = Some vc) as Hvc
    by (vm_compute; reflexivity).
  assert (Z.of_nat (ord vc) < size_t_max)%Z as Hord
    by (apply Z.ltb_lt; vm_compute; reflexivity).
  assert (maybe_vertices ex_chain_dag_contracted !! Z.to_nat 2 = Some (Some 2)) as Hslot
    by (vm_compute; reflexivity).
  assert (get_vertex ex_chain_dag_contracted 2 = Some (mkVertex 2 [4; 3] [0] [])) as Hmerged
    by (vm_compute; reflexivity).
  assert (shouldConsiderForMerge ex_isDifferentiable ex_chain (mkVertex 2 [4; 3] [0] [])
          = Ok true) as Hcons by (vm_compute; reflexivity).
  pose proof (C3_merge_loop_gates_and_revisits ex_isDifferentiable contractEdge_model
                ex_chain ex_chain_dag 2 2 vc [1] ex_chain_dag_contracted 2
                Hconsumer Hvc Hord Hstep) as (_ & Hsame & _).
  assert (1 ∈ [1]) as Hin by (apply list_elem_of_here).
  assert (is_Some (contractEdge_model ex_chain_dag 1 2)) as Hsome
    by (vm_compute; eexists; reflexivity).
  destruct (Hsame 1 Hin Hsome) as (_ & _ & Hloop & Hnext & _).
  split; [exact Hstep|]. split; [intros fuel; apply Hloop; lia|].
  split; [exact Hslot|]. split; [exact Hmerged|].
  split; [exact (Hnext 2 _ Hslot Hmerged Hcons)|].
  vm_compute. reflexivity.
Defined.

(** The claim C3 as stated fails when [contractEdge] absorbs the consumer
    into the producer, which the contract of section 4.2 allows.  At
    [ex_chain], at ordinal 2, the producer at ordinal 1 is contracted and the
    loop stays at ordinal 2; the merged vertex, with the nodes of both, is at
    ordinal 1 and the slot at ordinal 2 is empty, so that the next iteration
    steps down to ordinal 1 without having examined the merged vertex. *)
Lemma C3_counterexample :
  let d1 := mkDAG [Some (mkVertex 0 [2] [] [1]); Some (mkVertex 1 [4; 3] [0] []); None]
                  [Some 0; Some 1; None] in
  contractEdge_into_producer ex_chain_dag 1 2 = Some d1 /\
  find_step ex_isDifferentiable contractEdge_into_producer ex_chain 64 16 ex_chain_dag 2
    = Ok ([1], d1, 2%Z) /\
  maybe_vertices d1 !! 2 = Some None /\
  get_vertex d1 1 = Some (mkVertex 1 [4; 3] [0] []) /\
  find_step ex_isDifferentiable contractEdge_into_producer ex_chain 64 16 d1 2
    = Ok ([], d1, 1%Z).
Proof. vm_compute. repeat split; reflexivity. Qed.

(** * A graph without differentiable nodes *)

Lemma owning_vertex_ok fuel g (ntv : gmap node vertex) o :
  owner_chain_ends fuel g o = true ->
  exists r, owning_vertex fuel g ntv o = Ok r.
Proof.
  revert o. induction fuel as [|f IH]; intros [n|] H; simpl in *; eauto; try discriminate.
  destruct (ntv !! n); eauto.
  destruct (owningBlock g n); [|discriminate]. by apply IH.
Qed.

Lemma get_vertex_insert d v w x :
  v < length (dag_vertices d) ->
  mjoin (<[v := Some x]> (dag_vertices d) !! w) =
  if decide (v = w) then Some x else get_vertex d w.
Proof.
  intros Hlt. destruct (decide (v = w)) as [->|Hne].
  - by rewrite list_lookup_insert_eq.
  - by rewrite list_lookup_insert_ne.
Qed.

Lemma get_vertex_Some_lt d v x :
  get_vertex d v = Some x -> v < length (dag_vertices d).
Proof.
  unfold get_vertex. intros H.
  destruct (dag_vertices d !! v) as [o|] eqn:E; [|discriminate].
  by eapply lookup_lt_Some.
Qed.

Lemma addEdge_rdata d a b v :
  rdata <$> get_vertex (addEdge d a b) v = rdata <$> get_vertex d v.
Proof.
  unfold addEdge.
  destruct (get_vertex d a) as [va|] eqn:Ha; [|done].
  destruct (get_vertex d b) as [vb|] eqn:Hb; [|done].
  pose proof (get_vertex_Some_lt _ _ _ Ha) as Hla.
  pose proof (get_vertex_Some_lt _ _ _ Hb) as Hlb.
  unfold get_vertex at 1. cbn [dag_vertices].
  destruct (decide (b = v)) as [->|Hbv].
  - rewrite list_lookup_insert_eq by (by rewrite length_insert). simpl.
    rewrite get_vertex_insert by done.
    case_decide; simpl.
    + subst a. by rewrite Ha.
    + by rewrite Hb.
  - rewrite list_lookup_insert_ne by done.
    rewrite get_vertex_insert by done.
    case_decide; simpl; [|done].
    subst a. by rewrite Ha.
Qed.

Lemma addEdge_maybe d a b : maybe_vertices (addEdge d a b) = maybe_vertices d.
Proof.
  unfold addEdge. by destruct (get_vertex d a), (get_vertex d b).
Qed.

Lemma addEdge_dag_rdata d a b : dag_rdata (addEdge d a b) = dag_rdata d.
Proof.
  unfold dag_rdata. rewrite addEdge_maybe.
  apply list_fmap_ext. intros _ [v|] _; simpl; [|done].
  apply addEdge_rdata.
Qed.

Lemma add_use_edges_ok g (ntv : gmap node vertex) src us d :
  (forall u, u ∈ us -> owner_chain_ends (length (g_blocks g)) g (Some u.1) = true) ->
  exists d', add_use_edges g ntv src us d = Ok d' /\ dag_rdata d' = dag_rdata d.
Proof.
  revert d. induction us as [|u us IH]; intros d Hus; simpl; [eauto|].
  destruct (owning_vertex_ok _ g ntv _ (Hus u ltac:(left))) as [r ->]. simpl.
  destruct (IH (match r with Some dst => addEdge d src dst | None => d end))
    as (d' & -> & Hd'); [intros; apply Hus; by right|].
  eexists; split; [done|]. rewrite Hd'. destruct r; [apply addEdge_dag_rdata|done].
Qed.

Lemma add_node_edges_ok g (ntv : gmap node vertex) ns d :
  (forall n, n ∈ ns -> is_Some (ntv !! n)) ->
  (forall n v u, n ∈ ns -> v ∈ outputs g n -> u ∈ uses g v ->
     owner_chain_ends (length (g_blocks g)) g (Some u.1) = true) ->
  exists d', add_node_edges g ntv ns d = Ok d' /\ dag_rdata d' = dag_rdata d.
Proof.
  revert d. induction ns as [|n ns IH]; intros d Hntv Hus; simpl; [eauto|].
  destruct (Hntv n ltac:(left)) as [src ->]. simpl.
  destruct (add_use_edges_ok g ntv src (concat ((fun v => uses g v) <$> outputs g n)) d)
    as (d1 & -> & Hd1).
  { intros u Hu. apply list_elem_of_In, in_concat in Hu as (l & Hl & Hu).
    apply list_elem_of_In in Hl, Hu.
    apply list_elem_of_fmap in Hl as (v & -> & Hv).
    eapply Hus; [left|done..]. }
  simpl. destruct (IH d1) as (d' & -> & Hd').
  - intros; apply Hntv; by right.
  - intros ? ? ? ?; apply Hus; by right.
  - eexists; split; [done|]. by rewrite Hd'.
Qed.

Lemma new_vertices_spec ns :
  (forall n, n ∈ ns -> is_Some ((new_vertices ns).1 !! n)) /\
  dag_vertices (new_vertices ns).2 = imap (fun i n => Some (mkVertex i [n] [] [])) ns /\
  maybe_vertices (new_vertices ns).2 = Some <$> seq 0 (length ns).
Proof.
  unfold new_vertices. induction ns as [|n ns IH] using rev_ind; [split; [|done]|].
  { intros n Hn. by apply elem_of_nil in Hn. }
  rewrite foldl_app. destruct IH as (Hin & Hv & Hm).
  destruct (foldl _ _ ns) as [m d]. simpl in *.
  split; [|split].
  - intros x [Hx|Hx]%elem_of_app.
    + destruct (decide (n = x)) as [->|Hne].
      * rewrite lookup_insert_eq. eauto.
      * rewrite lookup_insert_ne by done. by apply Hin.
    + apply list_elem_of_singleton in Hx as ->. rewrite lookup_insert_eq. eauto.
  - rewrite Hv, Hm. rewrite imap_app. simpl.
    by rewrite length_fmap, length_seq, Nat.add_0_r.
  - rewrite Hm, Hv, length_imap, length_app. simpl.
    rewrite Nat.add_1_r, seq_S, fmap_app. done.
Qed.

Lemma new_vertices_dag_rdata ns :
  dag_rdata (new_vertices ns).2 = (fun n => Some [n]) <$> ns.
Proof.
  destruct (new_vertices_spec ns) as (_ & Hv & Hm).
  unfold dag_rdata. rewrite Hm. apply list_eq. intros i.
  rewrite !list_lookup_fmap.
  destruct (ns !! i) as [n|] eqn:Hi; simpl.
  - rewrite lookup_seq_lt by (by eapply lookup_lt_Some). simpl.
    unfold get_vertex. rewrite Hv, list_lookup_imap, Hi. done.
  - apply lookup_ge_None in Hi. rewrite lookup_seq_ge by done. done.
Qed.

Lemma make_dependency_graph_ok g b :
  nodes_wf g b = true ->
  exists d, make_dependency_graph g b = Ok d /\
            dag_rdata d = (fun n => Some [n]) <$> block_nodes g b.
Proof.
  unfold nodes_wf, make_dependency_graph, block_nodes. intros Hwf.
  destruct (get_block g b) as [br|] eqn:Hb; [simpl in *|discriminate].
  repeat (apply andb_prop in Hwf as [Hwf ?]).
  match goal with H : forallb _ _ = true |- _ => rename H into Hall end.
  rewrite forallb_forall in Hall.
  destruct (new_vertices_spec (b_nodes br)) as (Hin & _).
  destruct (add_node_edges_ok g (new_vertices (b_nodes br)).1 (b_nodes br)
              (new_vertices (b_nodes br)).2) as (d & Hd & Hr); [done| |].
  - intros n v u Hn Hv Hu. apply list_elem_of_In, Hall in Hn.
    apply andb_prop in Hn as [_ Hn]. rewrite forallb_forall in Hn.
    apply list_elem_of_In, Hn in Hv. rewrite forallb_forall in Hv.
    by apply list_elem_of_In, Hv in Hu.
  - exists d. split; [done|]. by rewrite Hr, new_vertices_dag_rdata.
Qed.

Lemma dag_rdata_lookup d ns i n :
  dag_rdata d = (fun n => Some [n]) <$> ns ->
  ns !! i = Some n ->
  exists v vc, maybe_vertices d !! i = Some (Some v) /\ get_vertex d v = Some vc /\
               rdata vc = [n].
Proof.
  intros Hd Hi. apply (f_equal (fun l => l !! i)) in Hd.
  unfold dag_rdata in Hd. rewrite !list_lookup_fmap, Hi in Hd. simpl in Hd.
  destruct (maybe_vertices d !! i) as [[v|]|]; simpl in Hd; try discriminate.
  destruct (get_vertex d v) as [vc|] eqn:Hv; simpl in Hd; [|discriminate].
  exists v, vc. by simplify_eq/=.
Qed.

Lemma live_vertices_rdata d ns :
  dag_rdata d = (fun n => Some [n]) <$> ns ->
  rdata <$> live_vertices d = (fun n => [n]) <$> ns.
Proof.
  unfold dag_rdata, live_vertices. generalize (maybe_vertices d). intros l.
  revert ns. induction l as [|o l IH]; intros [|n ns] H; simpl in *; try discriminate; [done|].
  injection H as Ho Hl. destruct (o ≫= get_vertex d) as [vc|]; simpl in *; [|discriminate].
  f_equal; [congruence|]. by apply IH.
Qed.

Lemma for_each_rdata (f : node -> M unit) vs ns g :
  rdata <$> vs = (fun n => [n]) <$> ns ->
  for_each vs (fun v => for_each (reverse (rdata v)) f) g = for_each ns f g.
Proof.
  revert ns g. induction vs as [|v vs IH]; intros [|n ns] g H; simpl in *;
    try discriminate; [done|].
  injection H as Hv Hvs. rewrite Hv. simpl.
  unfold bind, ret. destruct (f n g) as [[[] g']| |]; [|done..].
  by apply IH.
Qed.

Lemma remove_elem_notin n l : n ∉ l -> remove_elem n l = l.
Proof.
  unfold remove_elem. induction l as [|x l IH]; intros Hn; [done|].
  apply not_elem_of_cons in Hn as [Hne Hn].
  rewrite filter_cons_True by done. by rewrite IH.
Qed.

Lemma remove_elem_head n l : n ∉ l -> remove_elem n (n :: l) = l.
Proof.
  intros Hn. unfold remove_elem. rewrite filter_cons_False by (intros H; by apply H).
  by apply remove_elem_notin.
Qed.

Lemma with_block_nodes_id g b br :
  get_block g b = Some br -> with_block_nodes g b br (b_nodes br) = g.
Proof.
  unfold with_block_nodes, with_blocks, get_block. intros H.
  destruct g, br; simpl in *. f_equal. by apply list_insert_id.
Qed.

Lemma bind_run {A B} (m : M A) (k : A -> M B) g a g' :
  m g = Ok (a, g') -> bind m k g = k a g'.
Proof. unfold bind. by intros ->. Qed.

Lemma lift_opt_run {A} msg (f : Graph -> option A) g a :
  f g = Some a -> lift_opt msg f g = Ok (a, g).
Proof. unfold lift_opt. by intros ->. Qed.

Lemma upd_block_run b f g br :
  get_block g b = Some br ->
  upd_block b f g = Ok (tt, with_blocks g (<[b := f br]> (g_blocks g))).
Proof. unfold upd_block. by intros ->. Qed.

Lemma upd_node_run n f g r :
  get_node g n = Some r ->
  upd_node n f g = Ok (tt, with_nodes g (<[n := Some (f r)]> (g_nodes g))).
Proof. unfold upd_node. by intros ->. Qed.

Ltac gnorm :=
  unfold with_block_nodes, with_blocks, with_nodes;
  cbn [g_nodes g_blocks g_values g_block g_cerr
       set_b_nodes b_nodes b_owning_node b_param b_return].

Lemma moveBefore_to_end g b br n r l :
  get_block g b = Some br ->
  owningBlock g (b_return br) = Some b ->
  get_node g n = Some r -> n_owning_block r = Some b ->
  n <> b_return br ->
  moveBefore n (b_return br) (with_block_nodes g b br l)
  = Ok (tt, with_block_nodes g b br (remove_elem n l ++ [n])).
Proof.
  intros Hb Hrn Hn Hown Hne.
  assert (b < length (g_blocks g)) as Hlt by (by eapply lookup_lt_Some).
  assert (n < length (g_nodes g)) as Hnlt by (by eapply get_node_Some_lt).
  unfold moveBefore, removeFromList, insertBefore.
  erewrite bind_run; cycle 1.
  { erewrite bind_run; cycle 1.
    { apply lift_opt_run. cbv beta.
      change (owningBlock (with_block_nodes g b br l) n) with (owningBlock g n).
      unfold owningBlock. rewrite Hn. exact Hown. }
    erewrite bind_run; cycle 1.
    { apply upd_block_run. unfold get_block. gnorm.
      by apply list_lookup_insert_eq. }
    apply upd_node_run. exact Hn. }
  gnorm. rewrite list_insert_insert_eq.
  erewrite bind_run; cycle 1.
  { apply lift_opt_run. unfold get_node. gnorm.
    by rewrite list_lookup_insert_eq. }
  cbn [set_owning_block n_owning_block].
  rewrite bool_decide_eq_true_2 by done. unfold assert.
  erewrite bind_run; [|reflexivity].
  erewrite bind_run; cycle 1.
  { apply lift_opt_run. unfold owningBlock, get_node. gnorm.
    rewrite list_lookup_insert_ne by done. exact Hrn. }
  erewrite bind_run; cycle 1.
  { apply lift_opt_run. unfold get_block. gnorm.
    by apply list_lookup_insert_eq. }
  gnorm.
  rewrite decide_True by done.
  erewrite bind_run; cycle 1.
  { apply upd_block_run. unfold get_block. gnorm.
    by apply list_lookup_insert_eq. }
  gnorm. rewrite list_insert_insert_eq.
  erewrite upd_node_run; cycle 1.
  { unfold get_node. gnorm. by rewrite list_lookup_insert_eq. }
  gnorm.
  cbn [set_owning_block n_kind n_inputs n_outputs n_blocks n_ival n_name].
  rewrite list_insert_insert_eq.
  f_equal. f_equal. f_equal.
  apply list_insert_id. unfold get_node in Hn.
  destruct (g_nodes g !! n) as [o|] eqn:E; [|discriminate]. simpl in Hn. subst o.
  destruct r; simpl in *. by subst.
Qed.

Lemma reorder_nodes_noop g b br :
  get_block g b = Some br ->
  owningBlock g (b_return br) = Some b ->
  NoDup (b_nodes br) ->
  b_return br ∉ b_nodes br ->
  (forall n, n ∈ b_nodes br -> owningBlock g n = Some b) ->
  for_each (b_nodes br) (fun n => moveBefore n (b_return br)) g = Ok (tt, g).
Proof.
  intros Hb Hrn Hnd Hret Hown.
  assert (forall suf pre, NoDup (suf ++ pre) -> (forall n, n ∈ suf -> n ∈ b_nodes br) ->
            for_each suf (fun n => moveBefore n (b_return br))
              (with_block_nodes g b br (suf ++ pre))
            = Ok (tt, with_block_nodes g b br (pre ++ suf))) as Hgen.
  { induction suf as [|n suf IH]; intros pre Hnd' Hsub; simpl.
    - by rewrite app_nil_r.
    - apply NoDup_cons in Hnd' as [Hn Hnd'].
      assert (n ∈ b_nodes br) as Hin by (apply Hsub; left).
      pose proof (Hown n Hin) as Ho. unfold owningBlock in Ho.
      destruct (get_node g n) as [r|] eqn:Hr; [simpl in Ho|discriminate].
      erewrite bind_run; cycle 1.
      { eapply (moveBefore_to_end g b br n r); try done.
        intros ->. done. }
      rewrite remove_elem_head by done. rewrite <- app_assoc.
      rewrite IH.
      + by rewrite <- app_assoc.
      + rewrite app_assoc. apply NoDup_app. split; [done|]. split.
        * intros x Hx ->%list_elem_of_singleton. by apply Hn.
        * apply NoDup_singleton.
      + intros; apply Hsub; by right. }
  specialize (Hgen (b_nodes br) [] ltac:(by rewrite app_nil_r) ltac:(done)).
  rewrite app_nil_r in Hgen. simpl in Hgen.
  by rewrite with_block_nodes_id in Hgen.
Qed.

Lemma nodes_wf_inv g b :
  nodes_wf g b = true ->
  exists br, get_block g b = Some br /\ NoDup (b_nodes br) /\
    (b_return br ∉ b_nodes br) /\ owningBlock g (b_return br) = Some b /\
    forall n, n ∈ b_nodes br -> owningBlock g n = Some b.
Proof.
  unfold nodes_wf. destruct (get_block g b) as [br|]; [|discriminate].
  intros H. repeat (apply andb_prop in H as [H ?]).
  repeat match goal with
         | H : bool_decide _ = true |- _ => apply bool_decide_eq_true in H
         end.
  exists br. repeat split; try done.
  intros n Hn. match goal with H : forallb _ _ = true |- _ => rename H into Hall end.
  rewrite forallb_forall in Hall. apply list_elem_of_In, Hall in Hn.
  apply andb_prop in Hn as [Hn _]. by apply bool_decide_eq_true in Hn.
Qed.

Lemma owningBlock_is_Some g n b : owningBlock g n = Some b -> is_Some (get_node g n).
Proof. unfold owningBlock. destruct (get_node g n); [eauto|discriminate]. Qed.

Lemma foldM_noop {A B} (xs : list A) (body : B -> A -> M B) acc g :
  (forall x, x ∈ xs -> body acc x g = Ok (acc, g)) ->
  foldM xs body acc g = Ok (acc, g).
Proof.
  induction xs as [|x xs IH]; intros H; simpl; [done|].
  erewrite bind_run by (apply H; left). apply IH. intros; apply H; by right.
Qed.

Section no_differentiable_nodes.

Variable isDifferentiable : Graph -> node -> bool.
Variable isDifferentiableGraph : Graph -> bool.
Variable contractEdge : DynamicDAG -> vertex -> vertex -> option DynamicDAG.
Variable g : Graph.
Hypothesis Hnone : forall n, is_Some (get_node g n) -> isDifferentiable g n = false.

Lemma singleton_not_considered (vc : Vertex) n :
  rdata vc = [n] -> is_Some (get_node g n) ->
  shouldConsiderForMerge isDifferentiable g vc = Ok false.
Proof.
  intros Hr Hn. unfold shouldConsiderForMerge. rewrite Hr. simpl.
  case_bool_decide; [done|]. by rewrite Hnone.
Qed.

Lemma find_step_noop d ns (i : Z) :
  dag_rdata d = (fun n => Some [n]) <$> ns ->
  (forall n, n ∈ ns -> is_Some (get_node g n)) ->
  (0 <= i < Z.of_nat (length ns))%Z ->
  find_step isDifferentiable contractEdge g 64 16 d i = Ok ([], d, (i - 1)%Z).
Proof.
  intros Hd Hlive Hi.
  destruct (lookup_lt_is_Some_2 ns (Z.to_nat i) ltac:(lia)) as [n Hn].
  destruct (dag_rdata_lookup _ _ _ _ Hd Hn) as (v & vc & Hm & Hv & Hr).
  unfold find_step. rewrite Hm, Hv. simpl.
  rewrite (singleton_not_considered vc n Hr); [done|].
  apply Hlive. by eapply list_elem_of_lookup_2.
Qed.

Lemma find_loop_noop d ns fuel (o : Z) :
  dag_rdata d = (fun n => Some [n]) <$> ns ->
  (forall n, n ∈ ns -> is_Some (get_node g n)) ->
  (o < Z.of_nat (length ns))%Z -> (o < Z.of_nat fuel)%Z ->
  find_loop isDifferentiable contractEdge fuel g 64 16 d o = Ok d.
Proof.
  intros Hd Hlive. revert o. induction fuel as [|f IH]; intros o Ho Hf.
  - simpl. rewrite bool_decide_eq_false_2 by lia. done.
  - simpl. case_bool_decide; [|done].
    rewrite (find_step_noop d ns o) by (done || lia). simpl.
    apply IH; lia.
Qed.

Lemma find_differentiable_groups_noop d ns :
  dag_rdata d = (fun n => Some [n]) <$> ns ->
  (forall n, n ∈ ns -> is_Some (get_node g n)) ->
  find_differentiable_groups isDifferentiable contractEdge g d 64 16 = Ok d.
Proof.
  intros Hd Hlive. unfold find_differentiable_groups.
  assert (length (maybe_vertices d) = length ns) as Hlen.
  { apply (f_equal length) in Hd. unfold dag_rdata in Hd.
    by rewrite !length_fmap in Hd. }
  apply (find_loop_noop d ns); [done|done|lia|lia].
Qed.

Lemma merge_differentiable_groups_noop b vs th acc :
  (forall v, v ∈ vs -> shouldConsiderForMerge isDifferentiable g v = Ok false) ->
  merge_differentiable_groups isDifferentiable isDifferentiableGraph b vs th acc g
  = Ok (acc, g).
Proof.
  induction vs as [|v vs IH]; intros Hvs; simpl; [done|].
  unfold bind at 1. unfold get. unfold bind at 1. unfold lift_res.
  rewrite (Hvs v) by left. simpl. apply IH. intros; apply Hvs; by right.
Qed.

Lemma live_vertices_not_considered d ns v :
  dag_rdata d = (fun n => Some [n]) <$> ns ->
  (forall n, n ∈ ns -> is_Some (get_node g n)) ->
  v ∈ live_vertices d ->
  shouldConsiderForMerge isDifferentiable g v = Ok false.
Proof.
  intros Hd Hlive Hv. apply live_vertices_rdata in Hd.
  apply list_elem_of_lookup_1 in Hv as [i Hi].
  apply (f_equal (fun l => l !! i)) in Hd. rewrite !list_lookup_fmap, Hi in Hd.
  simpl in Hd. destruct (ns !! i) as [n|] eqn:Hn; [|discriminate].
  simpl in Hd. eapply singleton_not_considered; [by injection Hd|].
  apply Hlive. by eapply list_elem_of_lookup_2.
Qed.

Lemma CreateAutodiffSubgraphsPK_noop fuel th :
  forall b acc, tree_wf fuel g b = true ->
  CreateAutodiffSubgraphsPK isDifferentiable isDifferentiableGraph contractEdge
    fuel th acc b g = Ok (acc, g).
Proof.
  induction fuel as [|f IH]; intros b acc Hwf; simpl in Hwf;
    apply andb_prop in Hwf as [Hwf Hsub];
    destruct (nodes_wf_inv _ _ Hwf) as (br & Hb & Hnd & Hret & Hrn & Hown);
    destruct (make_dependency_graph_ok _ _ Hwf) as (d & Hd & Hr);
    assert (forall n, n ∈ block_nodes g b -> is_Some (get_node g n)) as Hlive
      by (intros n Hn; apply owningBlock_is_Some with b, Hown;
          unfold block_nodes in Hn; by rewrite Hb in Hn).
  all: cbn [CreateAutodiffSubgraphsPK].
  all: erewrite bind_run by reflexivity.
  all: erewrite bind_run; cycle 1.
  1: { apply bool_decide_eq_true in Hsub. by rewrite Hsub. }
  2: { apply foldM_noop. intros n Hn. erewrite bind_run by reflexivity.
       rewrite Hnone by (by apply Hlive).
       apply foldM_noop. intros sb Hsb. apply IH.
       rewrite forallb_forall in Hsub. apply list_elem_of_In, Hsub in Hn.
       rewrite forallb_forall in Hn. by apply Hn, list_elem_of_In. }
  all: erewrite bind_run; cycle 1.
  1, 3: unfold lift_res; rewrite Hd; reflexivity.
  all: erewrite bind_run; cycle 1.
  1, 3: unfold lift_res;
        rewrite (find_differentiable_groups_noop d (block_nodes g b)) by done;
        reflexivity.
  all: erewrite bind_run; cycle 1.
  1, 3: unfold reorder_according_to_dag;
        (erewrite bind_run by (apply lift_opt_run; unfold return_node; by rewrite Hb));
        rewrite (for_each_rdata _ _ (block_nodes g b)) by (by apply live_vertices_rdata);
        unfold block_nodes; rewrite Hb; simpl;
        by apply (reorder_nodes_noop g b br).
  all: apply merge_differentiable_groups_noop; intros v Hv;
       by eapply live_vertices_not_considered.
Qed.

End no_differentiable_nodes.

(** C8.  On a well-formed graph none of whose nodes is differentiable,
    [CreateAutodiffSubgraphs] raises no error, returns the empty list of
    group nodes and leaves the graph as it was. *)
Theorem C8_no_differentiable_nodes_is_noop
    (isDifferentiable : Graph -> node -> bool) (isDifferentiableGraph : Graph -> bool)
    (contractEdge : DynamicDAG -> vertex -> vertex -> option DynamicDAG)
    (threshold : nat) (g : Graph) :
  graph_wf g = true ->
  (forall n, is_Some (get_node g n) -> isDifferentiable g n = false) ->
  CreateAutodiffSubgraphs isDifferentiable isDifferentiableGraph contractEdge threshold g
  = Ok ([], g).
Proof.
  intros Hwf Hnone. unfold CreateAutodiffSubgraphs.
  erewrite bind_run by reflexivity.
  by apply CreateAutodiffSubgraphsPK_noop.
Qed.

(** C8 at [ex_loop], a graph with a loop body, when no operator is
    differentiable. *)
Lemma C8_witness :
  CreateAutodiffSubgraphs (fun _ _ => false) (fun _ => true) contractEdge_model 2 ex_loop
  = Ok ([], ex_loop).
Proof.
  apply C8_no_differentiable_nodes_is_noop.
  - vm_compute. reflexivity.
  - intros n _. reflexivity.
Defined.

(** * Forward execution of the IR primitives *)

Lemma get_node_lookup g n r : get_node g n = Some r <-> g_nodes g !! n = Some (Some r).
Proof.
  unfold get_node. destruct (g_nodes g !! n) as [[?|]|]; simpl; split; congruence.
Qed.

Lemma assert_run msg (b : bool) g : b = true -> assert msg b g = Ok (tt, g).
Proof. by intros ->. Qed.

Lemma addInput_run n v g r :
  get_node g n = Some r ->
  addInput n v g
  = Ok (tt, with_nodes g (<[n := Some (set_inputs r (n_inputs r ++ [v]))]> (g_nodes g))).
Proof. apply upd_node_run. Qed.

Lemma addOutput_run n g r :
  get_node g n = Some r ->
  addOutput n g
  = Ok (length (g_values g),
        mkGraph (<[n := Some (set_outputs r (n_outputs r ++ [length (g_values g)]))]> (g_nodes g))
                (g_blocks g) (g_values g ++ [mkValue n TensorType]) (g_block g) (g_cerr g)).
Proof. unfold addOutput. by intros ->. Qed.

Lemma setType_run v t g vr :
  g_values g !! v = Some vr ->
  setType v t g = Ok (tt, with_values g (<[v := mkValue (v_node vr) t]> (g_values g))).
Proof. unfold setType. by intros ->. Qed.

Lemma insert_at_end {A} (l : list A) (x y : A) :
  <[length l := y]> (l ++ [x]) = l ++ [y].
Proof. rewrite insert_app_r_alt by lia. by rewrite Nat.sub_diag. Qed.

Lemma lookup_at_end {A} (l : list A) (x : A) : (l ++ [x]) !! length l = Some x.
Proof. rewrite lookup_app_r by lia. by rewrite Nat.sub_diag. Qed.

Lemma create_run_0 k g :
  create k 0 g
  = Ok (length (g_nodes g),
        with_nodes g (g_nodes g ++ [Some (mkNode k [] [] [] None None None)])).
Proof. reflexivity. Qed.

Lemma create_run_1 k g :
  create k 1 g
  = Ok (length (g_nodes g),
        mkGraph (g_nodes g ++ [Some (mkNode k [] [length (g_values g)] [] None None None)])
                (g_blocks g) (g_values g ++ [mkValue (length (g_nodes g)) TensorType])
                (g_block g) (g_cerr g)).
Proof.
  unfold create. erewrite bind_run by reflexivity.
  erewrite bind_run by reflexivity.
  erewrite bind_run; cycle 1.
  { simpl. erewrite bind_run; [reflexivity|].
    apply addOutput_run. unfold get_node. simpl. by rewrite lookup_at_end. }
  simpl. unfold ret. by rewrite insert_at_end.
Qed.

Lemma output_run n g v : outputs g n = [v] -> output n g = Ok (v, g).
Proof. unfold output. by intros ->. Qed.

Lemma input_run n i g v : inputs g n !! i = Some v -> input n i g = Ok (v, g).
Proof. intros H. by apply lift_opt_run. Qed.

Lemma node_kind_run n g r : get_node g n = Some r -> node_kind n g = Ok (n_kind r, g).
Proof. intros H. apply lift_opt_run. unfold kind. by rewrite H. Qed.

Lemma value_node_run v g vr : g_values g !! v = Some vr -> value_node v g = Ok (v_node vr, g).
Proof. intros H. apply lift_opt_run. unfold node_of. by rewrite H. Qed.

Lemma copyMetadata_run v from g vr fr :
  g_values g !! from = Some fr -> g_values g !! v = Some vr ->
  copyMetadata v from g
  = Ok (tt, with_values g (<[v := mkValue (v_node vr) (v_type fr)]> (g_values g))).
Proof.
  intros Hf Hv. unfold copyMetadata.
  erewrite bind_run by (apply lift_opt_run; unfold type_of; by rewrite Hf).
  by apply setType_run.
Qed.

Lemma for_each_addInput_run n ins g r :
  get_node g n = Some r ->
  for_each ins (addInput n) g
  = Ok (tt, with_nodes g (<[n := Some (set_inputs r (n_inputs r ++ ins))]> (g_nodes g))).
Proof.
  revert g r. induction ins as [|v ins IH]; intros g r Hn; simpl.
  - unfold ret. do 2 f_equal. destruct g, r; unfold with_nodes, set_inputs; simpl.
    rewrite app_nil_r. f_equal. symmetry. apply list_insert_id.
    apply get_node_lookup in Hn. exact Hn.
  - erewrite bind_run by (by apply addInput_run).
    pose proof (get_node_Some_lt _ _ _ Hn) as Hlt.
    erewrite IH; cycle 1.
    { unfold get_node, with_nodes. simpl. by rewrite list_lookup_insert_eq. }
    unfold with_nodes, set_inputs. simpl.
    by rewrite list_insert_insert_eq, <- app_assoc.
Qed.

(** [insertBefore] with an anchor inside the node list / at the return node *)
Lemma insertBefore_run n anchor g r b br i :
  get_node g n = Some r -> n_owning_block r = None ->
  owningBlock g anchor = Some b -> get_block g b = Some br ->
  anchor <> b_return br -> index_of anchor (b_nodes br) = Some i ->
  insertBefore n anchor g
  = Ok (tt, mkGraph (<[n := Some (set_owning_block r (Some b))]> (g_nodes g))
                    (<[b := set_b_nodes br (insert_at i n (b_nodes br))]> (g_blocks g))
                    (g_values g) (g_block g) (g_cerr g)).
Proof.
  intros Hn Ho Ha Hb Hne Hi. unfold insertBefore.
  erewrite bind_run by (by apply lift_opt_run).
  erewrite bind_run by (apply assert_run; by rewrite Ho, bool_decide_eq_true_2).
  erewrite bind_run by (by apply lift_opt_run).
  erewrite bind_run by (by apply lift_opt_run).
  rewrite decide_False by done. rewrite Hi.
  erewrite bind_run by (by apply upd_block_run).
  erewrite upd_node_run by exact Hn. reflexivity.
Qed.

Lemma insertBefore_return_run n anchor g r b br :
  get_node g n = Some r -> n_owning_block r = None ->
  owningBlock g anchor = Some b -> get_block g b = Some br ->
  anchor = b_return br ->
  insertBefore n anchor g
  = Ok (tt, mkGraph (<[n := Some (set_owning_block r (Some b))]> (g_nodes g))
                    (<[b := set_b_nodes br (b_nodes br ++ [n])]> (g_blocks g))
                    (g_values g) (g_block g) (g_cerr g)).
Proof.
  intros Hn Ho Ha Hb He. unfold insertBefore.
  erewrite bind_run by (by apply lift_opt_run).
  erewrite bind_run by (apply assert_run; by rewrite Ho, bool_decide_eq_true_2).
  erewrite bind_run by (by apply lift_opt_run).
  erewrite bind_run by (by apply lift_opt_run).
  rewrite decide_True by done.
  erewrite bind_run by (by apply upd_block_run).
  erewrite upd_node_run by exact Hn. reflexivity.
Qed.

Lemma insertAfter_run n anchor g r b br i :
  get_node g n = Some r -> n_owning_block r = None ->
  owningBlock g anchor = Some b -> get_block g b = Some br ->
  anchor <> b_param br -> index_of anchor (b_nodes br) = Some i ->
  insertAfter n anchor g
  = Ok (tt, mkGraph (<[n := Some (set_owning_block r (Some b))]> (g_nodes g))
                    (<[b := set_b_nodes br (insert_at (S i) n (b_nodes br))]> (g_blocks g))
                    (g_values g) (g_block g) (g_cerr g)).
Proof.
  intros Hn Ho Ha Hb Hne Hi. unfold insertAfter.
  erewrite bind_run by (by apply lift_opt_run).
  erewrite bind_run by (apply assert_run; by rewrite Ho, bool_decide_eq_true_2).
  erewrite bind_run by (by apply lift_opt_run).
  erewrite bind_run by (by apply lift_opt_run).
  rewrite decide_False by done. rewrite Hi.
  erewrite bind_run by (by apply upd_block_run).
  erewrite upd_node_run by exact Hn. reflexivity.
Qed.

Lemma insertAfter_param_run n anchor g r b br :
  get_node g n = Some r -> n_owning_block r = None ->
  owningBlock g anchor = Some b -> get_block g b = Some br ->
  anchor = b_param br ->
  insertAfter n anchor g
  = Ok (tt, mkGraph (<[n := Some (set_owning_block r (Some b))]> (g_nodes g))
                    (<[b := set_b_nodes br (n :: b_nodes br)]> (g_blocks g))
                    (g_values g) (g_block g) (g_cerr g)).
Proof.
  intros Hn Ho Ha Hb He. unfold insertAfter.
  erewrite bind_run by (by apply lift_opt_run).
  erewrite bind_run by (apply assert_run; by rewrite Ho, bool_decide_eq_true_2).
  erewrite bind_run by (by apply lift_opt_run).
  erewrite bind_run by (by apply lift_opt_run).
  rewrite decide_True by done.
  erewrite bind_run by (by apply upd_block_run).
  erewrite upd_node_run by exact Hn. reflexivity.
Qed.

(** The use list *)
Lemma elem_of_uses_in v n ins u :
  u ∈ uses_in v n ins <-> u.1 = n /\ ins !! u.2 = Some v.
Proof.
  unfold uses_in. rewrite list_elem_of_omap. split.
  - intros ([i x] & Hin & Hf). apply elem_of_lookup_imap in Hin as (j & y & Heq & Hj).
    injection Heq as -> ->. destruct (decide (y = v)) as [->|]; [|discriminate].
    injection Hf as <-. done.
  - intros [<- Hu]. exists (u.2, v). split.
    + apply elem_of_lookup_imap. eauto.
    + rewrite decide_True by done. by destruct u.
Qed.

Lemma elem_of_uses g v u :
  u ∈ uses g v <-> exists r, get_node g u.1 = Some r /\ n_inputs r !! u.2 = Some v.
Proof.
  unfold uses. rewrite list_elem_of_In, in_concat. split.
  - intros (l & Hl & Hu). apply list_elem_of_In in Hl, Hu.
    apply elem_of_lookup_imap in Hl as (m & o & -> & Hm).
    destruct o as [r|]; [|by apply elem_of_nil in Hu].
    apply elem_of_uses_in in Hu as [<- Hu]. exists r. split; [|done].
    by apply get_node_lookup.
  - intros (r & Hr & Hu). exists (uses_in v u.1 (n_inputs r)). split.
    + apply list_elem_of_In, elem_of_lookup_imap. exists u.1, (Some r). split; [done|].
      by apply get_node_lookup.
    + apply list_elem_of_In, elem_of_uses_in. done.
Qed.

Lemma uses_nil g v :
  (forall m r, get_node g m = Some r -> v ∉ n_inputs r) -> uses g v = [].
Proof.
  intros H. apply elem_of_nil_inv. intros u Hu.
  apply elem_of_uses in Hu as (r & Hr & Hu). apply (H _ _ Hr).
  eapply list_elem_of_lookup_2. exact Hu.
Qed.

Lemma get_node_subst ns bs vs rb ce old new m :
  get_node (mkGraph (fmap (M := list) (fmap (M := option)
              (fun r => set_inputs r (subst_value old new <$> n_inputs r))) ns) bs vs rb ce) m
  = (fun r => set_inputs r (subst_value old new <$> n_inputs r))
      <$> get_node (mkGraph ns bs vs rb ce) m.
Proof.
  unfold get_node, node in *. cbn [g_nodes]. rewrite list_lookup_fmap.
  destruct (ns !! m) as [[?|]|]; reflexivity.
Qed.

Lemma uses_subst_nil ns bs vs rb ce old new :
  old <> new ->
  uses (mkGraph (fmap (M := list) (fmap (M := option)
          (fun r => set_inputs r (subst_value old new <$> n_inputs r))) ns) bs vs rb ce) old = [].
Proof.
  intros Hne. apply uses_nil. intros m r Hr.
  rewrite get_node_subst in Hr.
  destruct (get_node _ m) as [r0|]; [|discriminate]. injection Hr as <-. simpl.
  intros (x & Hx & _)%list_elem_of_fmap. unfold subst_value in Hx.
  by destruct (decide (x = old)).
Qed.

Lemma removeFromList_run n g r b br :
  get_node g n = Some r -> n_owning_block r = Some b -> get_block g b = Some br ->
  removeFromList n g
  = Ok (tt, mkGraph (<[n := Some (set_owning_block r None)]> (g_nodes g))
                    (<[b := set_b_nodes br (remove_elem n (b_nodes br))]> (g_blocks g))
                    (g_values g) (g_block g) (g_cerr g)).
Proof.
  intros Hn Ho Hb. unfold removeFromList.
  erewrite bind_run by (apply lift_opt_run; unfold owningBlock; by rewrite Hn).
  erewrite bind_run by (by apply upd_block_run).
  erewrite upd_node_run by exact Hn. reflexivity.
Qed.

Lemma destroy_run n g r b br :
  get_node g n = Some r ->
  (forall v, v ∈ n_outputs r -> uses g v = []) ->
  n_blocks r = [] -> n_owning_block r = Some b -> get_block g b = Some br ->
  destroy n g
  = Ok (tt, mkGraph (<[n := None]> (g_nodes g))
                    (<[b := set_b_nodes br (remove_elem n (b_nodes br))]> (g_blocks g))
                    (g_values g) (g_block g) (g_cerr g)).
Proof.
  intros Hn Hu Hbl Ho Hb. unfold destroy.
  erewrite bind_run by (by apply lift_opt_run).
  erewrite bind_run by reflexivity.
  erewrite bind_run; cycle 1.
  { apply assert_run. apply forallb_forall. intros v Hv.
    apply bool_decide_eq_true, Hu. by apply list_elem_of_In. }
  erewrite bind_run by (apply assert_run; by rewrite Hbl).
  rewrite Ho. erewrite bind_run by (by eapply removeFromList_run).
  erewrite bind_run by reflexivity.
  unfold put, with_nodes. simpl. by rewrite list_insert_insert_eq.
Qed.

Lemma destroy_free_run n g r :
  get_node g n = Some r ->
  (forall v, v ∈ n_outputs r -> uses g v = []) ->
  n_blocks r = [] -> n_owning_block r = None ->
  destroy n g = Ok (tt, with_nodes g (<[n := None]> (g_nodes g))).
Proof.
  intros Hn Hu Hbl Ho. unfold destroy.
  erewrite bind_run by (by apply lift_opt_run).
  erewrite bind_run by reflexivity.
  erewrite bind_run; cycle 1.
  { apply assert_run. apply forallb_forall. intros v Hv.
    apply bool_decide_eq_true, Hu. by apply list_elem_of_In. }
  erewrite bind_run by (apply assert_run; by rewrite Hbl).
  rewrite Ho. erewrite bind_run by reflexivity.
  erewrite bind_run by reflexivity. reflexivity.
Qed.

Lemma input_node_run n i g r v :
  get_node g n = Some r -> n_inputs r !! i = Some v -> input n i g = Ok (v, g).
Proof. intros Hn Hi. apply input_run. by rewrite (inputs_get_node _ _ _ Hn). Qed.

Lemma output_node_run n g r v :
  get_node g n = Some r -> n_outputs r = [v] -> output n g = Ok (v, g).
Proof. intros Hn Ho. apply output_run. by rewrite (outputs_get_node _ _ _ Hn). Qed.

Lemma replaceAllUsesWith_run old new g :
  replaceAllUsesWith old new g
  = Ok (tt, with_nodes g (fmap (M := list) (fmap (M := option) (rewired old new)) (g_nodes g))).
Proof. reflexivity. Qed.

Lemma node_replaceAllUsesWith_run n m g r rm old new :
  get_node g n = Some r -> get_node g m = Some rm ->
  n_outputs r = [old] -> n_outputs rm = [new] ->
  node_replaceAllUsesWith n m g
  = Ok (tt, with_nodes g (fmap (M := list) (fmap (M := option) (rewired old new)) (g_nodes g))).
Proof.
  intros Hn Hm Ho Hom. unfold node_replaceAllUsesWith.
  erewrite bind_run by reflexivity.
  rewrite (outputs_get_node _ _ _ Hn), (outputs_get_node _ _ _ Hm), Ho, Hom.
  erewrite bind_run by (by apply assert_run).
  simpl. erewrite bind_run by apply replaceAllUsesWith_run. reflexivity.
Qed.

Lemma uses_rewired_nil ns bs vs rb ce old new :
  old <> new ->
  uses (mkGraph (fmap (M := list) (fmap (M := option) (rewired old new)) ns) bs vs rb ce) old
  = [].
Proof. apply uses_subst_nil. Qed.

Lemma rewired_id old new r : old ∉ n_inputs r -> rewired old new r = r.
Proof.
  intros H. destruct r as [k ins outs bl ob iv nm]. unfold rewired, set_inputs. simpl in *.
  f_equal. induction ins as [|x ins IH]; [done|]. apply not_elem_of_cons in H as [Hx H].
  simpl. unfold subst_value at 1. rewrite decide_False by done. f_equal. by apply IH.
Qed.

Lemma lookup_end_eq {A} (l : list A) (x : A) i : i = length l -> (l ++ [x]) !! i = Some x.
Proof. intros ->. apply lookup_at_end. Qed.

Lemma insert_end_eq {A} (l : list A) (x y : A) i :
  i = length l -> <[i := y]> (l ++ [x]) = l ++ [y].
Proof. intros ->. apply insert_at_end. Qed.

Lemma index_of_elem x l : x ∈ l -> exists j, index_of x l = Some j.
Proof.
  induction l as [|y l IH]; intros H; [by apply elem_of_nil in H|].
  simpl. destruct (decide (x = y)); [eauto|].
  apply elem_of_cons in H as [?|H]; [done|]. destruct (IH H) as [j ->]. simpl. eauto.
Qed.

Lemma index_of_Some_elem x l i : index_of x l = Some i -> x ∈ l.
Proof.
  revert i. induction l as [|y l IH]; intros i H; simpl in H; [discriminate|].
  destruct (decide (x = y)) as [->|]; [left|].
  destruct (index_of x l); [|discriminate]. right. by eapply IH.
Qed.

Lemma elem_of_insert_at x y i l : x ∈ insert_at i y l <-> x = y \/ x ∈ l.
Proof.
  revert i. induction l as [|z l IH]; intros [|i]; simpl;
    rewrite ?elem_of_cons, ?IH, ?elem_of_nil; tauto.
Qed.

Lemma elem_of_remove_elem x n l : x ∈ remove_elem n l <-> x ∈ l /\ x <> n.
Proof. unfold remove_elem. rewrite list_elem_of_filter. tauto. Qed.

(** Composite node constructors *)
Lemma create_with_inputs_run k ins g :
  create_with_inputs k ins g
  = Ok (length (g_nodes g),
        mkGraph (g_nodes g ++ [Some (mkNode k ins [length (g_values g)] [] None None None)])
                (g_blocks g) (g_values g ++ [mkValue (length (g_nodes g)) TensorType])
                (g_block g) (g_cerr g)).
Proof.
  unfold create_with_inputs.
  erewrite bind_run by apply create_run_1.
  erewrite bind_run; cycle 1.
  { apply for_each_addInput_run. unfold get_node. cbn [g_nodes].
    by rewrite lookup_at_end. }
  unfold ret, with_nodes. cbn. by rewrite insert_at_end.
Qed.

Lemma get_node_app_end ns bs vs rb ce x :
  get_node (mkGraph (ns ++ [Some x]) bs vs rb ce) (length ns) = Some x.
Proof. unfold get_node. cbn [g_nodes]. by rewrite lookup_at_end. Qed.

Lemma get_node_app_l ns bs vs rb ce x m :
  m < length ns ->
  get_node (mkGraph (ns ++ [x]) bs vs rb ce) m = get_node (mkGraph ns bs vs rb ce) m.
Proof. intros H. unfold get_node. cbn [g_nodes]. by rewrite lookup_app_l. Qed.

Lemma owningBlock_lt g m b : owningBlock g m = Some b -> m < length (g_nodes g).
Proof.
  unfold owningBlock. destruct (get_node g m) eqn:E; [|discriminate].
  intros _. by eapply get_node_Some_lt.
Qed.

Lemma graph_insert_run ip k args g b br i :
  owningBlock g ip = Some b -> get_block g b = Some br ->
  ip <> b_return br -> index_of ip (b_nodes br) = Some i ->
  graph_insert ip k args g
  = Ok (length (g_values g),
        mkGraph (g_nodes g ++ [Some (mkNode k args [length (g_values g)] [] (Some b) None None)])
                (<[b := set_b_nodes br (insert_at i (length (g_nodes g)) (b_nodes br))]>
                   (g_blocks g))
                (g_values g ++ [mkValue (length (g_nodes g)) TensorType])
                (g_block g) (g_cerr g)).
Proof.
  intros Ho Hb Hne Hi. pose proof (owningBlock_lt _ _ _ Ho) as Hlt.
  destruct g as [ns bs vs rb ce]. cbn [g_nodes g_blocks g_values g_block g_cerr] in *.
  unfold graph_insert.
  erewrite bind_run by apply create_with_inputs_run.
  cbn [g_nodes g_blocks g_values g_block g_cerr].
  erewrite bind_run; cycle 1.
  { eapply insertBefore_run with (b := b) (br := br) (i := i); try done.
    - apply get_node_app_end.
    - reflexivity.
    - unfold owningBlock. rewrite get_node_app_l by done. exact Ho. }
  cbn [g_nodes g_blocks g_values g_block g_cerr].
  erewrite output_node_run; cycle 1.
  { unfold get_node, node in *. cbn [g_nodes]. by rewrite insert_at_end, lookup_at_end. }
  { reflexivity. }
  unfold node in *. by rewrite insert_at_end.
Qed.

Lemma insertConstant_run ip c t g b br i :
  owningBlock g ip = Some b -> get_block g b = Some br ->
  ip <> b_return br -> index_of ip (b_nodes br) = Some i ->
  insertConstant ip c t g
  = Ok (length (g_values g),
        mkGraph (g_nodes g ++ [Some (mkNode prim_Constant [] [length (g_values g)] []
                                            (Some b) (Some c) None)])
                (<[b := set_b_nodes br (insert_at i (length (g_nodes g)) (b_nodes br))]>
                   (g_blocks g))
                (g_values g ++ [mkValue (length (g_nodes g)) t])
                (g_block g) (g_cerr g)).
Proof.
  intros Ho Hb Hne Hi. pose proof (owningBlock_lt _ _ _ Ho) as Hlt.
  destruct g as [ns bs vs rb ce]. cbn [g_nodes g_blocks g_values g_block g_cerr] in *.
  unfold insertConstant. unfold node, value in *.
  erewrite bind_run by apply create_run_1.
  cbn [g_nodes g_blocks g_values g_block g_cerr].
  erewrite bind_run by (apply upd_node_run, get_node_app_end).
  unfold with_nodes. cbn [g_nodes g_blocks g_values g_block g_cerr]. rewrite insert_at_end.
  erewrite bind_run by (eapply output_node_run; [apply get_node_app_end|reflexivity]).
  erewrite bind_run by (apply setType_run; cbn [g_values]; apply lookup_at_end).
  unfold with_values. cbn [g_nodes g_blocks g_values g_block g_cerr]. rewrite insert_at_end.
  erewrite bind_run; cycle 1.
  { eapply insertBefore_run with (b := b) (br := br) (i := i); try done.
    - apply get_node_app_end.
    - reflexivity.
    - unfold owningBlock. rewrite get_node_app_l by done. exact Ho. }
  cbn [g_nodes g_blocks g_values g_block g_cerr]. unfold node in *.
  rewrite insert_at_end. reflexivity.
Qed.

Lemma index_of_lt x l i : index_of x l = Some i -> i < length l.
Proof.
  revert i. induction l as [|y l IH]; intros i H; simpl in *; [discriminate|].
  destruct (decide (x = y)); [injection H as <-; lia|].
  destruct (index_of x l) as [k|]; [|discriminate]. injection H as <-.
  specialize (IH k eq_refl). lia.
Qed.

Lemma length_insert_at i x l : i <= length l -> length (insert_at i x l) = S (length l).
Proof.
  revert i. induction l as [|y l IH]; intros [|i] H; simpl in *; try lia.
  rewrite IH by lia. done.
Qed.

Lemma index_of_insert_at_shift c x l i :
  index_of c l = Some i -> x <> c -> index_of c (insert_at i x l) = Some (S i).
Proof.
  revert i. induction l as [|y l IH]; intros i H Hne; simpl in H; [discriminate|].
  destruct (decide (c = y)) as [->|Hcy].
  - injection H as <-. simpl. rewrite decide_False by done.
    by rewrite decide_True.
  - destruct (index_of c l) as [k|] eqn:Hk; [|discriminate]. injection H as <-.
    simpl. rewrite decide_False by done. by rewrite (IH k eq_refl Hne).
Qed.

Lemma index_of_insert_at_fresh x l k :
  x ∉ l -> k <= length l -> index_of x (insert_at k x l) = Some k.
Proof.
  revert k. induction l as [|y l IH]; intros [|k] Hx Hk; simpl in *; try lia.
  - by rewrite decide_True.
  - by rewrite decide_True.
  - apply not_elem_of_cons in Hx as [Hxy Hx].
    rewrite decide_False by done. rewrite IH by (done || lia). done.
Qed.

Lemma index_of_remove_insert n x l i :
  index_of n l = Some i -> x ∉ l -> x <> n ->
  index_of x (remove_elem n (insert_at i x l)) = Some i.
Proof.
  unfold remove_elem.
  revert i. induction l as [|y l IH]; intros i H Hx Hne; simpl in H; [discriminate|].
  apply not_elem_of_cons in Hx as [Hxy Hx].
  destruct (decide (n = y)) as [->|Hny].
  - injection H as <-. simpl. rewrite filter_cons_True by done.
    simpl. by rewrite decide_True.
  - destruct (index_of n l) as [k|] eqn:Hk; [|discriminate]. injection H as <-.
    simpl. rewrite filter_cons_True by (intros ->; done).
    simpl. rewrite decide_False by done. by rewrite (IH k eq_refl Hx Hne).
Qed.

(** Normalisation of graph terms and of look-ups in them *)
Ltac gsimp :=
  unfold with_nodes, with_blocks, with_values, with_cerr;
  cbn [g_nodes g_blocks g_values g_block g_cerr with_nodes with_blocks with_values with_cerr
       set_b_nodes b_nodes b_owning_node b_param b_return
       set_inputs set_outputs set_blocks set_owning_block set_ival set_name
       n_kind n_inputs n_outputs n_blocks n_owning_block n_ival n_name
       v_node v_type fst snd app].

Ltac norm_len :=
  repeat (rewrite length_insert || rewrite length_fmap || rewrite length_app);
  cbn [length]; rewrite ?Nat.add_1_r.

Ltac lens := norm_len; simpl; lia.

Ltac lk :=
  unfold owningBlock, kind, inputs, outputs, node_of, type_of;
  unfold get_node, get_block; unfold node, value, block in *;
  gsimp;
  repeat first
    [ rewrite list_lookup_fmap
    | rewrite list_lookup_insert_eq by lens
    | rewrite list_lookup_insert_ne by lens
    | rewrite lookup_end_eq by lens
    | rewrite lookup_app_l by lens ].

(** * The conversion of an in-place operator node *)

Section PrepareInplaceOps.

Variable EncapsulatePatternIntoSubblock : node -> M (option node).

Lemma prepare_pure_prefix g n r b br i old_out vo in0 vr0 rp :
  inplace_op g n r b br i old_out vo in0 vr0 rp ->
  PrepareInplaceOpsInBlocksForONNX EncapsulatePatternIntoSubblock n g
  = PrepareInplaceOpsInBlocksForONNX_tail EncapsulatePatternIntoSubblock
      (length (g_nodes g)) (v_node vr0)
      (with_pure_node g n r b br i old_out (v_type vo)).
Proof.
  intros [Hn Haten Hlast Hin0 Hvalid Houts Hbl Hown Hb Hidx _ _ _ Hret Hvo Hfresh Hv0 Hrp Hpn].
  pose proof (get_node_Some_lt _ _ _ Hn) as Hnlt.
  pose proof (lookup_lt_Some _ _ _ Hvo) as Holt.
  pose proof Hn as Hn'. apply get_node_lookup in Hn'.
  unfold get_block in Hb.
  pose proof (lookup_lt_Some _ _ _ Hb) as Hblt.
  unfold PrepareInplaceOpsInBlocksForONNX.
  erewrite bind_run by (by apply node_kind_run).
  rewrite Haten. cbn [negb].
  erewrite bind_run by (by apply lift_opt_run).
  rewrite bool_decide_eq_true_2 by done. cbn [negb].
  erewrite bind_run by (by eapply input_node_run).
  erewrite bind_run by (by apply value_node_run).
  erewrite bind_run by apply create_run_1.
  erewrite bind_run by reflexivity.
  erewrite bind_run; cycle 1.
  { apply for_each_addInput_run. lk. reflexivity. }
  gsimp. rewrite insert_at_end.
  replace (inputs _ n) with (n_inputs r) by (lk; by rewrite Hn').
  erewrite bind_run by (eapply output_node_run; [lk; reflexivity|reflexivity]).
  erewrite bind_run by (eapply output_node_run; [lk; by rewrite Hn'|done]).
  erewrite bind_run; cycle 1.
  { eapply copyMetadata_run; lk; [exact Hvo|reflexivity]. }
  gsimp. rewrite insert_at_end.
  erewrite bind_run; cycle 1.
  { eapply insertBefore_run with (b := b) (br := br) (i := i); lk;
      try reflexivity; try done. by rewrite Hn'. }
  gsimp. rewrite insert_at_end.
  erewrite bind_run; cycle 1.
  { eapply node_replaceAllUsesWith_run; lk; try done; try reflexivity;
      try (by rewrite Hn'). }
  gsimp.
  erewrite bind_run; cycle 1.
  { eapply destroy_run with (b := b); lk.
    - rewrite Hn'. reflexivity.
    - intros v Hv. unfold rewired in Hv. cbn [set_inputs n_outputs] in Hv.
      rewrite Houts in Hv.
      apply list_elem_of_singleton in Hv as ->. apply uses_rewired_nil. lia.
    - done.
    - done.
    - reflexivity. }
  gsimp. rewrite list_insert_insert_eq.
  f_equal. unfold with_pure_node, pure_node. f_equal.
  rewrite fmap_app. rewrite insert_app_l by lens. f_equal.
  simpl. do 2 f_equal. apply rewired_id. exact Hfresh.
Qed.

Lemma with_pure_node_conversion g n r b br i old_out vo in0 vr0 rp :
  inplace_op g n r b br i old_out vo in0 vr0 rp ->
  pure_conversion g (with_pure_node g n r b br i old_out (v_type vo)) n r b old_out.
Proof.
  intros [Hn Haten Hlast Hin0 Hvalid Houts Hbl Hown Hb Hidx _ _ _ Hret Hvo Hfresh Hv0 Hrp Hpn].
  pose proof (get_node_Some_lt _ _ _ Hn) as Hnlt.
  pose proof (lookup_lt_Some _ _ _ Hvo) as Holt.
  unfold get_block in Hb.
  pose proof (lookup_lt_Some _ _ _ Hb) as Hblt.
  unfold pure_conversion, with_pure_node, pure_node. repeat split.
  - lk. reflexivity.
  - lk. reflexivity.
  - lk. reflexivity.
  - lk. reflexivity.
  - lk. by rewrite Hvo.
  - unfold block_nodes. lk. simpl.
    apply elem_of_remove_elem. split; [|lia]. apply elem_of_insert_at. by left.
  - intros m rm Hm Hrm. pose proof (get_node_Some_lt _ _ _ Hrm) as Hmlt.
    apply get_node_lookup in Hrm. lk. by rewrite Hrm.
Qed.

Lemma prepare_direct g n r b br i old_out vo in0 vr0 rp :
  inplace_op g n r b br i old_out vo in0 vr0 rp ->
  n_kind rp <> aten_select -> n_kind rp <> aten_slice ->
  PrepareInplaceOpsInBlocksForONNX EncapsulatePatternIntoSubblock n g
  = Ok (Some (in0, length (g_values g)),
        with_pure_node g n r b br i old_out (v_type vo)).
Proof.
  intros Hio Hsel Hsli. rewrite (prepare_pure_prefix _ _ _ _ _ _ _ _ _ _ _ Hio).
  pose proof (with_pure_node_conversion _ _ _ _ _ _ _ _ _ _ _ Hio)
    as (_ & Hk & Hi & Ho & _ & _ & Hother).
  destruct Hio as [Hn Haten Hlast Hin0 Hvalid Houts Hbl Hown Hb Hidx _ _ _ Hret Hvo Hfresh Hv0 Hrp Hpn].
  unfold PrepareInplaceOpsInBlocksForONNX_tail.
  erewrite bind_run by (apply node_kind_run; by apply Hother).
  unfold rewired. cbn [set_inputs n_kind].
  rewrite !bool_decide_eq_false_2 by done. cbn [orb].
  erewrite bind_run by (apply input_run; by rewrite Hi).
  erewrite bind_run by (by apply output_run).
  reflexivity.
Qed.

Lemma PrepareCopyForONNX_lowering g c rc b br i dst src nb co vsrc vco :
  copy_op g c rc b br i dst src nb co vsrc vco ->
  PrepareCopyForONNX EncapsulatePatternIntoSubblock c g
  = PrepareIndexPutForONNX EncapsulatePatternIntoSubblock (S (S (length (g_nodes g))))
      (with_index_put g c b br i dst src nb co (v_type vsrc) (v_type vco)).
Proof.
  intros [Hc Hk Hins Houts Hbl Hown Hb Hidx Hret Hsrc Hco Hfresh].
  pose proof (get_node_Some_lt _ _ _ Hc) as Hclt.
  pose proof (lookup_lt_Some _ _ _ Hsrc) as Hslt.
  pose proof (lookup_lt_Some _ _ _ Hco) as Holt.
  pose proof Hc as Hc'. apply get_node_lookup in Hc'.
  unfold get_block in Hb.
  pose proof (lookup_lt_Some _ _ _ Hb) as Hblt.
  unfold PrepareCopyForONNX.
  erewrite bind_run by (by apply node_kind_run).
  erewrite bind_run by (apply assert_run; by rewrite Hk).
  erewrite bind_run by apply create_with_inputs_run.
  erewrite bind_run; cycle 1.
  { eapply insertBefore_run with (b := b) (br := br) (i := i); lk;
      try reflexivity; try done. by rewrite Hc'. }
  gsimp. rewrite insert_at_end.
  erewrite bind_run by (eapply output_node_run; [lk; reflexivity|reflexivity]).
  erewrite bind_run by (eapply setType_run; lk; reflexivity).
  gsimp. rewrite insert_at_end.
  erewrite bind_run by (eapply input_node_run; [lk; by rewrite Hc'|by rewrite Hins]).
  erewrite bind_run by (eapply input_node_run; [lk; by rewrite Hc'|by rewrite Hins]).
  erewrite bind_run; cycle 1.
  { eapply graph_insert_run with (b := b); lk; try reflexivity.
    - by rewrite Hc'.
    - done.
    - by apply index_of_insert_at_shift; [|lia]. }
  gsimp. norm_len. rewrite list_insert_insert_eq.
  erewrite bind_run; cycle 1.
  { eapply copyMetadata_run; lk; [exact Hsrc|reflexivity]. }
  gsimp. rewrite insert_end_eq by lens.
  erewrite bind_run by (eapply input_node_run; [lk; by rewrite Hc'|by rewrite Hins]).
  erewrite bind_run; cycle 1.
  { eapply graph_insert_run with (b := b); lk; try reflexivity.
    - by rewrite Hc'.
    - done.
    - by apply index_of_insert_at_shift; [apply index_of_insert_at_shift; [|lia]|lia]. }
  gsimp. norm_len. rewrite list_insert_insert_eq.
  erewrite bind_run by (eapply output_node_run; [lk; by rewrite Hc'|done]).
  erewrite bind_run; cycle 1.
  { eapply copyMetadata_run; lk; [exact Hco|reflexivity]. }
  gsimp. rewrite insert_end_eq by lens.
  erewrite bind_run by apply replaceAllUsesWith_run.
  gsimp.
  erewrite bind_run; cycle 1.
  { eapply destroy_run with (b := b); lk.
    - rewrite Hc'. reflexivity.
    - intros v Hv. unfold rewired in Hv. cbn [set_inputs n_outputs] in Hv.
      rewrite Houts in Hv.
      apply list_elem_of_singleton in Hv as ->. apply uses_rewired_nil. lia.
    - done.
    - done.
    - reflexivity. }
  gsimp. rewrite list_insert_insert_eq.
  erewrite bind_run by (eapply value_node_run; lk; reflexivity).
  reflexivity.
Qed.

Lemma tail_view_copy g p rpure b br j in0 po vpo pn rp :
  view_write g p rpure b br j in0 po vpo pn rp ->
  PrepareInplaceOpsInBlocksForONNX_tail EncapsulatePatternIntoSubblock p pn g
  = PrepareCopyForONNX EncapsulatePatternIntoSubblock (S (length (g_nodes g)))
      (with_copy g b br j in0 po).
Proof.
  intros [Hp Hin0 Hout Hown Hb Hidx Hlive Hpar Hret Hnp Hnr Hiv Hov Hpn Hview].
  pose proof (get_node_Some_lt _ _ _ Hp) as Hplt.
  pose proof Hp as Hp'. apply get_node_lookup in Hp'.
  unfold get_block in Hb.
  pose proof (lookup_lt_Some _ _ _ Hb) as Hblt.
  unfold PrepareInplaceOpsInBlocksForONNX_tail.
  erewrite bind_run by (by apply node_kind_run).
  replace (bool_decide (n_kind rp = aten_select) || bool_decide (n_kind rp = aten_slice))
    with true; cycle 1.
  { symmetry. apply orb_true_iff. destruct Hview; [left|right]; by apply bool_decide_eq_true. }
  erewrite bind_run; cycle 1.
  { eapply insertConstant_run with (b := b) (br := br) (i := j); try done.
    unfold owningBlock. by rewrite Hp. }
  erewrite bind_run by apply create_run_1.
  gsimp. norm_len.
  erewrite bind_run by (eapply input_node_run; [lk; by rewrite Hp'|done]).
  erewrite bind_run by (apply addInput_run; lk; reflexivity).
  gsimp. rewrite insert_end_eq by lens.
  erewrite bind_run by (eapply output_node_run; [lk; by rewrite Hp'|done]).
  erewrite bind_run by (apply addInput_run; lk; reflexivity).
  gsimp. rewrite insert_end_eq by lens.
  erewrite bind_run by (apply addInput_run; lk; reflexivity).
  gsimp. rewrite insert_end_eq by lens.
  erewrite bind_run; cycle 1.
  { eapply insertAfter_run with (b := b); lk; try reflexivity.
    - by rewrite Hp'.
    - done.
    - by apply index_of_insert_at_shift; [|lia]. }
  gsimp. rewrite insert_end_eq by lens. rewrite list_insert_insert_eq.
  reflexivity.
Qed.

End PrepareInplaceOps.

Lemma with_copy_copy_op g p rpure b br j in0 po vpo pn rp :
  view_write g p rpure b br j in0 po vpo pn rp ->
  copy_op (with_copy g b br j in0 po) (S (length (g_nodes g)))
    (mkNode aten_copy_ [in0; po; length (g_values g)] [S (length (g_values g))] []
            (Some b) None None)
    b (set_b_nodes br (insert_at (S (S j)) (S (length (g_nodes g)))
                         (insert_at j (length (g_nodes g)) (b_nodes br))))
    (S (S j)) in0 po (length (g_values g)) (S (length (g_values g)))
    vpo (mkValue (S (length (g_nodes g))) TensorType).
Proof.
  intros [Hp Hin0 Hout Hown Hb Hidx Hlive Hpar Hret Hnp Hnr Hiv Hov Hpn Hview].
  pose proof (lookup_lt_Some _ _ _ Hov) as Holt.
  unfold get_block in Hb. pose proof (lookup_lt_Some _ _ _ Hb) as Hblt.
  pose proof (index_of_lt _ _ _ Hidx) as Hjlt.
  unfold with_copy. split; try reflexivity.
  - lk. reflexivity.
  - lk. reflexivity.
  - cbn [set_b_nodes b_nodes]. apply index_of_insert_at_fresh.
    + intros [?|Hin]%elem_of_insert_at; [lia|]. apply Hlive in Hin. lia.
    + rewrite length_insert_at by lia. lia.
  - cbn [set_b_nodes b_return]. lia.
  - lk. exact Hov.
  - lk. reflexivity.
  - cbn [n_inputs]. rewrite !not_elem_of_cons. repeat split; try lia.
    apply not_elem_of_nil.
Qed.

Lemma with_pure_node_view_write g n r b br i old_out vo in0 vr0 rp :
  inplace_op g n r b br i old_out vo in0 vr0 rp ->
  n_kind rp = aten_select \/ n_kind rp = aten_slice ->
  view_write (with_pure_node g n r b br i old_out (v_type vo)) (length (g_nodes g))
    (pure_node g r b) b
    (set_b_nodes br (remove_elem n (insert_at i (length (g_nodes g)) (b_nodes br))))
    i in0 (length (g_values g)) (mkValue (length (g_nodes g)) (v_type vo))
    (v_node vr0) (rewired old_out (length (g_values g)) rp).
Proof.
  intros Hio Hview.
  pose proof (with_pure_node_conversion _ _ _ _ _ _ _ _ _ _ _ Hio)
    as (_ & _ & _ & _ & _ & _ & Hother).
  destruct Hio as [Hn Haten Hlast Hin0 Hvalid Houts Hbl Hown Hb Hidx Hlive Hpar Hret Hnr Hvo
                   Hfresh Hv0 Hrp Hpn].
  pose proof (get_node_Some_lt _ _ _ Hn) as Hnlt.
  pose proof (lookup_lt_Some _ _ _ Hv0) as Hilt.
  unfold get_block in Hb. pose proof (lookup_lt_Some _ _ _ Hb) as Hblt.
  destruct Hpar as [rpar Hpar]. apply get_node_Some_lt in Hpar.
  destruct Hret as [rret Hret]. apply get_node_Some_lt in Hret.
  assert (forall m, m ∈ b_nodes br -> m < length (g_nodes g)) as Hlt.
  { intros m Hm. destruct (Hlive m Hm) as [rm Hrm]. by eapply get_node_Some_lt. }
  split.
  - unfold with_pure_node. lk. reflexivity.
  - exact Hin0.
  - reflexivity.
  - reflexivity.
  - unfold with_pure_node. lk. reflexivity.
  - cbn [set_b_nodes b_nodes]. apply index_of_remove_insert; [done| |lia].
    intros Hin. apply Hlt in Hin. lia.
  - cbn [set_b_nodes b_nodes]. unfold with_pure_node. cbn [g_nodes]. norm_len.
    intros m [[?|Hm]%elem_of_insert_at _]%elem_of_remove_elem; [lia|].
    apply Hlt in Hm. lia.
  - unfold with_pure_node. cbn [g_nodes set_b_nodes b_param]. norm_len. lia.
  - unfold with_pure_node. cbn [g_nodes set_b_nodes b_return]. norm_len. lia.
  - cbn [set_b_nodes b_param]. lia.
  - cbn [set_b_nodes b_return]. lia.
  - unfold with_pure_node. cbn [g_values]. norm_len. lia.
  - unfold with_pure_node. lk. reflexivity.
  - by apply Hother.
  - exact Hview.
Qed.

Lemma with_copy_synthesized g b br j in0 po :
  copy_synthesized (with_copy g b br j in0 po) (S (length (g_nodes g))) in0 po
    (length (g_values g)).
Proof.
  unfold copy_synthesized, with_copy, toIValue. repeat split.
  - lk. reflexivity.
  - lk. reflexivity.
  - lk. simpl. lk. simpl. reflexivity.
Qed.

Lemma with_copy_other g b br j in0 po m :
  m < length (g_nodes g) -> get_node (with_copy g b br j in0 po) m = get_node g m.
Proof. intros Hm. unfold with_copy. lk. reflexivity. Qed.

Lemma subst_value_ne old new x : x <> old -> subst_value old new x = x.
Proof. intros H. unfold subst_value. by rewrite decide_False. Qed.

Lemma with_index_put_lowered g c b br i dst src nb co tsrc tco :
  c < length (g_nodes g) -> co < length (g_values g) ->
  dst <> co -> src <> co -> nb <> co ->
  index_put_lowered (with_index_put g c b br i dst src nb co tsrc tco) c
    (S (S (length (g_nodes g)))) dst src nb.
Proof.
  intros Hc Hco Hd Hs Hn. unfold index_put_lowered, with_index_put. split; [|split].
  - lk. reflexivity.
  - lk. reflexivity.
  - exists (length (g_values g)), (S (length (g_values g))),
           (length (g_nodes g)), (S (length (g_nodes g))).
    repeat split; lk; simpl; rewrite ?subst_value_ne by lia; reflexivity.
Qed.

Lemma with_index_put_other g c b br i dst src nb co tsrc tco m rm :
  m <> c -> get_node g m = Some rm ->
  get_node (with_index_put g c b br i dst src nb co tsrc tco) m
  = Some (rewired co (S (S (length (g_values g)))) rm).
Proof.
  intros Hm Hrm. pose proof (get_node_Some_lt _ _ _ Hrm) as Hlt.
  apply get_node_lookup in Hrm. unfold with_index_put. lk. by rewrite Hrm.
Qed.

Lemma with_index_put_gone g c b br i dst src nb co tsrc tco m :
  m < length (g_nodes g) -> get_node g m = None ->
  get_node (with_index_put g c b br i dst src nb co tsrc tco) m = None.
Proof.
  intros Hlt Hm. unfold with_index_put.
  destruct (decide (m = c)) as [->|Hne].
  - lk. reflexivity.
  - unfold get_node in Hm. lk.
    destruct (g_nodes g !! m) as [[?|]|]; simpl in *; congruence.
Qed.

(** X1.  [PrepareInplaceOpsInBlocksForONNX] on an in-place aten operator
    whose written tensor does not come from a select or slice node: the call
    succeeds and returns the first input paired with the output of a fresh
    node, named by stripping the marker, that carries the inputs of the
    in-place node in order; every use of the old output reads the fresh
    output and the in-place node is destroyed. *)
Theorem inplace_op_direct_aliasing
    (EncapsulatePatternIntoSubblock : node -> M (option node))
    (g : Graph) (n : node) (r : NodeR) (b : block) (br : BlockR) (i : nat)
    (old_out : value) (vo : ValueR) (in0 : value) (vr0 : ValueR) (rp : NodeR)
    (Hop : inplace_op g n r b br i old_out vo in0 vr0 rp)
    (Hsel : n_kind rp <> aten_select) (Hsli : n_kind rp <> aten_slice) :
  exists g1,
    PrepareInplaceOpsInBlocksForONNX EncapsulatePatternIntoSubblock n g
      = Ok (Some (in0, length (g_values g)), g1) /\
    pure_conversion g g1 n r b old_out.
Proof.
  eexists. split.
  - exact (prepare_direct EncapsulatePatternIntoSubblock _ _ _ _ _ _ _ _ _ _ _
             Hop Hsel Hsli).
  - exact (with_pure_node_conversion _ _ _ _ _ _ _ _ _ _ _ Hop).
Qed.

(** X2.  [PrepareInplaceOpsInBlocksForONNX] on an in-place aten operator
    whose written tensor (input 0) comes from a select or slice node: besides
    the pure node, an [aten::copy_] of the pure output into input 0 with a
    constant [false] flag is synthesized, and it is lowered to an
    [aten::index_put_] with an empty list of indices and the expanded pure
    output, which is handed to [PrepareIndexPutForONNX]; the copy node is
    destroyed again, the in-place node stays destroyed and the pure node
    keeps its name and inputs. *)
Theorem inplace_op_view_write
    (EncapsulatePatternIntoSubblock : node -> M (option node))
    (g : Graph) (n : node) (r : NodeR) (b : block) (br : BlockR) (i : nat)
    (old_out : value) (vo : ValueR) (in0 : value) (vr0 : ValueR) (rp : NodeR)
    (Hop : inplace_op g n r b br i old_out vo in0 vr0 rp)
    (Hview : n_kind rp = aten_select \/ n_kind rp = aten_slice) :
  exists gc g2 new_copy ipn false_val,
    PrepareInplaceOpsInBlocksForONNX EncapsulatePatternIntoSubblock n g
      = PrepareCopyForONNX EncapsulatePatternIntoSubblock new_copy gc /\
    copy_synthesized gc new_copy in0 (length (g_values g)) false_val /\
    PrepareInplaceOpsInBlocksForONNX EncapsulatePatternIntoSubblock n g
      = PrepareIndexPutForONNX EncapsulatePatternIntoSubblock ipn g2 /\
    index_put_lowered g2 new_copy ipn in0 (length (g_values g)) false_val /\
    get_node g2 n = None /\
    kind g2 (length (g_nodes g)) = Some (strip_last (n_kind r)) /\
    inputs g2 (length (g_nodes g)) = n_inputs r.
Proof.
  pose proof (with_pure_node_conversion _ _ _ _ _ _ _ _ _ _ _ Hop) as Hpure.
  pose proof (with_pure_node_view_write _ _ _ _ _ _ _ _ _ _ _ Hop Hview) as Hvw.
  pose proof (with_copy_copy_op _ _ _ _ _ _ _ _ _ _ _ Hvw) as Hco.
  pose proof (prepare_pure_prefix EncapsulatePatternIntoSubblock
                _ _ _ _ _ _ _ _ _ _ _ Hop) as E1.
  pose proof (tail_view_copy EncapsulatePatternIntoSubblock
                _ _ _ _ _ _ _ _ _ _ _ Hvw) as E2.
  pose proof (PrepareCopyForONNX_lowering EncapsulatePatternIntoSubblock
                _ _ _ _ _ _ _ _ _ _ _ _ Hco) as E3.
  pose proof (vw_node _ _ _ _ _ _ _ _ _ _ _ Hvw) as Hpnode.
  destruct Hop as [Hn Haten Hlast Hin0 Hvalid Houts Hbl Hown Hb Hidx Hlive Hpar Hret Hnr
                   Hvo Hfresh Hv0 Hrp Hpn].
  pose proof (get_node_Some_lt _ _ _ Hn) as Hnlt.
  pose proof (lookup_lt_Some _ _ _ Hv0) as Hilt.
  set (g1 := with_pure_node g n r b br i old_out (v_type vo)) in *.
  assert (length (g_nodes g1) = S (length (g_nodes g))) as Hl1
    by (unfold g1, with_pure_node; cbn [g_nodes]; by norm_len).
  assert (length (g_values g1) = S (length (g_values g))) as Hv1
    by (unfold g1, with_pure_node; cbn [g_values]; by norm_len).
  set (gc := with_copy g1 _ _ _ _ _) in *.
  assert (length (g_nodes gc) = S (S (length (g_nodes g1)))) as Hlc
    by (unfold gc, with_copy; cbn [g_nodes]; by norm_len).
  assert (length (g_values gc) = S (S (length (g_values g1)))) as Hvc
    by (unfold gc, with_copy; cbn [g_values]; by norm_len).
  assert (get_node gc (length (g_nodes g)) = Some (pure_node g r b)) as Hpc
    by (unfold gc; rewrite with_copy_other by lia; exact Hpnode).
  destruct Hpure as (Hgone & _ & _ & _ & _ & _ & _).
  assert (get_node gc n = None) as Hgc
    by (unfold gc; rewrite with_copy_other by lia; exact Hgone).
  set (g2 := with_index_put gc _ _ _ _ _ _ _ _ _ _) in *.
  exists gc, g2, (S (length (g_nodes g1))), (S (S (length (g_nodes gc)))),
         (length (g_values g1)).
  split; [by rewrite E1|]. split; [apply with_copy_synthesized|].
  split; [by rewrite E1, E2|].
  split; [unfold g2; apply with_index_put_lowered; lia|].
  split; [|split].
  - unfold g2. apply with_index_put_gone; [lia|exact Hgc].
  - assert (length (g_nodes g) <> S (length (g_nodes g1))) as Hne by lia.
    unfold kind, g2. rewrite (with_index_put_other _ _ _ _ _ _ _ _ _ _ _ _ _ Hne Hpc).
    reflexivity.
  - assert (length (g_nodes g) <> S (length (g_nodes g1))) as Hne by lia.
    unfold inputs, g2. rewrite (with_index_put_other _ _ _ _ _ _ _ _ _ _ _ _ _ Hne Hpc).
    simpl. rewrite <- (list_fmap_id (n_inputs r)) at 2.
    apply list_fmap_ext. intros ? v Hv%list_elem_of_lookup_2.
    apply subst_value_ne. apply Hvalid in Hv. unfold id. norm_len.
    unfold value in *. lia.
Qed.

(** X3.  [PrepareCopyForONNX] replaces an [aten::copy_] node by an empty
    [prim::ListConstruct], an [aten::expand_as] of the source to the
    destination and an [aten::index_put_] of the expanded source into the
    destination, hands the [index_put_] node to [PrepareIndexPutForONNX],
    and destroys the copy node after moving every use of its output to the
    output of the [index_put_]. *)
Theorem copy_lowered_to_index_put
    (EncapsulatePatternIntoSubblock : node -> M (option node))
    (g : Graph) (c : node) (rc : NodeR) (b : block) (br : BlockR) (i : nat)
    (dst src nb co : value) (vsrc vco : ValueR)
    (Hop : copy_op g c rc b br i dst src nb co vsrc vco) :
  exists g2,
    PrepareCopyForONNX EncapsulatePatternIntoSubblock c g
      = PrepareIndexPutForONNX EncapsulatePatternIntoSubblock
          (S (S (length (g_nodes g)))) g2 /\
    index_put_lowered g2 c (S (S (length (g_nodes g)))) dst src nb /\
    forall m rm, m <> c -> get_node g m = Some rm ->
      get_node g2 m = Some (rewired co (S (S (length (g_values g)))) rm).
Proof.
  eexists. split; [|split].
  - exact (PrepareCopyForONNX_lowering EncapsulatePatternIntoSubblock
             _ _ _ _ _ _ _ _ _ _ _ _ Hop).
  - destruct Hop as [Hc Hk Hins Houts Hbl Hown Hb Hidx Hret Hsrc Hco Hfresh].
    rewrite Hins in Hfresh. rewrite !not_elem_of_cons in Hfresh.
    destruct Hfresh as (? & ? & ? & _).
    apply with_index_put_lowered; try done.
    + by eapply get_node_Some_lt.
    + by eapply lookup_lt_Some.
  - intros m rm Hm Hrm. by apply with_index_put_other.
Qed.

Lemma ex_add_mul_inplace_op :
  inplace_op ex_add_mul 3
    (mkNode "aten::add_" [2; 1] [3] [] (Some 0) None None)
    0 (mkBlock None 0 1 [2; 3; 4; 5]) 1 3 (mkValue 3 TensorType)
    2 (mkValue 2 TensorType)
    (mkNode "aten::relu" [0] [2] [] (Some 0) None None).
Proof.
  split; try (vm_compute; reflexivity).
  - intros v Hv. elem_cases Hv; vm_compute; lia.
  - intros m Hm. elem_cases Hm; vm_compute; eauto.
  - vm_compute. eauto.
  - vm_compute. eauto.
  - vm_compute. lia.
  - intros Hv. repeat (apply elem_of_cons in Hv as [Hv|Hv]; [discriminate|]).
    by apply elem_of_nil in Hv.
  - vm_compute. lia.
Qed.

(** X1 at the [add_] node of [ex_add_mul]. *)
Lemma inplace_op_direct_aliasing_witness :
  exists g1,
    PrepareInplaceOpsInBlocksForONNX ex_encapsulate 3 ex_add_mul
      = Ok (Some (2, length (g_values ex_add_mul)), g1) /\
    pure_conversion ex_add_mul g1 3
      (mkNode "aten::add_" [2; 1] [3] [] (Some 0) None None) 0 3.
Proof.
  apply (inplace_op_direct_aliasing ex_encapsulate _ _ _ _ _ _ _ _ _ _ _
           ex_add_mul_inplace_op).
  - vm_compute. discriminate.
  - vm_compute. discriminate.
Defined.

Lemma ex_view_write_inplace_op :
  inplace_op ex_view_write 3
    (mkNode "aten::add_" [3; 2] [4] [] (Some 0) None None)
    0 (mkBlock None 0 1 [2; 3]) 1 4 (mkValue 3 TensorType)
    3 (mkValue 2 TensorType)
    (mkNode "aten::select" [0; 1] [3] [] (Some 0) None None).
Proof.
  split; try (vm_compute; reflexivity).
  - intros v Hv. elem_cases Hv; vm_compute; lia.
  - intros m Hm. elem_cases Hm; vm_compute; eauto.
  - vm_compute. eauto.
  - vm_compute. eauto.
  - vm_compute. lia.
  - intros Hv. repeat (apply elem_of_cons in Hv as [Hv|Hv]; [discriminate|]).
    by apply elem_of_nil in Hv.
  - vm_compute. lia.
Qed.

(** X2 at the [add_] node of [ex_view_write]. *)
Lemma inplace_op_view_write_witness :
  exists gc g2 new_copy ipn false_val,
    PrepareInplaceOpsInBlocksForONNX ex_encapsulate 3 ex_view_write
      = PrepareCopyForONNX ex_encapsulate new_copy gc /\
    copy_synthesized gc new_copy 3 (length (g_values ex_view_write)) false_val /\
    PrepareInplaceOpsInBlocksForONNX ex_encapsulate 3 ex_view_write
      = PrepareIndexPutForONNX ex_encapsulate ipn g2 /\
    index_put_lowered g2 new_copy ipn 3 (length (g_values ex_view_write)) false_val /\
    get_node g2 3 = None /\
    kind g2 (length (g_nodes ex_view_write)) = Some (strip_last "aten::add_") /\
    inputs g2 (length (g_nodes ex_view_write)) = [3; 2].
Proof.
  apply (inplace_op_view_write ex_encapsulate _ _ _ _ _ _ _ _ _ _ _
           ex_view_write_inplace_op).
  left. reflexivity.
Defined.

Lemma ex_copy_copy_op :
  copy_op ex_copy 3 (mkNode "aten::copy_" [0; 1; 2] [3] [] (Some 0) None None)
    0 (mkBlock None 0 1 [2; 3]) 1 0 1 2 3 (mkValue 0 TensorType) (mkValue 3 TensorType).
Proof.
  split; try (vm_compute; reflexivity).
  - vm_compute. lia.
  - intros Hv. repeat (apply elem_of_cons in Hv as [Hv|Hv]; [discriminate|]).
    by apply elem_of_nil in Hv.
Qed.

(** X3 at the copy node of [ex_copy]. *)
Lemma copy_lowered_to_index_put_witness :
  exists g2,
    PrepareCopyForONNX ex_encapsulate 3 ex_copy
      = PrepareIndexPutForONNX ex_encapsulate (S (S (length (g_nodes ex_copy)))) g2 /\
    index_put_lowered g2 3 (S (S (length (g_nodes ex_copy)))) 0 1 2 /\
    forall m rm, m <> 3 -> get_node ex_copy m = Some rm ->
      get_node g2 m = Some (rewired 3 (S (S (length (g_values ex_copy)))) rm).
Proof.
  exact (copy_lowered_to_index_put ex_encapsulate _ _ _ _ _ _ _ _ _ _ _ _ ex_copy_copy_op).
Defined.

(** * Nodes and graphs that the in-place removal leaves alone *)

Lemma for_each_noop {A} (xs : list A) (body : A -> M unit) g :
  (forall x, x ∈ xs -> body x g = Ok (tt, g)) ->
  for_each xs body g = Ok (tt, g).
Proof.
  induction xs as [|x xs IH]; intros H; simpl; [done|].
  erewrite bind_run by (apply H; left). apply IH. intros; apply H; by right.
Qed.

Lemma walkable_inv fuel g b :
  walkable fuel g b = true ->
  exists f br, fuel = S f /\ get_block g b = Some br /\
    forall n, n ∈ b_nodes br ->
      exists r, get_node g n = Some r /\
        forall cb, cb ∈ n_blocks r -> walkable f g cb = true.
Proof.
  destruct fuel as [|f]; [discriminate|]. simpl.
  destruct (get_block g b) as [br|]; [|discriminate]. intros H.
  exists f, br. repeat split. intros n Hn.
  rewrite forallb_forall in H. apply list_elem_of_In, H in Hn.
  destruct (get_node g n) as [r|]; [|discriminate]. exists r. split; [done|].
  intros cb Hcb. rewrite forallb_forall in Hn. by apply Hn, list_elem_of_In.
Qed.

(** X4.  [PrepareInplaceOpsInBlocksForONNX] returns the null pair and leaves
    the graph as it is for a node that is not an aten operator, and for an
    aten operator whose name does not end in the marker. *)
Theorem not_inplace_op_untouched
    (EncapsulatePatternIntoSubblock : node -> M (option node))
    (g : Graph) (n : node) (r : NodeR) (c : Ascii.ascii)
    (Hn : get_node g n = Some r)
    (Hk : is_aten (n_kind r) = false \/
          (last_char (n_kind r) = Some c /\ c <> underscore)) :
  PrepareInplaceOpsInBlocksForONNX EncapsulatePatternIntoSubblock n g = Ok (None, g).
Proof.
  unfold PrepareInplaceOpsInBlocksForONNX.
  erewrite bind_run by (by apply node_kind_run).
  destruct (is_aten (n_kind r)) eqn:Ha; cbn [negb]; [|reflexivity].
  destruct Hk as [?|[Hl Hc]]; [discriminate|].
  erewrite bind_run by (by apply lift_opt_run).
  rewrite bool_decide_eq_false_2 by done. reflexivity.
Qed.

Section PrepareForRemoveMutations_facts.

Variable inplaceOpVariant : Graph -> node -> bool.
Variable debugName : Graph -> value -> string.

(** X5.  [addDummyClone] creates nothing and returns the null pointer for
    a value whose type is none of list, tensor, int, float and bool; the
    loop body of [PrepareForRemoveMutations] then fails its internal
    assertion on a use of such a block input by an in-place variant. *)
Theorem unclonable_input_fails (g : Graph) (b : block) (input_ : value) (t : TypeKind)
    (n : node) (i index : nat) (insertBefore_ : bool) (referenceNode : node)
    (Ht : type_of g input_ = Some t)
    (Hc : clonable t = false)
    (Hv : inplaceOpVariant g n = true)
    (Hi : index_of input_ (inputs g n) = Some index)
    (Hn : is_Some (get_node g n))
    (Hb : is_Some (get_block g b)) :
  addDummyClone input_ insertBefore_ referenceNode g = Ok (None, g) /\
  cloneMutatedInput inplaceOpVariant debugName b input_ (n, i) g
    = Fail "TORCH_INTERNAL_ASSERT(nullptr != newNode)".
Proof.
  unfold clonable in Hc. repeat (apply orb_false_iff in Hc as [Hc ?]).
  assert (forall ib rn, addDummyClone input_ ib rn g = Ok (None, g)) as Hadd.
  { intros ib rn. unfold addDummyClone.
    erewrite bind_run by (by apply lift_opt_run).
    rewrite Hc. by repeat match goal with H : bool_decide _ = false |- _ =>
                                    rewrite H; clear H end. }
  split; [apply Hadd|].
  destruct Hn as [r Hr]. destruct Hb as [br Hbr].
  unfold cloneMutatedInput. cbn [fst].
  erewrite bind_run by reflexivity.
  rewrite Hv. cbn [negb]. rewrite Hi.
  erewrite bind_run by (by apply node_kind_run).
  erewrite bind_run by reflexivity.
  erewrite bind_run by (apply lift_opt_run; unfold return_node, with_cerr, get_block in *;
                        cbn [g_blocks]; by rewrite Hbr).
  erewrite bind_run; cycle 1.
  { unfold addDummyClone. unfold with_cerr, type_of in *. cbn [g_values].
    erewrite bind_run by (apply lift_opt_run; cbn [g_values]; exact Ht).
    rewrite Hc. repeat match goal with H : bool_decide _ = false |- _ =>
                          rewrite H; clear H end.
    reflexivity. }
  reflexivity.
Qed.

(** X6.  When no node is an in-place variant, [PrepareForRemoveMutations]
    clones nothing and warns about nothing: the graph, with its log, is
    left as it is. *)
Theorem PrepareForRemoveMutations_noop (g : Graph) (b : block)
    (Hwalk : walkable (length (g_blocks g)) g b = true)
    (Hnone : forall n, inplaceOpVariant g n = false) :
  PrepareForRemoveMutations inplaceOpVariant debugName b g = Ok (tt, g).
Proof.
  unfold PrepareForRemoveMutations. erewrite bind_run by reflexivity.
  revert b Hwalk. generalize (length (g_blocks g)) as fuel.
  induction fuel as [|f IH]; intros b Hwalk; [discriminate|].
  destruct (walkable_inv _ _ _ Hwalk) as (f' & br & [= <-] & Hb & Hnodes).
  cbn [PrepareForRemoveMutations_aux].
  erewrite bind_run by reflexivity.
  erewrite bind_run; cycle 1.
  { apply for_each_noop. intros n Hn. erewrite bind_run by reflexivity.
    apply for_each_noop. intros cb Hcb.
    unfold block_nodes in Hn. rewrite Hb in Hn. simpl in Hn.
    destruct (Hnodes n Hn) as (r & Hr & Hcbs).
    unfold blocks in Hcb. rewrite Hr in Hcb. simpl in Hcb.
    specialize (Hcbs cb Hcb). destruct f as [|f0]; [discriminate|].
    by apply IH. }
  erewrite bind_run by reflexivity.
  apply for_each_noop. intros input_ _. erewrite bind_run by reflexivity.
  apply for_each_noop. intros [n i] _. unfold cloneMutatedInput. cbn [fst].
  erewrite bind_run by reflexivity. by rewrite Hnone.
Qed.

End PrepareForRemoveMutations_facts.

Section convert_facts.

Variable EncapsulatePatternIntoSubblock : node -> M (option node).
Variable inplaceOpVariant : Graph -> node -> bool.

Lemma convertInplaceOp_plain vt g n r :
  get_node g n = Some r ->
  inplace_kind (n_kind r) = false -> inplaceOpVariant g n = false ->
  convertInplaceOp EncapsulatePatternIntoSubblock inplaceOpVariant vt n g = Ok (vt, g).
Proof.
  intros Hn Hk Hv. unfold inplace_kind in Hk.
  repeat (apply orb_false_iff in Hk as [Hk ?]).
  unfold convertInplaceOp.
  erewrite bind_run by (by apply node_kind_run).
  erewrite bind_run by reflexivity.
  rewrite Hk, Hv.
  repeat match goal with H : bool_decide _ = false |- _ => rewrite H; clear H end.
  reflexivity.
Qed.

(** X7.  On a graph none of whose nodes is of a rewritten kind or an
    in-place variant, [convertInplaceOpsAndTrackAlias] walks every block,
    changes nothing and registers nothing. *)
Theorem convertInplaceOpsAndTrackAlias_noop (vt : ValueTracker) (g : Graph)
    (Hwalk : walkable (length (g_blocks g)) g (g_block g) = true)
    (Hplain : forall n r, get_node g n = Some r ->
                inplace_kind (n_kind r) = false /\ inplaceOpVariant g n = false) :
  convertInplaceOpsAndTrackAlias EncapsulatePatternIntoSubblock inplaceOpVariant vt g
  = Ok (vt, g).
Proof.
  unfold convertInplaceOpsAndTrackAlias. erewrite bind_run by reflexivity.
  revert Hwalk. generalize (g_block g) as b. generalize (length (g_blocks g)) as fuel.
  induction fuel as [|f IH]; intros b Hwalk; [discriminate|].
  destruct (walkable_inv _ _ _ Hwalk) as (f' & br & [= <-] & Hb & Hnodes).
  cbn [convertInplaceOpsAndTrackAlias_block].
  erewrite bind_run by reflexivity.
  apply foldM_noop. intros n Hn.
  unfold block_nodes in Hn. rewrite Hb in Hn. simpl in Hn.
  destruct (Hnodes n Hn) as (r & Hr & Hcbs).
  erewrite bind_run by (by apply node_kind_run).
  destruct (bool_decide (n_kind r = prim_If) || bool_decide (n_kind r = prim_Loop)).
  - erewrite bind_run by reflexivity.
    apply foldM_noop. intros cb Hcb.
    unfold blocks in Hcb. rewrite Hr in Hcb. simpl in Hcb.
    by apply IH, Hcbs.
  - destruct (Hplain n r Hr). by apply convertInplaceOp_plain with r.
Qed.

End convert_facts.

Lemma correctAliasReferenceForInputs_untracked vt n g :
  (forall v, v ∈ inputs g n -> alias_to_value_ vt !! v = None) ->
  correctAliasReferenceForInputs vt n g = Ok (tt, g).
Proof.
  intros Hun. unfold correctAliasReferenceForInputs.
  erewrite bind_run by reflexivity.
  apply for_each_noop. intros i Hi. apply elem_of_seq in Hi as [_ Hi]. simpl in Hi.
  destruct (lookup_lt_is_Some_2 (inputs g n) i Hi) as [v Hv].
  unfold correctAliasReferenceForInput.
  erewrite bind_run by (by apply input_run).
  erewrite bind_run; cycle 1.
  { unfold lift_res. rewrite findAlias_untracked; [reflexivity|].
    apply Hun. by eapply list_elem_of_lookup_2. }
  by rewrite decide_True.
Qed.

(** X8.  With a tracker in which no input of any node is registered,
    [correctAliasReferences] walks every block and rewires nothing. *)
Theorem correctAliasReferences_noop (vt : ValueTracker) (g : Graph)
    (Hwalk : walkable (length (g_blocks g)) g (g_block g) = true)
    (Hun : forall n v, v ∈ inputs g n -> alias_to_value_ vt !! v = None) :
  correctAliasReferences vt g = Ok (tt, g).
Proof.
  unfold correctAliasReferences. erewrite bind_run by reflexivity.
  revert Hwalk. generalize (g_block g) as b. generalize (length (g_blocks g)) as fuel.
  induction fuel as [|f IH]; intros b Hwalk; [discriminate|].
  destruct (walkable_inv _ _ _ Hwalk) as (f' & br & [= <-] & Hb & Hnodes).
  cbn [correctAliasReferences_block].
  erewrite bind_run by reflexivity.
  erewrite bind_run; cycle 1.
  { apply for_each_noop. intros n Hn.
    unfold block_nodes in Hn. rewrite Hb in Hn. simpl in Hn.
    destruct (Hnodes n Hn) as (r & Hr & Hcbs).
    erewrite bind_run by (apply correctAliasReferenceForInputs_untracked, Hun).
    erewrite bind_run by (by apply node_kind_run).
    destruct (bool_decide (n_kind r = prim_If) || bool_decide (n_kind r = prim_Loop));
      [|reflexivity].
    erewrite bind_run by reflexivity.
    apply for_each_noop. intros cb Hcb.
    unfold blocks in Hcb. rewrite Hr in Hcb. simpl in Hcb.
    by apply IH, Hcbs. }
  erewrite bind_run by (apply lift_opt_run; unfold return_node; by rewrite Hb).
  apply correctAliasReferenceForInputs_untracked, Hun.
Qed.

(** X4 at the [relu] node of [ex_add_mul]. *)
Lemma not_inplace_op_untouched_witness :
  PrepareInplaceOpsInBlocksForONNX ex_encapsulate 2 ex_add_mul = Ok (None, ex_add_mul).
Proof.
  apply (not_inplace_op_untouched ex_encapsulate ex_add_mul 2
           (mkNode "aten::relu" [0] [2] [] (Some 0) None None) (Ascii.Ascii true false true false true true true false)).
  - vm_compute. reflexivity.
  - right. split; [vm_compute; reflexivity|discriminate].
Defined.

(** X5 at the scalar input of [ex_number_input]. *)
Lemma unclonable_input_fails_witness :
  addDummyClone 1 false 1 ex_number_input = Ok (None, ex_number_input) /\
  cloneMutatedInput ex_inplaceOpVariant ex_debugName 0 1 (2, 1) ex_number_input
    = Fail "TORCH_INTERNAL_ASSERT(nullptr != newNode)".
Proof.
  apply (unclonable_input_fails ex_inplaceOpVariant ex_debugName ex_number_input 0 1 NumberType
           2 1 1 false 1).
  - vm_compute. reflexivity.
  - vm_compute. reflexivity.
  - vm_compute. reflexivity.
  - vm_compute. reflexivity.
  - vm_compute. eauto.
  - vm_compute. eauto.
Defined.

(** The whole pre-pass on [ex_number_input]: the tensor input is cloned, the
    scalar input stops the pass. *)
Example ex_number_input_stops_the_pass :
  PrepareForRemoveMutations ex_inplaceOpVariant ex_debugName 0 ex_number_input
  = Fail "TORCH_INTERNAL_ASSERT(nullptr != newNode)".
Proof. vm_compute. reflexivity. Qed.

(** X6 at [ex_loop]. *)
Lemma PrepareForRemoveMutations_noop_witness :
  PrepareForRemoveMutations (fun _ _ => false) ex_debugName 0 ex_loop = Ok (tt, ex_loop).
Proof.
  apply PrepareForRemoveMutations_noop.
  - vm_compute. reflexivity.
  - intros n. reflexivity.
Defined.

Lemma ex_loop_plain n r :
  get_node ex_loop n = Some r -> inplace_kind (n_kind r) = false.
Proof.
  intros H.
  do 8 (destruct n as [|n]; [vm_compute in H; injection H as <-; vm_compute; reflexivity|]).
  vm_compute in H. destruct n; discriminate.
Qed.

(** X7 at [ex_loop]. *)
Lemma convertInplaceOpsAndTrackAlias_noop_witness :
  convertInplaceOpsAndTrackAlias ex_encapsulate (fun _ _ => false) (init ex_loop) ex_loop
  = Ok (init ex_loop, ex_loop).
Proof.
  apply convertInplaceOpsAndTrackAlias_noop.
  - vm_compute. reflexivity.
  - intros n r H. split; [by eapply ex_loop_plain|reflexivity].
Defined.

(** X8 at [ex_loop]. *)
Lemma correctAliasReferences_noop_witness :
  correctAliasReferences (init ex_loop) ex_loop = Ok (tt, ex_loop).
Proof.
  apply correctAliasReferences_noop.
  - vm_compute. reflexivity.
  - intros n v _. apply lookup_empty.
Defined.

(** * The alias tracker *)

(** X9.  [findAliasForValueAtNode] fails its second internal assertion on a
    registered value none of whose aliases is visible at the node. *)
Theorem findAlias_no_visible_alias_fails (vt : ValueTracker) (g : Graph) (v : value)
    (n : node) (root_v : value) (aliases : list value)
    (Hv : alias_to_value_ vt !! v = Some root_v)
    (Hs : value_to_sorted_aliases_ vt !! root_v = Some aliases)
    (Hnone : forall a, a ∈ aliases -> visible_at g n a = Ok false) :
  findAliasForValueAtNode vt g v n = Fail "TORCH_INTERNAL_ASSERT(nullptr != found_alias)".
Proof.
  unfold findAliasForValueAtNode. rewrite Hv, Hs.
  by rewrite (last_visible_none g n aliases None Hnone).
Qed.

(** X10.  For a registered value, what [findAliasForValueAtNode] returns is
    one of the aliases of the value's root, and it is visible at the node:
    produced before it, in a block that encloses it. *)
Theorem findAlias_returns_visible_alias (vt : ValueTracker) (g : Graph) (v : value)
    (n : node) (root_v r : value)
    (Hv : alias_to_value_ vt !! v = Some root_v)
    (Hr : findAliasForValueAtNode vt g v n = Ok r) :
  r ∈ aliases_of vt root_v /\ visible_at g n r = Ok true.
Proof.
  unfold findAliasForValueAtNode in Hr. rewrite Hv in Hr. unfold aliases_of.
  destruct (value_to_sorted_aliases_ vt !! root_v) as [aliases|]; [|done].
  apply rbind_Ok in Hr as (o & Hl & Ho). destruct o as [r'|]; [|done].
  injection Ho as ->. apply last_visible_found in Hl as [?|[? ?]]; done.
Qed.

(** X11.  [aliasComp] is irreflexive and asymmetric, and two values are
    equivalent under it (neither is ordered before the other) exactly when
    one node produces both. *)
Theorem aliasComp_strict_equiv_same_node (g : Graph) (a b : value) (na nb : node)
    (Ha : node_of g a = Some na) (Hb : node_of g b = Some nb) :
  aliasComp g a a = false /\
  (aliasComp g a b = true -> aliasComp g b a = false) /\
  (aliasComp g a b = false /\ aliasComp g b a = false <-> na = nb).
Proof.
  split; [apply aliasComp_irrefl|]. split; [apply aliasComp_asym|]. split.
  - intros [H1 H2]. exact (aliasComp_equiv_same_node g a b na nb Ha Hb H1 H2).
  - intros ->. unfold aliasComp. rewrite Ha, Hb. rewrite !decide_True by done. done.
Qed.

(** X12.  A write whose new value is produced in the root block, or in a
    block whose owning node is neither a Loop nor an If, is only recorded:
    [registerSetValue] leaves the graph as it is and returns the tracker
    with the new value mapped to the root of the old one. *)
Theorem registerSetValue_outside_loop_if (vt : ValueTracker) (g : Graph)
    (old_v new_v : value) (n : node) (ob : block)
    (Hn : node_of g new_v = Some n) (Hob : owningBlock g n = Some ob)
    (Hplain : ob = root_block_ vt \/
              exists on k, owningNode g ob = Some on /\ kind g on = Some k /\
                           k <> prim_Loop /\ k <> prim_If) :
  registerSetValue vt old_v new_v g = Ok (track_new g vt old_v new_v, g) /\
  alias_to_value_ (track_new g vt old_v new_v) !! new_v = Some (root_of vt old_v).
Proof.
  split; [|by rewrite atv_track_new, decide_True].
  unfold registerSetValue. generalize (length (g_blocks g)) as fuel. intros fuel.
  assert (forall rec, registerSetValue_body rec vt old_v new_v g
                      = Ok (track_new g vt old_v new_v, g)) as Hbody.
  { intros rec. unfold registerSetValue_body.
    erewrite bind_run by (by apply lift_opt_run).
    erewrite bind_run by reflexivity. rewrite Hob.
    destruct (decide (Some ob = Some (root_block_ vt))) as [|Hne]; [reflexivity|].
    destruct Hplain as [->|(on & k & Hon & Hk & Hl & Hi)]; [done|].
    erewrite bind_run by (by apply lift_opt_run).
    erewrite bind_run by (by apply lift_opt_run).
    erewrite bind_run by (by apply lift_opt_run).
    by rewrite !bool_decide_eq_false_2. }
  destruct fuel; simpl; apply Hbody.
Qed.

(** X13.  [registerSetValue] only appends: it creates and destroys no node
    and no block, changes no kind, owner, attribute or block list; a node
    can only gain inputs and outputs at the end, and values are only added. *)
Theorem registerSetValue_only_appends (vt : ValueTracker) (old_v new_v : value)
    (g : Graph) (vt' : ValueTracker) (g' : Graph)
    (H : registerSetValue vt old_v new_v g = Ok (vt', g')) :
  extends g g'.
Proof. by eapply registerSetValue_extends. Qed.

Lemma track_old_sets vt old_v :
  roots_have_sets vt -> roots_have_sets (track_old vt old_v).
Proof.
  intros Hi a r. unfold track_old.
  destruct (alias_to_value_ vt !! old_v) eqn:E; [apply Hi|]. simpl.
  destruct (decide (a = old_v)) as [->|Hne].
  - rewrite lookup_insert_eq. intros [= <-]. rewrite lookup_insert_eq. eauto.
  - rewrite lookup_insert_ne by done. intros Ha. apply Hi in Ha.
    destruct (decide (r = old_v)) as [->|]; [rewrite lookup_insert_eq; eauto|].
    by rewrite lookup_insert_ne.
Qed.

Lemma set_root_aliases_sets vt a r s :
  roots_have_sets vt ->
  roots_have_sets (vt_set_aliases (vt_set_root vt a r) r s).
Proof.
  intros Hi b q. simpl. destruct (decide (b = a)) as [->|Hne].
  - rewrite lookup_insert_eq. intros [= <-]. rewrite lookup_insert_eq. eauto.
  - rewrite lookup_insert_ne by done. intros Hb. apply Hi in Hb.
    destruct (decide (q = r)) as [->|]; [rewrite lookup_insert_eq; eauto|].
    by rewrite lookup_insert_ne.
Qed.

Lemma set_aliases_root_sets vt a r s :
  roots_have_sets vt ->
  roots_have_sets (vt_set_root (vt_set_aliases vt r s) a r).
Proof.
  intros Hi b q. simpl. destruct (decide (b = a)) as [->|Hne].
  - rewrite lookup_insert_eq. intros [= <-]. rewrite lookup_insert_eq. eauto.
  - rewrite lookup_insert_ne by done. intros Hb. apply Hi in Hb.
    destruct (decide (q = r)) as [->|]; [rewrite lookup_insert_eq; eauto|].
    by rewrite lookup_insert_ne.
Qed.

Lemma track_new_sets g vt old_v new_v :
  roots_have_sets vt -> roots_have_sets (track_new g vt old_v new_v).
Proof. intros Hi. unfold track_new. by apply set_root_aliases_sets, track_old_sets. Qed.

Lemma registerSetValue_body_sets rec :
  rec_keeps_sets rec -> rec_keeps_sets (registerSetValue_body rec).
Proof.
  intros Hrec vt old_v new_v g vt' g' H Hi.
  pose proof (track_new_sets g vt old_v new_v Hi) as Hi2.
  unfold registerSetValue_body in H. inv_all.
  case_decide; inv_all; [done|].
  repeat (case_match; inv_all); try done.
  - unfold thread_loop in *. inv_all.
    match goal with H : rec _ _ _ _ = Ok _ |- _ => eapply (Hrec _ _ _ _ _ _ H) end.
    by apply set_aliases_root_sets.
  - unfold thread_if in *. inv_all. case_match; inv_all; [|done].
    match goal with H : rec _ _ _ _ = Ok _ |- _ => by eapply (Hrec _ _ _ _ _ _ H) end.
Qed.

Lemma registerSetValue_aux_sets fuel : rec_keeps_sets (registerSetValue_aux fuel).
Proof.
  induction fuel as [|f IH]; simpl; apply registerSetValue_body_sets; [|done].
  intros ? ? ? ? ? ? H. done.
Qed.

(** X14.  [registerSetValue] keeps the tracker's two maps in step, however
    deep it threads the value through Loop and If nodes: every root that some
    alias is mapped to has a set of aliases, which is what the first internal
    assertion of [findAliasForValueAtNode] asks for; the empty tracker of
    [init] starts that way. *)
Theorem registerSetValue_keeps_alias_sets (vt : ValueTracker) (old_v new_v : value)
    (g : Graph) (vt' : ValueTracker) (g' : Graph)
    (Hsets : roots_have_sets vt)
    (H : registerSetValue vt old_v new_v g = Ok (vt', g')) :
  roots_have_sets (init g) /\ roots_have_sets vt'.
Proof.
  split.
  - intros a r Ha. unfold init in Ha. simpl in Ha. by rewrite lookup_empty in Ha.
  - by eapply registerSetValue_aux_sets.
Qed.

(** X9 at [ex_two_writes] after conversion: the written value read at its
    own producer. *)
Lemma findAlias_no_visible_alias_fails_witness :
  findAliasForValueAtNode (tracker_of ex_two_writes_converted)
    (graph_of ex_two_writes_converted) 2 2
  = Fail "TORCH_INTERNAL_ASSERT(nullptr != found_alias)".
Proof.
  apply (findAlias_no_visible_alias_fails (tracker_of ex_two_writes_converted)
           (graph_of ex_two_writes_converted) 2 2 2 [2; 6; 7]).
  - vm_compute. reflexivity.
  - vm_compute. reflexivity.
  - intros a Ha. elem_cases Ha; vm_compute; reflexivity.
Defined.

(** X10 at [ex_two_writes] after conversion: the read by the last node. *)
Lemma findAlias_returns_visible_alias_witness :
  7 ∈ aliases_of (tracker_of ex_two_writes_converted) 2 /\
  visible_at (graph_of ex_two_writes_converted) 5 7 = Ok true.
Proof.
  apply (findAlias_returns_visible_alias (tracker_of ex_two_writes_converted)
           (graph_of ex_two_writes_converted) 2 5 2 7).
  - vm_compute. reflexivity.
  - vm_compute. reflexivity.
Defined.

(** X11 at the two inputs of [ex_two_writes], both outputs of the param
    node. *)
Lemma aliasComp_strict_equiv_same_node_witness :
  aliasComp ex_two_writes 0 0 = false /\
  (aliasComp ex_two_writes 0 1 = true -> aliasComp ex_two_writes 1 0 = false) /\
  (aliasComp ex_two_writes 0 1 = false /\ aliasComp ex_two_writes 1 0 = false <-> 0 = 0).
Proof.
  apply (aliasComp_strict_equiv_same_node ex_two_writes 0 1 0 0).
  - vm_compute. reflexivity.
  - vm_compute. reflexivity.
Defined.

(** X12 at the first write of [ex_two_writes]. *)
Lemma registerSetValue_outside_loop_if_witness :
  registerSetValue (init ex_two_writes) 2 3 ex_two_writes
    = Ok (track_new ex_two_writes (init ex_two_writes) 2 3, ex_two_writes) /\
  alias_to_value_ (track_new ex_two_writes (init ex_two_writes) 2 3) !! 3
    = Some (root_of (init ex_two_writes) 2).
Proof.
  apply (registerSetValue_outside_loop_if (init ex_two_writes) ex_two_writes 2 3 3 0).
  - vm_compute. reflexivity.
  - vm_compute. reflexivity.
  - left. reflexivity.
Defined.

Lemma ex_loop_registered_eq :
  registerSetValue (init ex_loop) 2 3 ex_loop
  = Ok (tracker_of ex_loop_registered, graph_of ex_loop_registered).
Proof. vm_compute. reflexivity. Qed.

(** X13 at the write inside the loop of [ex_loop]. *)
Lemma registerSetValue_only_appends_witness :
  extends ex_loop (graph_of ex_loop_registered).
Proof.
  exact (registerSetValue_only_appends _ _ _ _ _ _ ex_loop_registered_eq).
Defined.

(** X14 at the write inside the loop of [ex_loop]. *)
Lemma registerSetValue_keeps_alias_sets_witness :
  roots_have_sets (init ex_loop) /\ roots_have_sets (tracker_of ex_loop_registered).
Proof.
  apply (registerSetValue_keeps_alias_sets (init ex_loop) 2 3 ex_loop
           (tracker_of ex_loop_registered) (graph_of ex_loop_registered)).
  - intros a r Ha. unfold init in Ha. simpl in Ha. by rewrite lookup_empty in Ha.
  - exact ex_loop_registered_eq.
Defined.

(** * The list mutations *)

Lemma append_with_output g n r in0 o :
  get_node g n = Some r ->
  n_kind r = aten_insert \/ n_kind r = aten_append ->
  n_inputs r !! 0 = Some in0 -> n_outputs r = [o] ->
  PrepareListAppendAndInsertForONNX n g = Ok (Some (in0, o), g).
Proof.
  intros Hn Hk Hi Ho. unfold PrepareListAppendAndInsertForONNX.
  erewrite bind_run by (by apply node_kind_run).
  erewrite bind_run; cycle 1.
  { apply assert_run. apply orb_true_iff.
    destruct Hk; [left|right]; by apply bool_decide_eq_true. }
  erewrite bind_run by reflexivity.
  rewrite (outputs_get_node _ _ _ Hn), Ho. simpl.
  erewrite bind_run by reflexivity.
  erewrite bind_run by (by eapply input_node_run).
  erewrite bind_run by (by eapply output_node_run).
  reflexivity.
Qed.

Lemma append_without_output g n r in0 v0 :
  get_node g n = Some r ->
  n_kind r = aten_insert \/ n_kind r = aten_append ->
  n_inputs r !! 0 = Some in0 -> n_outputs r = [] ->
  g_values g !! in0 = Some v0 ->
  PrepareListAppendAndInsertForONNX n g
  = Ok (Some (in0, length (g_values g)),
        mkGraph (<[n := Some (set_outputs r [length (g_values g)])]> (g_nodes g))
                (g_blocks g) (g_values g ++ [mkValue n (v_type v0)])
                (g_block g) (g_cerr g)).
Proof.
  intros Hn Hk Hi Ho Hv. pose proof (get_node_Some_lt _ _ _ Hn) as Hnlt.
  pose proof (lookup_lt_Some _ _ _ Hv) as Hvlt.
  unfold PrepareListAppendAndInsertForONNX.
  erewrite bind_run by (by apply node_kind_run).
  erewrite bind_run; cycle 1.
  { apply assert_run. apply orb_true_iff.
    destruct Hk; [left|right]; by apply bool_decide_eq_true. }
  erewrite bind_run by reflexivity.
  rewrite (outputs_get_node _ _ _ Hn), Ho. simpl.
  erewrite bind_run; cycle 1.
  { erewrite bind_run by (by apply addOutput_run).
    erewrite bind_run by (eapply output_node_run; [lk; reflexivity|by rewrite Ho]).
    erewrite bind_run by (eapply input_node_run; [lk; reflexivity|exact Hi]).
    eapply copyMetadata_run; lk; [exact Hv|reflexivity]. }
  gsimp. rewrite insert_end_eq by lens.
  erewrite bind_run by (eapply input_node_run; [lk; reflexivity|exact Hi]).
  erewrite bind_run by (eapply output_node_run; [lk; reflexivity|by rewrite Ho]).
  rewrite Ho. reflexivity.
Qed.

(** X15.  [PrepareListAppendAndInsertForONNX] keeps the append or insert
    node: a node without output gains one, typed like the list it writes to;
    kind, inputs, block lists and all other nodes stay as they are, and the
    call returns the list paired with that output.  A second call changes
    nothing and returns the same pair. *)
Theorem append_node_kept_with_output (g : Graph) (n : node) (r : NodeR)
    (in0 : value) (v0 : ValueR)
    (Hn : get_node g n = Some r)
    (Hk : n_kind r = aten_insert \/ n_kind r = aten_append)
    (Hi : n_inputs r !! 0 = Some in0)
    (Ho : length (n_outputs r) <= 1)
    (Hv : g_values g !! in0 = Some v0) :
  exists o g',
    PrepareListAppendAndInsertForONNX n g = Ok (Some (in0, o), g') /\
    PrepareListAppendAndInsertForONNX n g' = Ok (Some (in0, o), g') /\
    kind g' n = Some (n_kind r) /\ inputs g' n = n_inputs r /\ outputs g' n = [o] /\
    (n_outputs r = [] -> type_of g' o = type_of g in0) /\
    (n_outputs r <> [] -> g' = g) /\
    g_blocks g' = g_blocks g /\
    forall m, m <> n -> get_node g' m = get_node g m.
Proof.
  pose proof (get_node_Some_lt _ _ _ Hn) as Hnlt.
  pose proof (lookup_lt_Some _ _ _ Hv) as Hvlt.
  destruct (n_outputs r) as [|o [|? ?]] eqn:Houts; [| |simpl in Ho; lia].
  - eexists _, _. split; [by eapply append_without_output|].
    split; [|repeat split].
    + eapply append_with_output; [lk; reflexivity|done|done|reflexivity].
    + lk. reflexivity.
    + lk. reflexivity.
    + lk. reflexivity.
    + intros _. lk. by rewrite Hv.
    + done.
    + intros m Hm. lk. reflexivity.
  - exists o, g. split; [by eapply append_with_output|].
    split; [by eapply append_with_output|]. repeat split.
    + unfold kind. by rewrite Hn.
    + by apply inputs_get_node.
    + rewrite (outputs_get_node _ _ _ Hn). done.
    + done.
Qed.

(** X16.  [PrepareListPopForONNX] keeps the pop node: a fresh
    [aten::__getitem__] with the same inputs is inserted right before it and
    takes over the type and every use of the pop's output, which is retyped
    to the type of the list and returned, paired with the list. *)
Theorem pop_becomes_getitem_and_list (g : Graph) (n : node) (r : NodeR) (b : block)
    (br : BlockR) (i : nat) (in0 o : value) (v0 vo : ValueR)
    (Hn : get_node g n = Some r)
    (Hk : n_kind r = aten_pop)
    (Hi : n_inputs r !! 0 = Some in0)
    (Ho : n_outputs r = [o])
    (Hown : n_owning_block r = Some b)
    (Hb : get_block g b = Some br)
    (Hidx : index_of n (b_nodes br) = Some i)
    (Hret : n <> b_return br)
    (Hv0 : g_values g !! in0 = Some v0)
    (Hvo : g_values g !! o = Some vo)
    (Hunread : o ∉ n_inputs r) :
  let getitem := length (g_nodes g) in
  let item := length (g_values g) in
  exists g',
    PrepareListPopForONNX n g = Ok (Some (in0, o), g') /\
    kind g' getitem = Some aten___getitem__ /\
    inputs g' getitem = n_inputs r /\ outputs g' getitem = [item] /\
    type_of g' item = Some (v_type vo) /\
    type_of g' o = Some (v_type v0) /\
    block_nodes g' b = insert_at i getitem (b_nodes br) /\
    get_node g' n = Some r /\
    forall m rm, get_node g m = Some rm -> get_node g' m = Some (rewired o item rm).
Proof.
  intros getitem item.
  pose proof (get_node_Some_lt _ _ _ Hn) as Hnlt.
  pose proof (lookup_lt_Some _ _ _ Hv0) as Hvlt.
  pose proof (lookup_lt_Some _ _ _ Hvo) as Holt.
  pose proof Hn as Hn'. apply get_node_lookup in Hn'.
  unfold get_block in Hb. pose proof (lookup_lt_Some _ _ _ Hb) as Hblt.
  eexists. split.
  - unfold PrepareListPopForONNX.
    erewrite bind_run by (by apply node_kind_run).
    erewrite bind_run by (apply assert_run; by rewrite Hk).
    erewrite bind_run by reflexivity.
    erewrite bind_run by apply create_with_inputs_run.
    rewrite (inputs_get_node _ _ _ Hn).
    erewrite bind_run by (eapply output_node_run; [lk; reflexivity|reflexivity]).
    erewrite bind_run by (eapply output_node_run; [lk; by rewrite Hn'|done]).
    erewrite bind_run; cycle 1.
    { eapply copyMetadata_run; lk; [exact Hvo|reflexivity]. }
    gsimp. rewrite insert_end_eq by lens.
    erewrite bind_run; cycle 1.
    { eapply insertBefore_run with (b := b) (br := br) (i := i); lk;
        try reflexivity; try done. by rewrite Hn'. }
    gsimp. rewrite insert_end_eq by lens.
    erewrite bind_run by apply replaceAllUsesWith_run.
    gsimp.
    erewrite bind_run; cycle 1.
    { eapply input_node_run; [lk; by rewrite Hn'|].
      rewrite rewired_id by done. exact Hi. }
    erewrite bind_run; cycle 1.
    { eapply copyMetadata_run; lk; [exact Hv0|exact Hvo]. }
    gsimp. reflexivity.
  - subst getitem item.
    assert (o <> length (g_values g)) as Hne by lia.
    repeat split.
    + lk. reflexivity.
    + lk. simpl. rewrite <- (list_fmap_id (n_inputs r)) at 2.
      apply list_fmap_ext. intros ? v Hv%list_elem_of_lookup_2.
      apply subst_value_ne. unfold id. intros E. apply Hunread. by rewrite <- E.
    + lk. reflexivity.
    + lk. reflexivity.
    + lk. reflexivity.
    + unfold block_nodes. lk. reflexivity.
    + lk. rewrite Hn'. simpl. by rewrite rewired_id.
    + intros m rm Hrm. pose proof (get_node_Some_lt _ _ _ Hrm) as Hmlt.
      apply get_node_lookup in Hrm. lk. by rewrite Hrm.
Qed.

(** X17.  [PrepareListDeleteForONNX] gives a Delete node without outputs one
    output, typed like the list it deletes from, and returns the list paired
    with it; on a Delete node that already has an output it fails, since the
    node then has two. *)
Theorem delete_gains_list_output (g : Graph) (n : node) (r : NodeR)
    (in0 : value) (v0 : ValueR)
    (Hn : get_node g n = Some r)
    (Hk : n_kind r = aten_Delete)
    (Hi : n_inputs r !! 0 = Some in0)
    (Hv : g_values g !! in0 = Some v0) :
  (n_outputs r = [] ->
   exists g',
     PrepareListDeleteForONNX n g = Ok (Some (in0, length (g_values g)), g') /\
     kind g' n = Some aten_Delete /\ inputs g' n = n_inputs r /\
     outputs g' n = [length (g_values g)] /\
     type_of g' (length (g_values g)) = Some (v_type v0) /\
     g_blocks g' = g_blocks g /\
     forall m, m <> n -> get_node g' m = get_node g m) /\
  (n_outputs r <> [] ->
   PrepareListDeleteForONNX n g
   = Fail "output(): node does not have exactly one output").
Proof.
  pose proof (get_node_Some_lt _ _ _ Hn) as Hnlt.
  pose proof (lookup_lt_Some _ _ _ Hv) as Hvlt.
  split; intros Ho.
  - eexists. split.
    + unfold PrepareListDeleteForONNX.
      erewrite bind_run by (by apply node_kind_run).
      erewrite bind_run by (apply assert_run; by rewrite Hk).
      erewrite bind_run by (by apply addOutput_run).
      erewrite bind_run by (eapply output_node_run; [lk; reflexivity|by rewrite Ho]).
      erewrite bind_run by (eapply input_node_run; [lk; reflexivity|exact Hi]).
      erewrite bind_run; cycle 1.
      { eapply copyMetadata_run; lk; [exact Hv|reflexivity]. }
      gsimp. rewrite insert_end_eq by lens. reflexivity.
    + repeat split.
      * lk. simpl. by rewrite Hk.
      * lk. reflexivity.
      * lk. simpl. by rewrite Ho.
      * lk. reflexivity.
      * intros m Hm. lk. reflexivity.
  - unfold PrepareListDeleteForONNX.
    erewrite bind_run by (by apply node_kind_run).
    erewrite bind_run by (apply assert_run; by rewrite Hk).
    erewrite bind_run by (by apply addOutput_run).
    unfold bind, output, outputs, get_node. gsimp.
    rewrite list_lookup_insert_eq by done. simpl.
    destruct (n_outputs r) as [|o1 [|o2 os]]; done.
Qed.

(** X15 at the append node of [ex_list_ops]. *)
Lemma append_node_kept_with_output_witness :
  exists o g',
    PrepareListAppendAndInsertForONNX 2 ex_list_ops = Ok (Some (0, o), g') /\
    PrepareListAppendAndInsertForONNX 2 g' = Ok (Some (0, o), g') /\
    kind g' 2 = Some "aten::append" /\ inputs g' 2 = [0; 1] /\ outputs g' 2 = [o] /\
    (@nil value = [] -> type_of g' o = type_of ex_list_ops 0) /\
    (@nil value <> [] -> g' = ex_list_ops) /\
    g_blocks g' = g_blocks ex_list_ops /\
    forall m, m <> 2 -> get_node g' m = get_node ex_list_ops m.
Proof.
  apply (append_node_kept_with_output ex_list_ops 2
           (mkNode "aten::append" [0; 1] [] [] (Some 0) None None) 0
           (mkValue 0 ListType)).
  - vm_compute. reflexivity.
  - right. reflexivity.
  - reflexivity.
  - simpl. lia.
  - vm_compute. reflexivity.
Defined.

(** X16 at the pop node of [ex_list_ops]. *)
Lemma pop_becomes_getitem_and_list_witness :
  exists g',
    PrepareListPopForONNX 3 ex_list_ops = Ok (Some (0, 3), g') /\
    kind g' (length (g_nodes ex_list_ops)) = Some aten___getitem__ /\
    inputs g' (length (g_nodes ex_list_ops)) = [0; 2] /\
    outputs g' (length (g_nodes ex_list_ops)) = [length (g_values ex_list_ops)] /\
    type_of g' (length (g_values ex_list_ops)) = Some TensorType /\
    type_of g' 3 = Some ListType /\
    block_nodes g' 0 = insert_at 1 (length (g_nodes ex_list_ops)) [2; 3; 4] /\
    get_node g' 3 = Some (mkNode "aten::pop" [0; 2] [3] [] (Some 0) None None) /\
    forall m rm, get_node ex_list_ops m = Some rm ->
      get_node g' m = Some (rewired 3 (length (g_values ex_list_ops)) rm).
Proof.
  apply (pop_becomes_getitem_and_list ex_list_ops 3
           (mkNode "aten::pop" [0; 2] [3] [] (Some 0) None None) 0
           (mkBlock None 0 1 [2; 3; 4]) 1 0 3 (mkValue 0 ListType) (mkValue 3 TensorType)).
  - vm_compute. reflexivity.
  - reflexivity.
  - reflexivity.
  - reflexivity.
  - reflexivity.
  - vm_compute. reflexivity.
  - vm_compute. reflexivity.
  - vm_compute. lia.
  - vm_compute. reflexivity.
  - vm_compute. reflexivity.
  - intros H. repeat (apply elem_of_cons in H as [H|H]; [discriminate|]).
    by apply elem_of_nil in H.
Defined.

(** X17 at the Delete node of [ex_list_ops]. *)
Lemma delete_gains_list_output_witness :
  (@nil value = [] ->
   exists g',
     PrepareListDeleteForONNX 4 ex_list_ops
       = Ok (Some (0, length (g_values ex_list_ops)), g') /\
     kind g' 4 = Some aten_Delete /\ inputs g' 4 = [0; 2] /\
     outputs g' 4 = [length (g_values ex_list_ops)] /\
     type_of g' (length (g_values ex_list_ops)) = Some ListType /\
     g_blocks g' = g_blocks ex_list_ops /\
     forall m, m <> 4 -> get_node g' m = get_node ex_list_ops m) /\
  (@nil value <> [] ->
   PrepareListDeleteForONNX 4 ex_list_ops
   = Fail "output(): node does not have exactly one output").
Proof.
  apply (delete_gains_list_output ex_list_ops 4
           (mkNode "aten::Delete" [0; 2] [] [] (Some 0) None None) 0
           (mkValue 0 ListType)).
  - vm_compute. reflexivity.
  - reflexivity.
  - reflexivity.
  - vm_compute. reflexivity.
Defined.

(** * The dependency graph of a block and the two grouping passes *)

Section autodiff_facts.

Variable isDifferentiable : Graph -> node -> bool.
Variable isDifferentiableGraph : Graph -> bool.
Variable contractEdge : DynamicDAG -> vertex -> vertex -> option DynamicDAG.

(** X18.  On a well-formed block [make_dependency_graph] succeeds and
    builds one vertex per node of the block, in block order, each wrapping
    exactly that node. *)
Theorem dependency_graph_one_vertex_per_node (g : Graph) (b : block) (br : BlockR)
    (Hb : get_block g b = Some br)
    (Hwf : nodes_wf g b = true) :
  exists d,
    make_dependency_graph g b = Ok d /\
    length (maybe_vertices d) = length (b_nodes br) /\
    (forall i n, b_nodes br !! i = Some n ->
       exists v vx, maybe_vertices d !! i = Some (Some v) /\
                    get_vertex d v = Some vx /\ rdata vx = [n]) /\
    rdata <$> live_vertices d = (fun n => [n]) <$> b_nodes br.
Proof.
  destruct (make_dependency_graph_ok g b Hwf) as (d & Hd & Hr).
  unfold block_nodes in Hr. rewrite Hb in Hr. simpl in Hr.
  exists d. split; [done|]. split.
  { apply (f_equal length) in Hr. unfold dag_rdata in Hr.
    by rewrite !length_fmap in Hr. }
  split; [intros i n Hi; by eapply dag_rdata_lookup|].
  by apply live_vertices_rdata.
Qed.

(** X19.  Reordering a well-formed block by the dependency graph that was
    just built for it, with no edge contracted, moves every node to where
    it already is: the graph is left as it was. *)
Theorem reorder_by_fresh_dag_is_identity (g : Graph) (b : block)
    (Hwf : nodes_wf g b = true) :
  exists d,
    make_dependency_graph g b = Ok d /\
    reorder_according_to_dag b d g = Ok (tt, g).
Proof.
  destruct (make_dependency_graph_ok g b Hwf) as (d & Hd & Hr).
  destruct (nodes_wf_inv g b Hwf) as (br & Hb & Hnd & Hret & Hrown & Hown).
  exists d. split; [done|].
  unfold reorder_according_to_dag.
  erewrite bind_run by (apply lift_opt_run; unfold return_node; by rewrite Hb).
  erewrite for_each_rdata by (by apply live_vertices_rdata).
  unfold block_nodes. rewrite Hb. simpl.
  by apply (reorder_nodes_noop g b br).
Qed.

(** X20.  [merge_differentiable_groups] merges no group below the size
    threshold: when every vertex wraps at least one and fewer than
    [size_threshold] nodes, [mergeNodes] is never called, and the graph and
    the list of differentiable graphs are returned as they were. *)
Theorem small_groups_not_merged (g : Graph) (b : block) (vs : list Vertex)
    (size_threshold : nat) (diff_graphs : list (node * Graph))
    (Hsmall : forall v, v ∈ vs -> 1 <= length (rdata v) < size_threshold) :
  merge_differentiable_groups isDifferentiable isDifferentiableGraph b vs
    size_threshold diff_graphs g
  = Ok (diff_graphs, g).
Proof.
  induction vs as [|v vs IH]; simpl; [done|].
  assert (1 <= length (rdata v) < size_threshold) as Hv by (apply Hsmall; left).
  assert (exists c, shouldConsiderForMerge isDifferentiable g v = Ok c) as [c Hc].
  { unfold shouldConsiderForMerge. case_bool_decide; [by eexists|].
    destruct (rdata v) as [|n [|m l]]; simpl in *; try lia.
    case_bool_decide; by eexists. }
  erewrite bind_run by reflexivity.
  erewrite bind_run by (unfold lift_res; by rewrite Hc).
  rewrite bool_decide_eq_true_2 by lia.
  destruct c; simpl; apply IH; intros; apply Hsmall; by right.
Qed.

(** X21.  With threshold 0 [CreateAutodiffSubgraphsNaive] asks
    [mergeNodes] for a group of no nodes, which fails its first assertion,
    whenever the run of differentiable nodes is empty: on an empty block,
    and on a block that starts with a non-differentiable node. *)
Theorem naive_threshold_zero_fails (fuel : nat) (diff_graphs : list (node * Graph))
    (g : Graph) (b : block)
    (Hrun : block_nodes g b = [] \/
            exists n rest, block_nodes g b = n :: rest /\ isDifferentiable g n = false) :
  CreateAutodiffSubgraphsNaive isDifferentiable isDifferentiableGraph fuel 0
    diff_graphs b g
  = Fail "JIT_ASSERT(nodes.size() > 0)".
Proof.
  destruct fuel; cbn [CreateAutodiffSubgraphsNaive];
    (erewrite bind_run by reflexivity);
    (destruct Hrun as [->|(n & rest & -> & Hn)]; simpl;
     [ erewrite bind_run by reflexivity; reflexivity
     | unfold bind at 1; unfold bind at 1; unfold bind at 1; unfold get;
       rewrite Hn; reflexivity ]).
Qed.

(** X22.  When the only differentiable nodes are constants and the
    threshold is at least 1, [CreateAutodiffSubgraphsNaive] walks the block
    and the blocks nested in it, groups nothing, and returns the graph and
    the list of differentiable graphs as they were. *)
Theorem naive_only_constants_noop (fuel threshold : nat)
    (diff_graphs : list (node * Graph)) (g : Graph) (b : block)
    (Hth : 1 <= threshold)
    (Hwalk : walkable fuel g b = true)
    (Hconst : forall n r, get_node g n = Some r -> isDifferentiable g n = true ->
                n_kind r = prim_Constant) :
  CreateAutodiffSubgraphsNaive isDifferentiable isDifferentiableGraph fuel threshold
    diff_graphs b g
  = Ok (diff_graphs, g).
Proof.
  revert b diff_graphs Hwalk.
  induction fuel as [|f IH]; intros b diff_graphs Hwalk; [discriminate|].
  destruct (walkable_inv _ _ _ Hwalk) as (f' & br & [= <-] & Hb & Hnodes).
  cbn [CreateAutodiffSubgraphsNaive].
  erewrite bind_run by reflexivity.
  assert (forall dg, merge_groupable isDifferentiableGraph b threshold [] dg g
                     = Ok (dg, g)) as Hmg.
  { intros dg. unfold merge_groupable. simpl.
    by rewrite bool_decide_eq_false_2 by lia. }
  erewrite bind_run; cycle 1.
  { apply foldM_noop. intros n Hn. erewrite bind_run by reflexivity.
    unfold block_nodes in Hn. rewrite Hb in Hn. simpl in Hn.
    destruct (Hnodes n Hn) as (r & Hr & Hcbs).
    destruct (isDifferentiable g n) eqn:Hd.
    - erewrite bind_run by (by apply node_kind_run).
      rewrite (Hconst n r Hr Hd). by rewrite bool_decide_eq_true_2.
    - cbn [fst snd]. erewrite bind_run by apply Hmg.
      erewrite bind_run by reflexivity.
      erewrite bind_run; [reflexivity|].
      apply foldM_noop. intros cb Hcb.
      unfold blocks in Hcb. rewrite Hr in Hcb. simpl in Hcb.
      specialize (Hcbs cb Hcb). destruct f as [|f0]; [discriminate|].
      by apply IH. }
  apply Hmg.
Qed.

End autodiff_facts.

(** X18 at the block of [ex_chain]. *)
Lemma dependency_graph_one_vertex_per_node_witness :
  exists d,
    make_dependency_graph ex_chain 0 = Ok d /\
    length (maybe_vertices d) = 3 /\
    (forall i n, [2; 3; 4] !! i = Some n ->
       exists v vx, maybe_vertices d !! i = Some (Some v) /\
                    get_vertex d v = Some vx /\ rdata vx = [n]) /\
    rdata <$> live_vertices d = [[2]; [3]; [4]].
Proof.
  apply (dependency_graph_one_vertex_per_node ex_chain 0 (mkBlock None 0 1 [2; 3; 4])).
  - vm_compute. reflexivity.
  - vm_compute. reflexivity.
Defined.

(** X19 at the root block of [ex_loop]. *)
Lemma reorder_by_fresh_dag_is_identity_witness :
  exists d,
    make_dependency_graph ex_loop 0 = Ok d /\
    reorder_according_to_dag 0 d ex_loop = Ok (tt, ex_loop).
Proof.
  apply reorder_by_fresh_dag_is_identity. vm_compute. reflexivity.
Defined.

(** X20 at [ex_chain] with [relu] and [add] contracted into one vertex and
    a threshold of 3. *)
Lemma small_groups_not_merged_witness :
  merge_differentiable_groups ex_isDifferentiable (fun _ => true) 0
    (live_vertices ex_chain_dag_contracted) 3 [] ex_chain
  = Ok ([], ex_chain).
Proof.
  apply small_groups_not_merged.
  apply Forall_forall. vm_compute. repeat constructor.
Defined.

(** X21 at [ex_loop] when nothing is differentiable. *)
Lemma naive_threshold_zero_fails_witness :
  CreateAutodiffSubgraphsNaive (fun _ _ => false) (fun _ => true) 2 0 [] 0 ex_loop
  = Fail "JIT_ASSERT(nodes.size() > 0)".
Proof.
  apply naive_threshold_zero_fails. right. exists 2, [3; 7]. split; reflexivity.
Defined.

Lemma only_constants_differentiable g n r :
  get_node g n = Some r ->
  bool_decide (kind g n = Some prim_Constant) = true ->
  n_kind r = prim_Constant.
Proof.
  intros Hn Hd. apply bool_decide_eq_true in Hd.
  unfold kind in Hd. rewrite Hn in Hd. by injection Hd.
Qed.

(** X22 at [ex_add_mul], whose constant is its only differentiable node. *)
Lemma naive_only_constants_noop_witness :
  CreateAutodiffSubgraphsNaive
    (fun g n => bool_decide (kind g n = Some prim_Constant)) (fun _ => true)
    2 1 [] 0 ex_add_mul
  = Ok ([], ex_add_mul).
Proof.
  apply naive_only_constants_noop.
  - lia.
  - vm_compute. reflexivity.
  - intros n r. apply only_constants_differentiable.
Defined.

(** * The clone that replaces a mutated block input *)

Lemma addDummyClone_clone_run g v t b br rn :
  type_of g v = Some t ->
  t <> ListType -> clonable t = true ->
  get_block g b = Some br ->
  owningBlock g rn = Some b ->
  owningBlock g (b_param br) = Some b ->
  b_return br < length (g_nodes g) ->
  addDummyClone v false rn g = Ok (Some (S (length (g_nodes g))), with_clone g b br v t).
Proof.
  intros Ht Hnl Hc Hb Hrn Hpar Hret.
  pose proof (owningBlock_lt _ _ _ Hrn) as Hrlt.
  pose proof (owningBlock_lt _ _ _ Hpar) as Hplt.
  pose proof Hb as Hb'. unfold get_block in Hb'.
  pose proof (lookup_lt_Some _ _ _ Hb') as Hblt.
  pose proof Hrn as Hrn'. unfold owningBlock, get_node in Hrn'.
  pose proof Hpar as Hpar'. unfold owningBlock, get_node in Hpar'.
  unfold addDummyClone.
  erewrite bind_run by (by apply lift_opt_run).
  rewrite bool_decide_eq_false_2 by done.
  unfold clonable in Hc. rewrite bool_decide_eq_false_2 in Hc by done. simpl in Hc.
  rewrite Hc.
  erewrite bind_run by apply create_run_1.
  erewrite bind_run by (apply output_run; lk; reflexivity).
  erewrite bind_run by (eapply setType_run; lk; reflexivity).
  gsimp. rewrite insert_end_eq by lens.
  erewrite bind_run by apply create_run_1.
  gsimp. norm_len.
  erewrite bind_run by (apply addInput_run; lk; reflexivity).
  gsimp. rewrite insert_end_eq by lens.
  erewrite bind_run by (apply addInput_run; lk; reflexivity).
  gsimp. rewrite insert_end_eq by lens.
  erewrite bind_run by (apply output_run; lk; reflexivity).
  erewrite bind_run by (eapply setType_run; lk; reflexivity).
  gsimp. rewrite insert_end_eq by lens.
  erewrite bind_run; cycle 1.
  { erewrite bind_run; cycle 1.
    { apply lift_opt_run. lk. exact Hrn'. }
    unfold prependNode.
    erewrite bind_run by (apply lift_opt_run; unfold param_node; lk; rewrite Hb'; reflexivity).
    eapply insertAfter_param_run with (b := b) (br := br); lk; try reflexivity; try done. }
  gsimp. rewrite insert_end_eq by lens.
  erewrite bind_run; cycle 1.
  { eapply insertBefore_run with (b := b) (i := 0); lk; try reflexivity.
    - cbn [b_return set_b_nodes]. lia.
    - cbn [b_nodes set_b_nodes index_of]. by rewrite decide_True. }
  gsimp. unfold ret, with_clone. do 2 f_equal. f_equal.
  - rewrite insert_app_l by lens. rewrite insert_end_eq by lens.
    rewrite <- app_assoc. reflexivity.
  - rewrite list_insert_insert_eq. reflexivity.
  - rewrite <- app_assoc. reflexivity.
Qed.

Lemma addDummyClone_list_run g v b br rn :
  type_of g v = Some ListType ->
  get_block g b = Some br ->
  owningBlock g rn = Some b ->
  owningBlock g (b_param br) = Some b ->
  addDummyClone v false rn g = Ok (Some (length (g_nodes g)), with_list_clone g b br v).
Proof.
  intros Ht Hb Hrn Hpar.
  pose proof (owningBlock_lt _ _ _ Hrn) as Hrlt.
  pose proof (owningBlock_lt _ _ _ Hpar) as Hplt.
  pose proof Hb as Hb'. unfold get_block in Hb'.
  pose proof (lookup_lt_Some _ _ _ Hb') as Hblt.
  pose proof Hrn as Hrn'. unfold owningBlock, get_node in Hrn'.
  pose proof Hpar as Hpar'. unfold owningBlock, get_node in Hpar'.
  unfold addDummyClone.
  erewrite bind_run by (by apply lift_opt_run).
  rewrite bool_decide_eq_true_2 by done.
  erewrite bind_run by apply create_run_1.
  erewrite bind_run by (apply addInput_run; lk; reflexivity).
  gsimp. rewrite insert_end_eq by lens.
  erewrite bind_run by (apply output_run; lk; reflexivity).
  erewrite bind_run by (eapply setType_run; lk; reflexivity).
  gsimp. rewrite insert_end_eq by lens.
  erewrite bind_run; cycle 1.
  { erewrite bind_run; cycle 1.
    { apply lift_opt_run. lk. exact Hrn'. }
    unfold prependNode.
    erewrite bind_run by (apply lift_opt_run; unfold param_node; lk; rewrite Hb'; reflexivity).
    eapply insertAfter_param_run with (b := b) (br := br); lk; try reflexivity; try done. }
  gsimp. rewrite insert_end_eq by lens. reflexivity.
Qed.

(** ** The order of the nodes that were there before *)

Lemma find_same_block_Some g l rs r :
  find_same_block g l rs = Some r -> r ∈ rs /\ same_block g l r = true.
Proof.
  induction rs as [|x rs IH]; simpl; [discriminate|].
  destruct (same_block g l x) eqn:E.
  - intros [= <-]. split; [left|done].
  - intros H. destruct (IH H). split; [by right|done].
Qed.

Lemma find_common_Some g ls rs l r :
  find_common g ls rs = Some (l, r) -> l ∈ ls /\ r ∈ rs /\ same_block g l r = true.
Proof.
  induction ls as [|x ls IH]; simpl; [discriminate|].
  destruct (find_same_block g x rs) as [y|] eqn:E.
  - intros [= <- <-]. apply find_same_block_Some in E as [? ?]. split; [left|done].
  - intros H. destruct (IH H) as (? & ? & ?). split; [by right|done].
Qed.

Lemma same_block_no_block g l r : owningBlock g r = None -> same_block g l r = false.
Proof. unfold same_block. intros ->. by destruct (owningBlock g l). Qed.

Lemma find_common_diag g ls pre :
  (forall x, x ∈ pre -> owningBlock g x = None) ->
  match find_common g ls (pre ++ ls) with
  | Some (l, r) => l = r
  | None => True
  end.
Proof.
  revert pre. induction ls as [|l ls IH]; intros pre Hpre; simpl; [done|].
  assert (forall rs, find_same_block g l (pre ++ rs) = find_same_block g l rs) as Hskip.
  { intros rs. clear IH. induction pre as [|x pre IHp]; simpl; [done|].
    rewrite same_block_no_block by (apply Hpre; left).
    apply IHp. intros; apply Hpre; by right. }
  rewrite Hskip. simpl.
  destruct (same_block g l l) eqn:E; [done|].
  assert (owningBlock g l = None) as Hl.
  { unfold same_block in E. destruct (owningBlock g l); [|done].
    by rewrite bool_decide_eq_true_2 in E. }
  destruct (find_same_block g l ls) as [r|] eqn:Er.
  { apply find_same_block_Some in Er as [_ Er]. unfold same_block in Er.
    by rewrite Hl in Er. }
  specialize (IH (pre ++ [l])). rewrite <- app_assoc in IH. apply IH.
  intros x [Hx|Hx%list_elem_of_singleton]%elem_of_app; [by apply Hpre|by subst].
Qed.

Lemma isBefore_irrefl g n : isBefore g n n = false.
Proof.
  unfold isBefore, common_block_pair.
  pose proof (find_common_diag g (up_chain (length (g_blocks g)) g n) []) as H.
  simpl in H. destruct (find_common _ _ _) as [[l r]|]; [|done].
  rewrite H by (intros ? ?%elem_of_nil; done).
  destruct (topo_position g r); [|done]. apply bool_decide_eq_false. lia.
Qed.

Lemma index_of_app_fresh (x : nat) (news l : list nat) :
  x ∉ news -> index_of x (news ++ l) = (fun i => length news + i) <$> index_of x l.
Proof.
  induction news as [|y news IH]; intros Hx; simpl.
  - by destruct (index_of x l).
  - rewrite decide_False by (intros ->; apply Hx; left).
    rewrite IH by (intros ?; apply Hx; by right).
    by destruct (index_of x l).
Qed.

Section prepended.

(** [g'] lists the fresh nodes [news] at the start of block [b] and keeps
    the owners of the nodes and blocks of [g]. *)
Variables (g g' : Graph) (b : block) (br : BlockR) (news : list node).
Hypothesis Hb : get_block g b = Some br.
Hypothesis Hblk : g_blocks g' = <[b := set_b_nodes br (news ++ b_nodes br)]> (g_blocks g).
Hypothesis Hown : forall m, m < length (g_nodes g) -> owningBlock g' m = owningBlock g m.
Hypothesis Hnew : forall x, x ∈ news -> length (g_nodes g) <= x.
Hypothesis Hlive : owners_live g = true.

Lemma prepended_get_block b' :
  get_block g' b' = if decide (b' = b) then Some (set_b_nodes br (news ++ b_nodes br))
                    else get_block g b'.
Proof.
  unfold get_block in *. rewrite Hblk. case_decide as E.
  - subst b'. apply list_lookup_insert_eq. by eapply lookup_lt_Some.
  - by apply list_lookup_insert_ne.
Qed.

Lemma prepended_owningNode b' : owningNode g' b' = owningNode g b'.
Proof.
  unfold owningNode. rewrite prepended_get_block. case_decide; [|done].
  subst b'. by rewrite Hb.
Qed.

Lemma prepended_blocks_length : length (g_blocks g') = length (g_blocks g).
Proof. rewrite Hblk. apply length_insert. Qed.

Lemma owners_live_lt b' on : owningNode g b' = Some on -> on < length (g_nodes g).
Proof.
  unfold owningNode, get_block. intros H.
  destruct (g_blocks g !! b') as [br'|] eqn:E; [|discriminate]. simpl in H.
  unfold owners_live in Hlive. rewrite forallb_forall in Hlive.
  apply list_elem_of_lookup_2, list_elem_of_In, Hlive in E. rewrite H in E.
  by apply bool_decide_eq_true in E.
Qed.

Lemma prepended_up_chain fuel m :
  m < length (g_nodes g) ->
  up_chain fuel g' m = up_chain fuel g m /\
  Forall (fun x => x < length (g_nodes g)) (up_chain fuel g m).
Proof.
  revert m. induction fuel as [|f IH]; intros m Hm; simpl.
  - split; [done|]. by repeat constructor.
  - rewrite Hown by done. destruct (owningBlock g m) as [b'|]; simpl.
    + rewrite prepended_owningNode.
      destruct (owningNode g b') as [p|] eqn:Ep.
      * destruct (IH p) as [-> ?]; [by eapply owners_live_lt|].
        split; [done|]. by constructor.
      * split; [done|]. by repeat constructor.
    + split; [done|]. by repeat constructor.
Qed.

Lemma prepended_same_block l r :
  l < length (g_nodes g) -> r < length (g_nodes g) ->
  same_block g' l r = same_block g l r.
Proof. intros Hl Hr. unfold same_block. by rewrite !Hown. Qed.

Lemma prepended_find_same_block l rs :
  l < length (g_nodes g) -> Forall (fun x => x < length (g_nodes g)) rs ->
  find_same_block g' l rs = find_same_block g l rs.
Proof.
  intros Hl. induction 1 as [|r rs Hr _ IH]; simpl; [done|].
  by rewrite prepended_same_block, IH.
Qed.

Lemma prepended_find_common ls rs :
  Forall (fun x => x < length (g_nodes g)) ls ->
  Forall (fun x => x < length (g_nodes g)) rs ->
  find_common g' ls rs = find_common g ls rs.
Proof.
  intros Hls Hrs. induction Hls as [|l ls Hl _ IH]; simpl; [done|].
  by rewrite prepended_find_same_block, IH.
Qed.

Lemma prepended_topo_position m :
  m < length (g_nodes g) ->
  topo_position g' m
  = if decide (owningBlock g m = Some b) then shifted (length news) <$> topo_position g m
    else topo_position g m.
Proof.
  intros Hm. unfold topo_position. rewrite Hown by done.
  destruct (owningBlock g m) as [b'|]; simpl; [|done].
  rewrite prepended_get_block.
  destruct (decide (b' = b)) as [->|Hne].
  - rewrite decide_True by done. rewrite Hb. simpl.
    repeat case_decide; simpl; try done.
    + by rewrite length_app.
    + rewrite index_of_app_fresh.
      * by destruct (index_of m (b_nodes br)).
      * intros Hin%Hnew. lia.
  - rewrite decide_False by congruence. done.
Qed.

Lemma shifted_lt k p q : shifted k p < shifted k q <-> p < q.
Proof. destruct p, q; simpl; lia. Qed.

Lemma prepended_isBefore n m :
  n < length (g_nodes g) -> m < length (g_nodes g) ->
  isBefore g' n m = isBefore g n m.
Proof.
  intros Hn Hm. unfold isBefore, common_block_pair.
  rewrite prepended_blocks_length.
  destruct (prepended_up_chain (length (g_blocks g)) n Hn) as [-> Hcn].
  destruct (prepended_up_chain (length (g_blocks g)) m Hm) as [-> Hcm].
  rewrite prepended_find_common by done.
  destruct (find_common _ _ _) as [[l r]|] eqn:E; [|done].
  apply find_common_Some in E as (Hl & Hr & Hsame).
  rewrite Forall_forall in Hcn, Hcm.
  rewrite !prepended_topo_position by auto.
  unfold same_block in Hsame.
  destruct (owningBlock g l) as [bl|], (owningBlock g r) as [b'|]; try done.
  apply bool_decide_eq_true in Hsame as ->.
  case_decide; [|done].
  destruct (topo_position g l) as [p|], (topo_position g r) as [q|]; simpl; try done.
  apply bool_decide_ext, shifted_lt.
Qed.

End prepended.

Lemma lookup_app_2_0 {A} (l : list A) a b : (l ++ [a; b]) !! length l = Some a.
Proof. rewrite lookup_app_r by lia. by rewrite Nat.sub_diag. Qed.

Lemma lookup_app_2_1 {A} (l : list A) a b : (l ++ [a; b]) !! S (length l) = Some b.
Proof.
  rewrite lookup_app_r by lia. by replace (S (length l) - length l) with 1 by lia.
Qed.

Ltac lk2 := lk; rewrite ?lookup_app_2_0, ?lookup_app_2_1; simpl.

Lemma replaceInput_run n i v g r :
  get_node g n = Some r -> i < length (n_inputs r) ->
  replaceInput n i v g
  = Ok (tt, with_nodes g (<[n := Some (set_inputs r (<[i := v]> (n_inputs r)))]> (g_nodes g))).
Proof. intros Hn Hi. apply replaceInput_Ok. eauto. Qed.

(** X23.  For a value of a type it knows how to clone, [addDummyClone]
    called with [insertBefore = false] puts the clone at the start of the
    block of the reference node: an [aten::list] of the value for a list,
    and otherwise an [aten::clone] of the value and of a fresh None constant
    that is placed right before it.  The clone's output has the type of the
    value; the nodes that were there and the other blocks are untouched. *)
Theorem addDummyClone_prepends_clone (g : Graph) (v : value) (t : TypeKind)
    (b : block) (br : BlockR) (rn : node)
    (Ht : type_of g v = Some t)
    (Hc : clonable t = true)
    (Hb : get_block g b = Some br)
    (Hrn : owningBlock g rn = Some b)
    (Hpar : owningBlock g (b_param br) = Some b)
    (Hret : owningBlock g (b_return br) = Some b) :
  exists c o g',
    addDummyClone v false rn g = Ok (Some c, g') /\
    kind g' c = Some (if bool_decide (t = ListType) then aten_list else aten_clone) /\
    outputs g' c = [o] /\ type_of g' o = Some t /\
    (t = ListType -> inputs g' c = [v] /\ block_nodes g' b = c :: b_nodes br) /\
    (t <> ListType ->
     exists nn nv, inputs g' c = [v; nv] /\
       kind g' nn = Some prim_Constant /\ inputs g' nn = [] /\ outputs g' nn = [nv] /\
       type_of g' nv = Some NoneType /\
       block_nodes g' b = nn :: c :: b_nodes br) /\
    (forall m, m < length (g_nodes g) -> get_node g' m = get_node g m) /\
    (forall b', b' <> b -> get_block g' b' = get_block g b').
Proof.
  pose proof (owningBlock_lt _ _ _ Hret) as Hrlt.
  pose proof Hb as Hb'. unfold get_block in Hb'.
  pose proof (lookup_lt_Some _ _ _ Hb') as Hblt.
  destruct (decide (t = ListType)) as [->|Hnl].
  - exists (length (g_nodes g)), (length (g_values g)), (with_list_clone g b br v).
    split; [by apply addDummyClone_list_run|].
    unfold with_list_clone.
    repeat split; try done.
    + lk. reflexivity.
    + lk. reflexivity.
    + lk. reflexivity.
    + lk. reflexivity.
    + unfold block_nodes. lk. reflexivity.
    + intros m Hm. lk. reflexivity.
    + intros b' Hne. lk. reflexivity.
  - exists (S (length (g_nodes g))), (S (length (g_values g))), (with_clone g b br v t).
    split; [by apply addDummyClone_clone_run|].
    unfold with_clone. rewrite bool_decide_eq_false_2 by done.
    repeat split; try done.
    + lk2. reflexivity.
    + lk2. reflexivity.
    + lk2. reflexivity.
    + intros _. exists (length (g_nodes g)), (length (g_values g)).
      repeat split; try (lk2; reflexivity).
      unfold block_nodes. lk. reflexivity.
    + intros m Hm. lk. reflexivity.
    + intros b' Hne. lk. reflexivity.
Qed.

Lemma replaceAllUsesAfterNodeWith_get g old n new m :
  get_node (uses_after_rewired g old n new) m
  = (fun r => if isAfter g m n then rewired old new r else r) <$> get_node g m.
Proof.
  unfold uses_after_rewired, get_node, with_nodes. cbn [g_nodes].
  rewrite list_lookup_imap. unfold node in *.
  destruct (g_nodes g !! m) as [[r|]|]; simpl; try done.
  unfold rewired. by destruct (isAfter g m n).
Qed.

Section mutated_input.

Variable inplaceOpVariant : Graph -> node -> bool.
Variable debugName : Graph -> value -> string.

(** X24.  When a block input of tensor, int, float or bool type is read
    by an in-place variant that is listed in the block, the loop body of
    [PrepareForRemoveMutations] logs the warning, puts a None constant and
    an [aten::clone] of the input at the start of the block, and makes the
    clone's output the operand of the mutating node and of every node that
    comes after it; the clone itself and the nodes before the mutating
    node still read the input. *)
Theorem mutated_input_cloned (g : Graph) (b : block) (br : BlockR) (input_ : value)
    (t : TypeKind) (n : node) (r : NodeR) (index i : nat)
    (Ht : type_of g input_ = Some t)
    (Hc : clonable t = true)
    (Hnl : t <> ListType)
    (Hv : inplaceOpVariant g n = true)
    (Hn : get_node g n = Some r)
    (Hi : index_of input_ (n_inputs r) = Some index)
    (Hb : get_block g b = Some br)
    (Hnb : n_owning_block r = Some b)
    (Hnp : n <> b_param br)
    (Hpar : owningBlock g (b_param br) = Some b)
    (Hret : owningBlock g (b_return br) = Some b)
    (Hlive : owners_live g = true) :
  let none_node := length (g_nodes g) in
  let clone_node := S (length (g_nodes g)) in
  let none_out := length (g_values g) in
  let clone_out := S (length (g_values g)) in
  exists g',
    cloneMutatedInput inplaceOpVariant debugName b input_ (n, i) g = Ok (tt, g') /\
    g_cerr g' = g_cerr g ++ [mutation_warning (n_kind r) (debugName g input_)] /\
    block_nodes g' b = none_node :: clone_node :: b_nodes br /\
    get_node g' none_node
      = Some (mkNode prim_Constant [] [none_out] [] (Some b) None None) /\
    type_of g' none_out = Some NoneType /\
    get_node g' clone_node
      = Some (mkNode aten_clone [input_; none_out] [clone_out] [] (Some b) None None) /\
    type_of g' clone_out = Some t /\
    get_node g' n = Some (set_inputs r (<[index := clone_out]> (n_inputs r))) /\
    forall m rm, m <> n -> get_node g m = Some rm ->
      get_node g' m = Some (if isAfter g m n then rewired input_ clone_out rm else rm).
Proof.
  intros none_node clone_node none_out clone_out.
  pose proof (get_node_Some_lt _ _ _ Hn) as Hnlt.
  pose proof (owningBlock_lt _ _ _ Hret) as Hrlt.
  pose proof (owningBlock_lt _ _ _ Hpar) as Hplt.
  pose proof Hn as Hn'. apply get_node_lookup in Hn'.
  pose proof Hb as Hb'. unfold get_block in Hb'.
  pose proof (lookup_lt_Some _ _ _ Hb') as Hblt.
  pose proof (index_of_lt _ _ _ Hi) as Hilt.
  eexists. split.
  - unfold cloneMutatedInput. cbn [fst].
    erewrite bind_run by reflexivity.
    rewrite Hv. cbn [negb].
    rewrite (inputs_get_node _ _ _ Hn), Hi.
    erewrite bind_run by (by apply node_kind_run).
    erewrite bind_run by reflexivity.
    erewrite bind_run by (apply lift_opt_run; unfold return_node; lk; rewrite Hb'; reflexivity).
    erewrite bind_run; cycle 1.
    { apply (addDummyClone_clone_run _ input_ t b br); try done. }
    erewrite bind_run by reflexivity.
    unfold with_clone. gsimp.
    erewrite bind_run by (apply output_run; lk2; reflexivity).
    erewrite bind_run; cycle 1.
    { apply (replaceInput_run n index _ _ r); [lk; by rewrite Hn'|done]. }
    gsimp. reflexivity.
  - unfold replaceAllUsesAfterNodeWith.
    match goal with |- context [imap _ (g_nodes ?G)] => set (g3 := G) end.
    assert (forall m, m < length (g_nodes g) -> owningBlock g3 m = owningBlock g m) as Hown.
    { intros m Hm. subst g3. destruct (decide (m = n)) as [->|Hne].
      - lk. by rewrite Hn'.
      - lk. reflexivity. }
    assert (forall m, m < length (g_nodes g) -> isAfter g3 m n = isAfter g m n) as Hbef.
    { intros m Hm. unfold isAfter.
      apply (prepended_isBefore g g3 b br [none_node; clone_node]); try done.
      intros x Hx. subst none_node clone_node.
      apply elem_of_cons in Hx as [->|Hx]; [lia|].
      apply list_elem_of_singleton in Hx as ->. lia. }
    assert (isAfter g3 clone_node n = false) as Hclone.
    { unfold isAfter, isBefore, common_block_pair.
      assert (exists tl, up_chain (length (g_blocks g3)) g3 n = n :: tl) as [tl ->]
        by (destruct (length (g_blocks g3)); simpl; eauto).
      assert (exists tl, up_chain (length (g_blocks g3)) g3 clone_node = clone_node :: tl)
        as [tl' ->] by (destruct (length (g_blocks g3)); simpl; eauto).
      assert (owningBlock g3 n = Some b) as Hon.
      { rewrite Hown by done. unfold owningBlock. by rewrite Hn. }
      assert (owningBlock g3 clone_node = Some b) as Hoc.
      { subst g3 clone_node. lk2. reflexivity. }
      assert (get_block g3 b
              = Some (set_b_nodes br (none_node :: clone_node :: b_nodes br))) as Hb3.
      { subst g3. lk. reflexivity. }
      cbn [find_common find_same_block]. unfold same_block. rewrite Hon, Hoc.
      rewrite bool_decide_eq_true_2 by done.
      unfold topo_position. rewrite Hon, Hoc. simpl. rewrite Hb3. simpl.
      rewrite (decide_False (P := n = b_param br)) by done.
      rewrite (decide_False (P := clone_node = b_param br)) by (subst clone_node; lia).
      rewrite (decide_False (P := clone_node = b_return br)) by (subst clone_node; lia).
      rewrite (decide_False (P := clone_node = none_node)) by (subst clone_node none_node; lia).
      rewrite (decide_True (P := clone_node = clone_node)) by done.
      rewrite (decide_False (P := n = none_node)) by (subst none_node; lia).
      rewrite (decide_False (P := n = clone_node)) by (subst clone_node; lia).
      case_decide; simpl.
      - first [done | apply bool_decide_eq_false; lia].
      - destruct (index_of n (b_nodes br)); simpl; [|done].
        first [done | apply bool_decide_eq_false; lia]. }
    pose proof (replaceAllUsesAfterNodeWith_get g3 input_ n clone_out) as Hget.
    unfold uses_after_rewired in Hget.
    assert (get_node g3 none_node
            = Some (mkNode prim_Constant [] [none_out] [] (Some b) None None)) as Hg3n
      by (subst g3 none_node; lk2; reflexivity).
    assert (get_node g3 clone_node
            = Some (mkNode aten_clone [input_; none_out] [clone_out] [] (Some b) None None))
      as Hg3c by (subst g3 clone_node; lk2; reflexivity).
    assert (get_node g3 n = Some (set_inputs r (<[index := clone_out]> (n_inputs r))))
      as Hg3i by (subst g3; lk; reflexivity).
    split_and!.
    + reflexivity.
    + unfold block_nodes. subst g3. lk. reflexivity.
    + rewrite Hget, Hg3n. cbn [fmap option_fmap option_map]. by case (isAfter g3 none_node n).
    + subst g3 none_out. lk2. reflexivity.
    + by rewrite Hget, Hclone, Hg3c.
    + subst g3 clone_out. lk2. reflexivity.
    + rewrite Hget, Hg3i. unfold isAfter. by rewrite isBefore_irrefl.
    + intros m rm Hne Hrm. pose proof (get_node_Some_lt _ _ _ Hrm) as Hmlt.
      rewrite Hget, Hbef by done.
      assert (get_node g3 m = Some rm) as ->; [|done].
      apply get_node_lookup in Hrm. subst g3. lk. by rewrite Hrm.
Qed.

End mutated_input.

(** X23 at the tensor input of [ex_add_mul]. *)
Lemma addDummyClone_prepends_clone_witness :
  exists c o g',
    addDummyClone 0 false 1 ex_add_mul = Ok (Some c, g') /\
    kind g' c = Some aten_clone /\
    outputs g' c = [o] /\ type_of g' o = Some TensorType /\
    (TensorType = ListType -> inputs g' c = [0] /\ block_nodes g' 0 = [c; 2; 3; 4; 5]) /\
    (TensorType <> ListType ->
     exists nn nv, inputs g' c = [0; nv] /\
       kind g' nn = Some prim_Constant /\ inputs g' nn = [] /\ outputs g' nn = [nv] /\
       type_of g' nv = Some NoneType /\
       block_nodes g' 0 = [nn; c; 2; 3; 4; 5]) /\
    (forall m, m < 6 -> get_node g' m = get_node ex_add_mul m) /\
    (forall b', b' <> 0 -> get_block g' b' = get_block ex_add_mul b').
Proof.
  apply (addDummyClone_prepends_clone ex_add_mul 0 TensorType 0
           (mkBlock None 0 1 [2; 3; 4; 5]) 1); vm_compute; reflexivity.
Defined.

(** X24 at the tensor input of [ex_number_input], which [fill_] writes to. *)
Lemma mutated_input_cloned_witness :
  exists g',
    cloneMutatedInput ex_inplaceOpVariant ex_debugName 0 0 (2, 0) ex_number_input = Ok (tt, g') /\
    g_cerr g' = [mutation_warning "aten::fill_" "v"] /\
    block_nodes g' 0 = [3; 4; 2] /\
    get_node g' 3 = Some (mkNode prim_Constant [] [3] [] (Some 0) None None) /\
    type_of g' 3 = Some NoneType /\
    get_node g' 4 = Some (mkNode aten_clone [0; 3] [4] [] (Some 0) None None) /\
    type_of g' 4 = Some TensorType /\
    get_node g' 2 = Some (mkNode "aten::fill_" [4; 1] [2] [] (Some 0) None None) /\
    forall m rm, m <> 2 -> get_node ex_number_input m = Some rm ->
      get_node g' m = Some (if isAfter ex_number_input m 2 then rewired 0 4 rm else rm).
Proof.
  apply (mutated_input_cloned ex_inplaceOpVariant ex_debugName ex_number_input 0 (mkBlock None 0 1 [2])
           0 TensorType 2 (mkNode "aten::fill_" [0; 1] [2] [] (Some 0) None None) 0 0);
    try (vm_compute; reflexivity).
  - discriminate.
  - discriminate.
Defined.
